(** * protoc-gen-twirp_typescript: the schema-to-model pipeline of
    [generator/client.go], embedded in Rocq.

    Go strings are byte strings; they are modelled by [string], whose
    characters are the bytes.  Pointers to [Model] are indices into the slice
    [ctx.Models] (every [*Model] of the program is appended there exactly once,
    by [AddModel]), and the nil pointer is [None].  A run of the program either
    returns, panics (a Go runtime error), stops in [log.Fatalf], or does not
    terminate; the last case shows up as [OutOfFuel] for every amount of fuel. *)

From Stdlib Require Import Ascii String List Bool Arith Lia.
From stdpp Require Import base option list relations strings gmap.

Local Open Scope string_scope.
Local Open Scope list_scope.

(* stdpp keeps [String.append] folded; the proofs below compute with it. *)
#[local] Arguments String.append !s1 s2 : simpl nomatch.

(** ** Outcomes of a run *)

Inductive panic_kind : Type :=
| NilDereference        (* invalid memory address or nil pointer dereference *)
| SliceOutOfRange.      (* slice bounds out of range *)

Inductive result (A : Type) : Type :=
| Ok (a : A)
| Panic (k : panic_kind)
| Fatal (msg : string)
| OutOfFuel.

Arguments Ok {A} a.
Arguments Panic {A} k.
Arguments Fatal {A} msg.
Arguments OutOfFuel {A}.

#[global] Instance result_bind : MBind result := fun A B k r =>
  match r with
  | Ok a => k a
  | Panic e => Panic e
  | Fatal msg => Fatal msg
  | OutOfFuel => OutOfFuel
  end.

(** [for _, x := range xs { body }] with a body that may abort. *)
Fixpoint forM {A S : Type} (body : S -> A -> result S) (xs : list A) (s : S)
  : result S :=
  match xs with
  | [] => Ok s
  | x :: xs' => s' ← body s x; forM body xs' s'
  end.

(** ** The functions of package [strings] that the generator calls *)

Module strings.

Definition isUpperByte (c : ascii) : bool :=
  (65 <=? nat_of_ascii c)%nat && (nat_of_ascii c <=? 90)%nat.

Definition isLowerByte (c : ascii) : bool :=
  (97 <=? nat_of_ascii c)%nat && (nat_of_ascii c <=? 122)%nat.

Definition lowerByte (c : ascii) : ascii :=
  if isUpperByte c then ascii_of_nat (nat_of_ascii c + 32)%nat else c.

Definition upperByte (c : ascii) : ascii :=
  if isLowerByte c then ascii_of_nat (nat_of_ascii c - 32)%nat else c.

Fixpoint mapBytes (f : ascii -> ascii) (s : string) : string :=
  match s with
  | EmptyString => EmptyString
  | String c s' => String (f c) (mapBytes f s')
  end.

(** [strings.ToLower] and [strings.ToUpper] on a string of ASCII bytes,
    where Go maps byte by byte.  Protobuf identifiers are ASCII; the
    theorems about case mapping assume [isASCII]. *)
Definition ToLower (s : string) : string := mapBytes lowerByte s.
Definition ToUpper (s : string) : string := mapBytes upperByte s.

Fixpoint isASCII (s : string) : bool :=
  match s with
  | EmptyString => true
  | String c s' => (nat_of_ascii c <? 128)%nat && isASCII s'
  end.

(** [strings.Replace(s, old, "", -1)] for a one-byte [old]. *)
Fixpoint removeAll (old : ascii) (s : string) : string :=
  match s with
  | EmptyString => EmptyString
  | String c s' =>
      if Ascii.eqb c old then removeAll old s' else String c (removeAll old s')
  end.

Fixpoint HasPrefix (s pre : string) : bool :=
  match pre, s with
  | EmptyString, _ => true
  | String p pre', String c s' => Ascii.eqb c p && HasPrefix s' pre'
  | String _ _, EmptyString => false
  end.

Fixpoint dropBytes (n : nat) (s : string) : string :=
  match n, s with
  | O, _ => s
  | S n', String _ s' => dropBytes n' s'
  | S _, EmptyString => EmptyString
  end.

Fixpoint takeBytes (n : nat) (s : string) : string :=
  match n, s with
  | O, _ => EmptyString
  | S n', String c s' => String c (takeBytes n' s')
  | S _, EmptyString => EmptyString
  end.

Definition TrimPrefix (s pre : string) : string :=
  if HasPrefix s pre then dropBytes (String.length pre) s else s.

Definition HasSuffix (s suf : string) : bool :=
  (String.length suf <=? String.length s)%nat
  && String.eqb (dropBytes (String.length s - String.length suf) s) suf.

Definition TrimSuffix (s suf : string) : string :=
  if HasSuffix s suf
  then takeBytes (String.length s - String.length suf) s else s.

Fixpoint inCutset (c : ascii) (cutset : string) : bool :=
  match cutset with
  | EmptyString => false
  | String d cutset' => Ascii.eqb c d || inCutset c cutset'
  end.

Fixpoint TrimLeft (s cutset : string) : string :=
  match s with
  | EmptyString => EmptyString
  | String c s' => if inCutset c cutset then TrimLeft s' cutset else s
  end.

Fixpoint TrimRight (s cutset : string) : string :=
  match s with
  | EmptyString => EmptyString
  | String c s' =>
      match TrimRight s' cutset with
      | EmptyString => if inCutset c cutset then EmptyString else String c EmptyString
      | t => String c t
      end
  end.

(** [strings.Trim(s, cutset)]: all leading and trailing bytes of [cutset]
    are removed. *)
Definition Trim (s cutset : string) : string :=
  TrimRight (TrimLeft s cutset) cutset.

(** [strings.Split(s, sep)] for a one-byte [sep]; the result is never
    empty, [Split "" sep = [""]]. *)
Fixpoint Split (s : string) (sep : ascii) : list string :=
  match s with
  | EmptyString => [EmptyString]
  | String c s' =>
      if Ascii.eqb c sep then EmptyString :: Split s' sep
      else match Split s' sep with
           | p :: ps => String c p :: ps
           | [] => [String c EmptyString]
           end
  end.

(** [strings.Join(parts, "")]. *)
Fixpoint Join (parts : list string) : string :=
  match parts with
  | [] => EmptyString
  | p :: ps => p +:+ Join ps
  end.

End strings.

(** Slice expressions on strings: [s[lo:hi]] and [s[lo:]] panic when the
    bounds do not fit. *)
Definition slice (s : string) (lo hi : nat) : result string :=
  if ((hi <=? String.length s) && (lo <=? hi))%nat
  then Ok (strings.takeBytes (hi - lo) (strings.dropBytes lo s))
  else Panic SliceOutOfRange.

Definition sliceFrom (s : string) (lo : nat) : result string :=
  if (lo <=? String.length s)%nat then Ok (strings.dropBytes lo s)
  else Panic SliceOutOfRange.


(** ** The schema, as the host compiler hands it over

    Only the parts of [descriptor.FileDescriptorProto] that the generator
    reads.  Each projection stands for the Go getter of the same name;
    [m_GetMapEntry m] is [m.Options.GetMapEntry()], false when there are no
    options. *)

Inductive FieldDescriptorProto_Type : Type :=
| TYPE_DOUBLE | TYPE_FLOAT | TYPE_INT64 | TYPE_UINT64 | TYPE_INT32
| TYPE_FIXED64 | TYPE_FIXED32 | TYPE_BOOL | TYPE_STRING | TYPE_GROUP
| TYPE_MESSAGE | TYPE_BYTES | TYPE_UINT32 | TYPE_ENUM | TYPE_SFIXED32
| TYPE_SFIXED64 | TYPE_SINT32 | TYPE_SINT64.

Inductive FieldDescriptorProto_Label : Type :=
| LABEL_OPTIONAL | LABEL_REQUIRED | LABEL_REPEATED.

Record FieldDescriptorProto : Type := mkFieldDescriptor {
  f_GetName : string;
  f_GetType : FieldDescriptorProto_Type;
  f_GetLabel : FieldDescriptorProto_Label;
  f_GetTypeName : string
}.

#[local] Unset Elimination Schemes.
Inductive DescriptorProto : Type := mkDescriptor {
  m_GetName : string;
  m_GetField : list FieldDescriptorProto;
  m_GetNestedType : list DescriptorProto;
  m_GetMapEntry : bool
}.
#[local] Set Elimination Schemes.

Record MethodDescriptorProto : Type := mkMethodDescriptor {
  md_GetName : string;
  md_GetInputType : string;
  md_GetOutputType : string
}.

Record ServiceDescriptorProto : Type := mkServiceDescriptor {
  s_GetName : string;
  s_GetMethod : list MethodDescriptorProto
}.

Record FileDescriptorProto : Type := mkFileDescriptor {
  d_GetPackage : string;
  d_GetMessageType : list DescriptorProto;
  d_GetService : list ServiceDescriptorProto
}.

(** ** The model registry *)

Record ModelField : Type := mkModelField {
  FieldName : string;          (* ModelField.Name *)
  FieldType : string;          (* ModelField.Type *)
  JSONName : string;
  JSONType : string;
  IsMessage : bool;
  IsRepeated : bool;
  MapType : option string
}.

Record MapDetails : Type := mkMapDetails {
  MapName : string;            (* MapDetails.Name *)
  KeyField : ModelField;
  ValueField : ModelField
}.

Record Model : Type := mkModel {
  Name : string;
  Primitive : bool;
  Fields : list ModelField;
  Map : option MapDetails;
  CanMarshal : bool;
  CanUnmarshal : bool
}.

Record ServiceMethod : Type := mkServiceMethod {
  MethodName : string;         (* ServiceMethod.Name *)
  Path : string;
  InputArg : string;
  InputType : string;
  OutputType : string
}.

Record Service : Type := mkService {
  ServiceName : string;        (* Service.Name *)
  Package : string;
  Methods : list ServiceMethod
}.

(** A [*Model] is the position of the model in [Models]; [None] is nil. *)
Definition ptr : Type := option nat.

Record APIContext : Type := mkAPIContext {
  Models : list Model;
  Services : list Service;
  modelLookup : gmap string nat
}.

Definition NewAPIContext : APIContext :=
  {| Models := []; Services := []; modelLookup := ∅ |}.

(** [AddModel] appends the pointer and stores it under the model's name; an
    earlier entry of the same name is overwritten. *)
Definition AddModel (ctx : APIContext) (m : Model) : APIContext :=
  {| Models := Models ctx ++ [m];
     Services := Services ctx;
     modelLookup := <[Name m := length (Models ctx)]> (modelLookup ctx) |}.

(** ** Type mapper *)

Definition removePkg (s pkg : string) : string :=
  strings.removeAll "." (strings.TrimPrefix s ("." +:+ pkg +:+ ".")).

Definition types (f : FieldDescriptorProto) (pkg : string) : string * string :=
  match f_GetType f with
  | TYPE_DOUBLE | TYPE_FIXED32 | TYPE_FIXED64 | TYPE_INT32 | TYPE_INT64 =>
      ("number", "number")
  | TYPE_STRING => ("string", "string")
  | TYPE_BOOL => ("boolean", "boolean")
  | TYPE_MESSAGE =>
      let name := f_GetTypeName f in
      if String.eqb name ".google.protobuf.Timestamp"
      then ("Date", "string")
      else (removePkg name pkg, removePkg name pkg +:+ "JSON")
  | _ => ("string", "string")
  end.

Definition isRepeated (f : FieldDescriptorProto) : bool :=
  match f_GetLabel f with LABEL_REPEATED => true | _ => false end.

Definition protoToTSType (f : FieldDescriptorProto) (pkg : string)
  : string * string :=
  let '(tsType, jsonType) := types f pkg in
  if isRepeated f then (tsType +:+ "[]", jsonType +:+ "[]")
  else (tsType, jsonType).

(** The key and value loop of [mapType]: the last field named [key] (resp.
    [value]) decides. *)
Definition mapKeyVal (pkg : string) (es : list FieldDescriptorProto)
  : string * string :=
  fold_left
    (fun kv e =>
       let keyType :=
         if String.eqb (f_GetName e) "key" then fst (types e pkg) else fst kv in
       let valType :=
         if String.eqb (f_GetName e) "value" then fst (types e pkg) else snd kv in
       (keyType, valType))
    es ("", "").

Fixpoint mapTypeLoop (pkg simpleName : string) (ns : list DescriptorProto)
  : option string :=
  match ns with
  | [] => None
  | n :: ns' =>
      if String.eqb (m_GetName n) simpleName && m_GetMapEntry n
      then let '(keyType, valType) := mapKeyVal pkg (m_GetField n) in
           Some ("Map<" +:+ keyType +:+ "," +:+ valType +:+ ">")
      else mapTypeLoop pkg simpleName ns'
  end.

Definition mapType (f : FieldDescriptorProto) (m : DescriptorProto)
  (pkg : string) : option string :=
  let typeName := f_GetTypeName f in
  if String.eqb typeName "" then None
  else
    let splits := strings.Split typeName "." in
    let simpleName := List.last splits "" in
    mapTypeLoop pkg simpleName (m_GetNestedType m).

(** ** Field names *)

Definition camelCasePart (i : nat) (p : string) : result string :=
  if (i =? 0)%nat then Ok (strings.ToLower p)
  else
    first ← slice p 0 1;
    rest ← sliceFrom p 1;
    Ok (strings.ToUpper first +:+ strings.ToLower rest).

Fixpoint camelCaseLoop (i : nat) (parts : list string) : result (list string) :=
  match parts with
  | [] => Ok []
  | p :: ps =>
      p' ← camelCasePart i p;
      ps' ← camelCaseLoop (S i) ps;
      Ok (p' :: ps')
  end.

Definition camelCase (s : string) : result string :=
  parts ← camelCaseLoop 0 (strings.Split s "_");
  Ok (strings.Join parts).

Definition newField (f : FieldDescriptorProto) (m : DescriptorProto)
  (pkg : string) : result ModelField :=
  let '(tsType, jsonType) := protoToTSType f pkg in
  let jsonName := f_GetName f in
  name ← camelCase jsonName;
  Ok {| FieldName := name;
        FieldType := tsType;
        JSONName := jsonName;
        JSONType := jsonType;
        IsMessage := match f_GetType f with TYPE_MESSAGE => true | _ => false end;
        IsRepeated := isRepeated f;
        MapType := mapType f m pkg |}.

(** ** Schema walker *)

(** The field loop of [addMessageType]: the fields in declaration order,
    and the pointers [keyField] and [valueField] (nil until a field of that
    name is met; the last such field wins). *)
Definition fieldStep (m : DescriptorProto) (pkg : string)
  (acc : list ModelField * option ModelField * option ModelField)
  (f : FieldDescriptorProto)
  : result (list ModelField * option ModelField * option ModelField) :=
  let '(fields, keyField, valueField) := acc in
  field ← newField f m pkg;
  let keyField :=
    if String.eqb (f_GetName f) "key" then Some field else keyField in
  let valueField :=
    if String.eqb (f_GetName f) "value" then Some field else valueField in
  Ok (fields ++ [field], keyField, valueField).

(** [model.Map = ...] through the pointer [p]. *)
Definition setMap (ctx : APIContext) (p : nat) (md : MapDetails) : APIContext :=
  {| Models :=
       alter (fun m => {| Name := Name m; Primitive := Primitive m;
                          Fields := Fields m; Map := Some md;
                          CanMarshal := CanMarshal m;
                          CanUnmarshal := CanUnmarshal m |}) p (Models ctx);
     Services := Services ctx;
     modelLookup := modelLookup ctx |}.

Definition newModel (name : string) (fields : list ModelField) : Model :=
  {| Name := name; Primitive := false; Fields := fields; Map := None;
     CanMarshal := false; CanUnmarshal := false |}.

(** [if m.Options.GetMapEntry() { model.Map = &MapDetails{...} }], with the
    dereferences [*keyField] and [*valueField]. *)
Definition attachMap (mapEntry : bool) (name : string) (p : nat)
  (keyField valueField : option ModelField) (ctx : APIContext)
  : result APIContext :=
  if mapEntry then
    match keyField, valueField with
    | Some k, Some v =>
        Ok (setMap ctx p {| MapName := strings.TrimSuffix name "Entry";
                            KeyField := k; ValueField := v |})
    | _, _ => Panic NilDereference
    end
  else Ok ctx.

Fixpoint addMessageType (m : DescriptorProto) (prefix pkg : string)
  (ctx : APIContext) {struct m} : result APIContext :=
  let name := strings.removeAll "." prefix +:+ m_GetName m in
  '(fields, keyField, valueField) ←
     forM (fieldStep m pkg) (m_GetField m) ([], None, None);
  let p := length (Models ctx) in
  let ctx := AddModel ctx (newModel name fields) in
  ctx ← attachMap (m_GetMapEntry m) name p keyField valueField ctx;
  (fix nestedLoop (ns : list DescriptorProto) (ctx : APIContext)
     : result APIContext :=
     match ns with
     | [] => Ok ctx
     | n :: ns' =>
         ctx' ← addMessageType n (prefix +:+ "." +:+ m_GetName m) pkg ctx;
         nestedLoop ns' ctx'
     end) (m_GetNestedType m) ctx.

(** The loop over [m.GetNestedType()] at the end of [addMessageType]. *)
Definition walkNested (prefix pkg : string) (ns : list DescriptorProto)
  (ctx : APIContext) : result APIContext :=
  forM (fun ctx n => addMessageType n prefix pkg ctx) ns ctx.

(** ** Service builder *)

Definition newMethod (pkg : string) (m : MethodDescriptorProto)
  : result ServiceMethod :=
  let methodPath := md_GetName m in
  first ← slice methodPath 0 1;
  rest ← sliceFrom methodPath 1;
  let methodName := strings.ToLower first +:+ rest in
  let in_ := removePkg (md_GetInputType m) pkg in
  inFirst ← slice in_ 0 1;
  inRest ← sliceFrom in_ 1;
  let arg := strings.ToLower inFirst +:+ inRest in
  Ok {| MethodName := methodName;
        Path := methodPath;
        InputArg := arg;
        InputType := in_;
        OutputType := removePkg (md_GetOutputType m) pkg |}.

Definition newService (pkg : string) (s : ServiceDescriptorProto)
  : result Service :=
  methods ←
    forM (fun ms m => method ← newMethod pkg m; Ok (ms ++ [method]))
         (s_GetMethod s) [];
  Ok {| ServiceName := s_GetName s; Package := pkg; Methods := methods |}.

Definition addService (ctx : APIContext) (service : Service) : APIContext :=
  {| Models := Models ctx;
     Services := Services ctx ++ [service];
     modelLookup := modelLookup ctx |}.

(** ** Reachability propagator *)

Inductive flag : Type := Marshal | Unmarshal.

Definition getFlag (fl : flag) (m : Model) : bool :=
  match fl with Marshal => CanMarshal m | Unmarshal => CanUnmarshal m end.

Definition setFlag (fl : flag) (m : Model) : Model :=
  match fl with
  | Marshal =>
      {| Name := Name m; Primitive := Primitive m; Fields := Fields m;
         Map := Map m; CanMarshal := true; CanUnmarshal := CanUnmarshal m |}
  | Unmarshal =>
      {| Name := Name m; Primitive := Primitive m; Fields := Fields m;
         Map := Map m; CanMarshal := CanMarshal m; CanUnmarshal := true |}
  end.

(** The seeding loops of [CreateClientAPI]. *)
Definition seedMethod (m : Model) (sm : ServiceMethod) : Model :=
  let m := if String.eqb (Name m) (InputType sm) then setFlag Marshal m else m in
  if String.eqb (Name m) (OutputType sm) then setFlag Unmarshal m else m.

Definition seedModel (svcs : list Service) (m : Model) : Model :=
  fold_left (fun m s => fold_left seedMethod (Methods s) m) svcs m.

Definition seedFlags (ctx : APIContext) : APIContext :=
  {| Models := map (seedModel (Services ctx)) (Models ctx);
     Services := Services ctx;
     modelLookup := modelLookup ctx |}.

(** [m.CanMarshal = true] (resp. [m.CanUnmarshal = true]) through [p]. *)
Definition setModelFlag (fl : flag) (ctx : APIContext) (p : nat) : APIContext :=
  {| Models := alter (setFlag fl) p (Models ctx);
     Services := Services ctx;
     modelLookup := modelLookup ctx |}.

(** [m.CanMarshal] (resp. [m.CanUnmarshal]) read through [p]. *)
Definition flagAt (fl : flag) (ctx : APIContext) (p : nat) : bool :=
  match Models ctx !! p with
  | Some m => getFlag fl m
  | None => false
  end.

(** [!f.IsMessage || f.Type == "Date"] *)
Definition skipField (f : ModelField) : bool :=
  negb (IsMessage f) || String.eqb (FieldType f) "Date".

Definition baseType (f : ModelField) : string :=
  if IsRepeated f then strings.Trim (FieldType f) "[]" else FieldType f.

Definition couldNotFind {A : Type} (baseType fieldName : string) : result A :=
  Fatal ("could not find model of type " +:+ baseType
         +:+ " for field " +:+ fieldName).

(** [enableMarshal] and [enableUnmarshal] are the same function up to the
    flag they set.  [fuel] bounds the depth of the recursion. *)
Fixpoint enableFlag (fl : flag) (fuel : nat) (ctx : APIContext) (m : ptr)
  : result APIContext :=
  match fuel with
  | O => OutOfFuel
  | S fuel' =>
      match m with
      | None => Panic NilDereference
      | Some p =>
          match Models ctx !! p with
          | None => Panic NilDereference
          | Some model =>
              let ctx := setModelFlag fl ctx p in
              forM (fun ctx f =>
                      if skipField f then Ok ctx
                      else match modelLookup ctx !! baseType f with
                           | None => couldNotFind (baseType f) (FieldName f)
                           | Some mm => enableFlag fl fuel' ctx (Some mm)
                           end)
                   (Fields model) ctx
          end
      end
  end.

Definition enableMarshal : nat -> APIContext -> ptr -> result APIContext :=
  enableFlag Marshal.

Definition enableUnmarshal : nat -> APIContext -> ptr -> result APIContext :=
  enableFlag Unmarshal.

(** The body of the inner loop of [ApplyMarshalFlags], for the model at [p]. *)
Definition applyField (fuel : nat) (p : nat) (ctx : APIContext) (f : ModelField)
  : result APIContext :=
  if skipField f then Ok ctx
  else
    ctx ← (if flagAt Marshal ctx p
           then enableMarshal fuel ctx (modelLookup ctx !! baseType f)
           else Ok ctx);
    if flagAt Unmarshal ctx p
    then match modelLookup ctx !! baseType f with
         | None => couldNotFind (baseType f) (FieldName f)
         | Some m => enableUnmarshal fuel ctx (Some m)
         end
    else Ok ctx.

Definition applyModel (fuel : nat) (ctx : APIContext) (p : nat)
  : result APIContext :=
  match Models ctx !! p with
  | None => Ok ctx
  | Some m => forM (applyField fuel p) (Fields m) ctx
  end.

Definition ApplyMarshalFlags (fuel : nat) (ctx : APIContext)
  : result APIContext :=
  forM (applyModel fuel) (seq 0 (length (Models ctx))) ctx.

(** ** [CreateClientAPI], up to the context handed to the template *)

Definition dateModel : Model :=
  {| Name := "Date"; Primitive := true; Fields := []; Map := None;
     CanMarshal := false; CanUnmarshal := false |}.

Definition walkMessages (pkg : string) (ms : list DescriptorProto)
  (ctx : APIContext) : result APIContext :=
  forM (fun ctx m => addMessageType m "" pkg ctx) ms ctx.

Definition buildServices (pkg : string) (ss : list ServiceDescriptorProto)
  (ctx : APIContext) : result APIContext :=
  forM (fun ctx s => service ← newService pkg s; Ok (addService ctx service))
       ss ctx.

(** The registry as [ApplyMarshalFlags] receives it. *)
Definition seededContext (d : FileDescriptorProto) : result APIContext :=
  let pkg := d_GetPackage d in
  ctx ← walkMessages pkg (d_GetMessageType d) NewAPIContext;
  ctx ← buildServices pkg (d_GetService d) ctx;
  let ctx := seedFlags ctx in
  Ok (AddModel ctx dateModel).

Definition clientContext (fuel : nat) (d : FileDescriptorProto)
  : result APIContext :=
  ctx ← seededContext d;
  ApplyMarshalFlags fuel ctx.

(** ** Emitter

    The template [apiTemplate] is kept as the tree of declarations it writes;
    every string below is a hole of the template, filled as the template
    fills it. *)

Definition stringify (f : ModelField) : string :=
  let repeatedCase :=
    if IsRepeated f then
      if String.eqb (FieldType f) "Date"
      then Some ("m." +:+ FieldName f +:+ ".map((n) => n.toISOString())")
      else if bool_decide (is_Some (MapType f))
      then Some (strings.TrimSuffix (FieldType f) "Entry[]"
                 +:+ "MapToJSON(m." +:+ FieldName f +:+ ")")
      else if IsMessage f
      then Some ("m." +:+ FieldName f +:+ ".map("
                 +:+ strings.TrimSuffix (FieldType f) "[]" +:+ "ToJSON)")
      else None
    else None in
  match repeatedCase with
  | Some e => e
  | None =>
      if String.eqb (FieldType f) "Date"
      then "m." +:+ FieldName f +:+ ".toISOString()"
      else if IsMessage f
      then FieldType f +:+ "ToJSON(m." +:+ FieldName f +:+ ")"
      else "m." +:+ FieldName f
  end.

Definition parse (f : ModelField) : string :=
  let repeatedCase :=
    if IsRepeated f then
      if String.eqb (FieldType f) "Date"
      then Some ("m." +:+ JSONName f +:+ ".map((n) => new Date(n))")
      else if bool_decide (is_Some (MapType f))
      then Some ("JSONTo" +:+ strings.TrimSuffix (FieldType f) "Entry[]"
                 +:+ "Map(m." +:+ JSONName f +:+ ")")
      else if IsMessage f
      then Some ("m." +:+ JSONName f +:+ ".map(JSONTo"
                 +:+ strings.TrimSuffix (FieldType f) "[]" +:+ ")")
      else None
    else None in
  match repeatedCase with
  | Some e => e
  | None =>
      if String.eqb (FieldType f) "Date"
      then "new Date(m." +:+ JSONName f +:+ ")"
      else if IsMessage f
      then "JSONTo" +:+ FieldType f +:+ "(m." +:+ JSONName f +:+ ")"
      else "m." +:+ JSONName f
  end.

(** A member [name?: type] of an interface. *)
Record Member : Type := mkMember {
  memberName : string;
  memberOptional : bool;
  memberType : string
}.

(** One generated client method: its signature and the string literal that
    is appended to [this.pathPrefix] to form the request URL. *)
Record ClientMethod : Type := mkClientMethod {
  cmName : string;
  cmArg : string;
  cmInputType : string;
  cmOutputType : string;
  cmPathLiteral : string;
  cmMarshal : string;          (* {{.InputType}}ToJSON *)
  cmUnmarshal : string         (* JSONTo{{.OutputType}} *)
}.

Inductive Decl : Type :=
| PlainInterface (name : string) (members : list Member)
    (* export interface {{.Name}} *)
| WireInterface (name : string) (members : list Member)
    (* interface {{.Name}}JSON *)
| MapToJSONFn (fname keyType valueType entryType : string)
    (entries : list (string * string))
    (* const {{.Map.Name}}MapToJSON *)
| ToJSONFn (fname param argType retType : string)
    (entries : list (string * string))
    (* const {{.Name}}ToJSON *)
| JSONToMapFn (fname entryType keyType valueType keyExpr valueExpr : string)
    (* const JSONTo{{.Map.Name}}Map *)
| JSONToFn (fname param argType retType : string)
    (entries : list (string * string * string))
    (* const JSONTo{{.Name}} *)
| ServiceInterface (name : string) (methods : list ClientMethod)
    (* export interface {{.Name}} *)
| ClientClass (name pathPrefix : string) (methods : list ClientMethod).
    (* export class {{.Name}}Client *)

Definition plainMember (f : ModelField) : Member :=
  {| memberName := FieldName f;
     memberOptional := negb (IsRepeated f);
     memberType := match MapType f with Some t => t | None => FieldType f end |}.

Definition wireMember (isMap : bool) (f : ModelField) : Member :=
  {| memberName := JSONName f;
     memberOptional := negb (IsRepeated f) && negb isMap;
     memberType := JSONType f |}.

Definition paramName (m : Model) : string :=
  match Fields m with [] => "_" | _ :: _ => "m" end.

Definition missingDefault (f : ModelField) : string :=
  match MapType f with
  | Some _ => "new Map()"
  | None => if IsRepeated f then "[]" else "undefined"
  end.

Definition marshalDecls (m : Model) : list Decl :=
  if CanMarshal m then
    match Map m with
    | Some md =>
        [MapToJSONFn (MapName md +:+ "MapToJSON")
           (FieldType (KeyField md)) (FieldType (ValueField md))
           (Name m +:+ "JSON")
           (map (fun f => (JSONName f, stringify f)) (Fields m))]
    | None =>
        [ToJSONFn (Name m +:+ "ToJSON") (paramName m) (Name m)
           (Name m +:+ "JSON")
           (map (fun f => (JSONName f, stringify f)) (Fields m))]
    end
  else [].

Definition unmarshalDecls (m : Model) : list Decl :=
  if CanUnmarshal m then
    match Map m with
    | Some md =>
        [JSONToMapFn ("JSONTo" +:+ MapName md +:+ "Map")
           (Name m +:+ "JSON")
           (FieldType (KeyField md)) (FieldType (ValueField md))
           (parse (KeyField md)) (parse (ValueField md))]
    | None =>
        [JSONToFn ("JSONTo" +:+ Name m) (paramName m) (Name m +:+ "JSON")
           (Name m)
           (map (fun f => (FieldName f, parse f, missingDefault f)) (Fields m))]
    end
  else [].

Definition modelDecls (m : Model) : list Decl :=
  if Primitive m then []
  else
    (match Map m with
     | None => [PlainInterface (Name m) (map plainMember (Fields m))]
     | Some _ => []
     end)
    ++ [WireInterface (Name m +:+ "JSON")
          (map (wireMember (bool_decide (is_Some (Map m)))) (Fields m))]
    ++ marshalDecls m
    ++ unmarshalDecls m.

Definition clientMethod (sm : ServiceMethod) : ClientMethod :=
  {| cmName := MethodName sm;
     cmArg := InputArg sm;
     cmInputType := InputType sm;
     cmOutputType := OutputType sm;
     cmPathLiteral := Path sm;
     cmMarshal := InputType sm +:+ "ToJSON";
     cmUnmarshal := "JSONTo" +:+ OutputType sm |}.

Definition serviceDecls (s : Service) : list Decl :=
  [ServiceInterface (ServiceName s) (map clientMethod (Methods s));
   ClientClass (ServiceName s +:+ "Client")
     ("/twirp/" +:+ Package s +:+ "." +:+ ServiceName s +:+ "/")
     (map clientMethod (Methods s))].

Definition executeTemplate (ctx : APIContext) : list Decl :=
  concat (map modelDecls (Models ctx)) ++ concat (map serviceDecls (Services ctx)).


Definition CreateClientAPI (fuel : nat) (d : FileDescriptorProto)
  : result (list Decl) :=
  ctx ← clientContext fuel d;
  Ok (executeTemplate ctx).

(** ** The pipeline on small schemas *)

Definition msgField (name typeName : string) (l : FieldDescriptorProto_Label)
  : FieldDescriptorProto :=
  mkFieldDescriptor name TYPE_MESSAGE l typeName.

Definition scalarField (name : string) (t : FieldDescriptorProto_Type)
  : FieldDescriptorProto :=
  mkFieldDescriptor name t LABEL_OPTIONAL "".

Definition greeterFile : FileDescriptorProto :=
  {| d_GetPackage := "pkg";
     d_GetMessageType :=
       [mkDescriptor "HelloReq" [scalarField "name" TYPE_STRING] [] false;
        mkDescriptor "HelloResp" [scalarField "message" TYPE_STRING] [] false];
     d_GetService :=
       [mkServiceDescriptor "Greeter"
          [mkMethodDescriptor "SayHello" ".pkg.HelloReq" ".pkg.HelloResp"]] |}.

(** ** Reference definitions for the properties *)

(** A segment after the first one, as [camelCase] renders it. *)
Definition capitalize (p : string) : string :=
  match p with
  | EmptyString => EmptyString
  | String c rest => String (strings.upperByte c) (strings.ToLower rest)
  end.

(** [camelCase] returns on exactly these names. *)
Definition camelSafe (s : string) : bool :=
  forallb (fun p => negb (String.eqb p "")) (tl (strings.Split s "_")).

(** The field that [newField] builds when [camelCase] returns. *)
Definition fieldOf (m : DescriptorProto) (pkg : string)
  (f : FieldDescriptorProto) : ModelField :=
  {| FieldName :=
       strings.ToLower (hd "" (strings.Split (f_GetName f) "_"))
       +:+ strings.Join (map capitalize (tl (strings.Split (f_GetName f) "_")));
     FieldType := fst (protoToTSType f pkg);
     JSONName := f_GetName f;
     JSONType := snd (protoToTSType f pkg);
     IsMessage := match f_GetType f with TYPE_MESSAGE => true | _ => false end;
     IsRepeated := isRepeated f;
     MapType := mapType f m pkg |}.

(** The last field of the given name, as [keyField] and [valueField] hold
    it after the field loop. *)
Definition lastField (m : DescriptorProto) (pkg n : string)
  (fs : list FieldDescriptorProto) (init : option ModelField)
  : option ModelField :=
  fold_left (fun acc f =>
               if String.eqb (f_GetName f) n then Some (fieldOf m pkg f) else acc)
            fs init.

Definition hasField (n : string) (m : DescriptorProto) : bool :=
  existsb (fun f => String.eqb (f_GetName f) n) (m_GetField m).

Definition fieldsSafe (m : DescriptorProto) : bool :=
  forallb (fun f => camelSafe (f_GetName f)) (m_GetField m).

(** The schemas on which the walker returns: every field name passes
    [camelCase], and every map entry has a [key] and a [value] field. *)
Fixpoint wellFormed (m : DescriptorProto) : bool :=
  fieldsSafe m
  && implb (m_GetMapEntry m) (hasField "key" m && hasField "value" m)
  && (fix all (ns : list DescriptorProto) : bool :=
        match ns with
        | [] => true
        | n :: ns' => wellFormed n && all ns'
        end) (m_GetNestedType m).

(** The flattened name of a type: the names of the enclosing types, dots
    removed, followed by the type's own name. *)
Definition flatName (enclosing : list string) (own : string) : string :=
  strings.Join (map (strings.removeAll ".") enclosing) +:+ own.

(** The flattened names of a message and of everything nested in it, in
    pre-order: the parent first, then its children in declaration order. *)
Fixpoint flatNames (enclosing : list string) (m : DescriptorProto)
  : list string :=
  flatName enclosing (m_GetName m)
  :: (fix children (ns : list DescriptorProto) : list string :=
        match ns with
        | [] => []
        | n :: ns' => flatNames (enclosing ++ [m_GetName m]) n ++ children ns'
        end) (m_GetNestedType m).

(** What the walker leaves in a fresh model. *)
Definition freshModel (m : Model) : Prop :=
  Primitive m = false ∧ CanMarshal m = false ∧ CanUnmarshal m = false.

(** The [MapDetails] that [addMessageType] attaches to the model of [m]. *)
Definition mapDetailsOf (m : DescriptorProto) (pkg name : string)
  : option MapDetails :=
  if m_GetMapEntry m then
    match lastField m pkg "key" (m_GetField m) None,
          lastField m pkg "value" (m_GetField m) None with
    | Some k, Some v =>
        Some {| MapName := strings.TrimSuffix name "Entry";
                KeyField := k; ValueField := v |}
    | _, _ => None
    end
  else None.

(** The model that [addMessageType] registers for [m] itself. *)
Definition modelOf (m : DescriptorProto) (prefix pkg : string) : Model :=
  let name := strings.removeAll "." prefix +:+ m_GetName m in
  {| Name := name; Primitive := false;
     Fields := map (fieldOf m pkg) (m_GetField m);
     Map := mapDetailsOf m pkg name;
     CanMarshal := false; CanUnmarshal := false |}.

(** The specialized map helpers among the declarations. *)
Definition isMapHelper (d : Decl) : bool :=
  match d with
  | MapToJSONFn _ _ _ _ _ | JSONToMapFn _ _ _ _ _ _ => true
  | _ => false
  end.

Definition isPlainInterface (d : Decl) : bool :=
  match d with PlainInterface _ _ => true | _ => false end.

(** The conversion functions among the declarations. *)
Definition isMarshalFn (d : Decl) : bool :=
  match d with
  | MapToJSONFn _ _ _ _ _ | ToJSONFn _ _ _ _ _ => true
  | _ => false
  end.

Definition isUnmarshalFn (d : Decl) : bool :=
  match d with
  | JSONToMapFn _ _ _ _ _ _ | JSONToFn _ _ _ _ _ => true
  | _ => false
  end.

(** Three levels of nesting, with a sibling at each of the lower levels. *)
Definition nestedExample : DescriptorProto :=
  mkDescriptor "Outer" []
    [mkDescriptor "Middle" []
       [mkDescriptor "Inner" [] [] false;
        mkDescriptor "Leaf" [] [] false] false;
     mkDescriptor "Side" [] [] false] false.

(** A message with a field [tags: map<string, string>], as the host
    compiler describes it. *)
Definition tagsEntry : DescriptorProto :=
  mkDescriptor "TagsEntry"
    [scalarField "key" TYPE_STRING; scalarField "value" TYPE_STRING] [] true.

Definition taggedMessage : DescriptorProto :=
  mkDescriptor "Item"
    [msgField "tags" ".pkg.Item.TagsEntry" LABEL_REPEATED] [tagsEntry] false.

(** A name with its first character lowercased and the rest unchanged. *)
Definition lowerFirst (s : string) : string :=
  match s with
  | EmptyString => EmptyString
  | String c rest => String (strings.lowerByte c) rest
  end.

(** The method descriptor that [CreateClientAPI] builds for a schema method
    with a non-empty name and input type. *)
Definition methodOf (pkg : string) (m : MethodDescriptorProto) : ServiceMethod :=
  {| MethodName := lowerFirst (md_GetName m);
     Path := md_GetName m;
     InputArg := lowerFirst (removePkg (md_GetInputType m) pkg);
     InputType := removePkg (md_GetInputType m) pkg;
     OutputType := removePkg (md_GetOutputType m) pkg |}.

(** Schema methods as the host compiler produces them: ASCII identifiers,
    none of them empty. *)
Definition validMethod (pkg : string) (m : MethodDescriptorProto) : Prop :=
  md_GetName m ≠ "" ∧ removePkg (md_GetInputType m) pkg ≠ ""
  ∧ strings.isASCII (md_GetName m) = true
  ∧ strings.isASCII (md_GetInputType m) = true.

(** *** The message-reference graph *)

(** Propagation changes nothing but the two flags. *)
Definition eraseFlags (m : Model) : Model :=
  {| Name := Name m; Primitive := Primitive m; Fields := Fields m;
     Map := Map m; CanMarshal := false; CanUnmarshal := false |}.

Definition sameShape (c c' : APIContext) : Prop :=
  eraseFlags <$> Models c = eraseFlags <$> Models c'
  ∧ Services c = Services c'
  ∧ modelLookup c = modelLookup c'.

(** The edges that the propagator follows: from the model at [i], through a
    field that it does not skip, to the model that the base type names. *)
Definition follows (ctx : APIContext) (i j : nat) : Prop :=
  ∃ m f, Models ctx !! i = Some m ∧ f ∈ Fields m
         ∧ skipField f = false
         ∧ modelLookup ctx !! baseType f = Some j.

(** The message references that the name table resolves: the model at [i]
    has a message-typed field whose base type (the type without its
    sequence wrapper) names the model at [j].  A base type that is the
    string "Date" takes no part, whether it stands for the timestamp type or
    for a message of the file that is named [Date]. *)
Definition references (ctx : APIContext) (i j : nat) : Prop :=
  ∃ m f, Models ctx !! i = Some m ∧ f ∈ Fields m
         ∧ IsMessage f = true
         ∧ baseType f ≠ "Date"
         ∧ modelLookup ctx !! baseType f = Some j.

(** The type of a method that seeds a flag: the input type for
    [CanMarshal], the output type for [CanUnmarshal]. *)
Definition seedType (fl : flag) (sm : ServiceMethod) : string :=
  match fl with Marshal => InputType sm | Unmarshal => OutputType sm end.

Definition seeded (fl : flag) (ctx : APIContext) (i : nat) : Prop :=
  ∃ m s sm, Models ctx !! i = Some m ∧ s ∈ Services ctx ∧ sm ∈ Methods s
            ∧ Name m = seedType fl sm.

(** Reachable in the message-reference graph from the input type (resp. the
    output type) of some method. *)
Definition reachableFromMethod (fl : flag) (ctx : APIContext) (i : nat) : Prop :=
  ∃ j, seeded fl ctx j ∧ rtc (references ctx) j i.

(** What one returning call [enableMarshal(m)] (resp. [enableUnmarshal(m)])
    with [m] at [p] has done: it has set the flag on exactly the models
    that can be reached from [p], and nothing else. *)
Definition enablePost (fl : flag) (c : APIContext) (p : nat) (c' : APIContext)
  : Prop :=
  sameShape c c'
  ∧ (∀ i, flagAt fl c i = true → flagAt fl c' i = true)
  ∧ (∀ i, flagAt fl c' i = true →
          flagAt fl c i = true ∨ rtc (follows c) p i)
  ∧ (∀ i, rtc (follows c) p i → flagAt fl c' i = true)
  ∧ (∀ fl' i, fl' ≠ fl → flagAt fl' c' i = flagAt fl' c i).

(** The invariant of the loops of [ApplyMarshalFlags], started in [c0]: the
    flags only grow, every flagged model can be reached from a model flagged
    in [c0], and a model that propagation has flagged has all its
    descendants flagged. *)
Definition applyInv (fl : flag) (c0 c : APIContext) : Prop :=
  sameShape c0 c
  ∧ (∀ i, flagAt fl c0 i = true → flagAt fl c i = true)
  ∧ (∀ i, flagAt fl c i = true →
          ∃ j, flagAt fl c0 j = true ∧ rtc (follows c0) j i)
  ∧ (∀ i k, flagAt fl c i = true → flagAt fl c0 i = false →
            rtc (follows c0) i k → flagAt fl c k = true).

(** The field [f] of the model at [p] has been dealt with. *)
Definition covered (fl : flag) (c0 c : APIContext) (p : nat) (f : ModelField)
  : Prop :=
  flagAt fl c0 p = true → skipField f = false →
  ∀ q, modelLookup c0 !! baseType f = Some q →
       ∀ k, rtc (follows c0) q k → flagAt fl c k = true.

(** One of the two [if] statements in the loop body of [ApplyMarshalFlags]. *)
Definition phase (fl : flag) (fuel p : nat) (f : ModelField)
  (c c' : APIContext) : Prop :=
  (flagAt fl c p = true
   ∧ ∃ q, modelLookup c !! baseType f = Some q
          ∧ enableFlag fl fuel c (Some q) = Ok c')
  ∨ (flagAt fl c p = false ∧ c' = c).

(** The placeholder for the date type sits at [d]: the name "Date" resolves
    to it and it has no fields. *)
Definition dateAt (ctx : APIContext) (d : nat) : Prop :=
  modelLookup ctx !! "Date" = Some d
  ∧ ∃ md, Models ctx !! d = Some md ∧ Fields md = [] ∧ Primitive md = true.

(** Some method uses the name as its input type (resp. output type). *)
Definition usedByMethod (fl : flag) (svcs : list Service) (name : string) : bool :=
  existsb (fun s => existsb (fun sm => String.eqb name (seedType fl sm))
                      (Methods s)) svcs.

(** Every pointer stored in [modelLookup] points into [Models]. *)
Definition lookupBounded (c : APIContext) : Prop :=
  ∀ k v, modelLookup c !! k = Some v → v < length (Models c).

(** *** Schemas for the propagator *)

(** A message with a field of its own type, used by a method. *)
Definition selfRefFile : FileDescriptorProto :=
  {| d_GetPackage := "pkg";
     d_GetMessageType :=
       [mkDescriptor "Node"
          [scalarField "label" TYPE_STRING;
           msgField "next" ".pkg.Node" LABEL_OPTIONAL] [] false];
     d_GetService :=
       [mkServiceDescriptor "Tree"
          [mkMethodDescriptor "Walk" ".pkg.Node" ".pkg.Node"]] |}.

(** A message with a field whose type is declared in another file, used as
    the input (resp. only as the output) of a method. *)
Definition importingMessage : DescriptorProto :=
  mkDescriptor "Req" [msgField "ext" ".other.Ext" LABEL_OPTIONAL] [] false.

Definition emptyMessage : DescriptorProto := mkDescriptor "Empty" [] [] false.

Definition danglingInputFile : FileDescriptorProto :=
  {| d_GetPackage := "pkg";
     d_GetMessageType := [importingMessage; emptyMessage];
     d_GetService :=
       [mkServiceDescriptor "Svc"
          [mkMethodDescriptor "Do" ".pkg.Req" ".pkg.Empty"]] |}.

Definition danglingOutputFile : FileDescriptorProto :=
  {| d_GetPackage := "pkg";
     d_GetMessageType := [importingMessage; emptyMessage];
     d_GetService :=
       [mkServiceDescriptor "Svc"
          [mkMethodDescriptor "Do" ".pkg.Empty" ".pkg.Req"]] |}.

(** A message with a repeated timestamp field, used by a method. *)
Definition stampsFile : FileDescriptorProto :=
  {| d_GetPackage := "pkg";
     d_GetMessageType :=
       [mkDescriptor "Log"
          [msgField "stamps" ".google.protobuf.Timestamp" LABEL_REPEATED]
          [] false];
     d_GetService :=
       [mkServiceDescriptor "Audit"
          [mkMethodDescriptor "Append" ".pkg.Log" ".pkg.Log"]] |}.

(** Every field that the propagator does not skip names a registered model. *)
Definition resolved (c : APIContext) : Prop :=
  ∀ i m f, Models c !! i = Some m → f ∈ Fields m → skipField f = false →
           is_Some (modelLookup c !! baseType f).

(** The edges that the propagator follows go down along [rank]: the graph
    has no cycle. *)
Definition ranked (c : APIContext) (rank : nat → nat) : Prop :=
  ∀ i j, follows c i j → rank j < rank i.

(** The message-reference graph with the date type left in: every
    message-typed field is an edge. *)
Definition mentions (ctx : APIContext) (i j : nat) : Prop :=
  ∃ m f, Models ctx !! i = Some m ∧ f ∈ Fields m
         ∧ IsMessage f = true
         ∧ modelLookup ctx !! baseType f = Some j.

(** A message with a timestamp field that is not repeated, used by a
    method. *)
Definition eventFile : FileDescriptorProto :=
  {| d_GetPackage := "pkg";
     d_GetMessageType :=
       [mkDescriptor "Event"
          [msgField "at" ".google.protobuf.Timestamp" LABEL_OPTIONAL]
          [] false];
     d_GetService :=
       [mkServiceDescriptor "Audit"
          [mkMethodDescriptor "Record" ".pkg.Event" ".pkg.Event"]] |}.

(** *** Reference definitions for further properties *)

(** The model at [x] is flagged when propagation starts, or can be reached
    from such a model: these are the models that propagation visits. *)
Definition liveIn (c : APIContext) (x : nat) : Prop :=
  ∃ fl j, flagAt fl c j = true ∧ rtc (follows c) j x.

(** The model at [x] has a field, not skipped by the propagator, whose base
    type is not in [modelLookup]. *)
Definition dangling (c : APIContext) (x : nat) : Prop :=
  ∃ m f, Models c !! x = Some m ∧ f ∈ Fields m ∧ skipField f = false
         ∧ modelLookup c !! baseType f = None.

(** A message with a map field and a nested message, used by a method. *)
Definition taggedFile : FileDescriptorProto :=
  {| d_GetPackage := "pkg";
     d_GetMessageType := [taggedMessage];
     d_GetService :=
       [mkServiceDescriptor "Store"
          [mkMethodDescriptor "Put" ".pkg.Item" ".pkg.Item"]] |}.

(** The fully qualified name of a type of a file with a package, as the
    host compiler writes it in a field or a method: [.pkg.Outer.Inner]. *)
Definition qualifiedName (pkg : string) (path : list string) : string :=
  "." +:+ pkg +:+ strings.Join (map (fun n => "." +:+ n) path).

(** Every pointer of [modelLookup] leads to a model of that name. *)
Definition lookupConsistent (c : APIContext) : Prop :=
  ∀ k v, modelLookup c !! k = Some v →
         ∃ m, Models c !! v = Some m ∧ Name m = k.

(** Every model's name is in [modelLookup], where it leads to that model or
    to one registered later. *)
Definition lookupComplete (c : APIContext) : Prop :=
  ∀ (i : nat) m, Models c !! i = Some m →
         ∃ v : nat, modelLookup c !! Name m = Some v ∧ (i ≤ v)%nat.

(** The conversion functions for one flag. *)
Definition isConversionFn (fl : flag) (d : Decl) : bool :=
  match fl with Marshal => isMarshalFn d | Unmarshal => isUnmarshalFn d end.

(** The names of the wire interfaces among the declarations, in order. *)
Definition wireNames (ds : list Decl) : list string :=
  flat_map (fun d => match d with WireInterface n _ => [n] | _ => [] end) ds.

(** A method that [newMethod] can build: neither its name nor its
    namespace-stripped input type is empty. *)
Definition sliceable (pkg : string) (m : MethodDescriptorProto) : bool :=
  negb (String.eqb (md_GetName m) "")
  && negb (String.eqb (removePkg (md_GetInputType m) pkg) "").

(** The last segment of a dotted type name, as [mapType] takes it. *)
Definition simpleName (typeName : string) : string :=
  List.last (strings.Split typeName ".") "".

(** A call [enableMarshal] or [enableUnmarshal] on the model at [p] returns
    within the recursion depth [fuel], in every registry of the shape of
    [c]: whether such a call returns does not depend on the flags. *)
Definition returnsAt (c : APIContext) (fuel p : nat) : Prop :=
  ∀ fl c1, sameShape c c1 → ∃ c', enableFlag fl fuel c1 (Some p) = Ok c'.

(** A message that is named [Date], referenced by the input of a method. *)
Definition dateNamedFile : FileDescriptorProto :=
  {| d_GetPackage := "pkg";
     d_GetMessageType :=
       [mkDescriptor "Date" [scalarField "day" TYPE_INT32] [] false;
        mkDescriptor "Req" [msgField "when" ".pkg.Date" LABEL_OPTIONAL]
          [] false];
     d_GetService :=
       [mkServiceDescriptor "Cal"
          [mkMethodDescriptor "Do" ".pkg.Req" ".pkg.Req"]] |}.

(** The registry at a glance: for each model its name, its primitive mark,
    [CanMarshal], [CanUnmarshal], and for each field whether it is a message
    and its type. *)
Definition flagTable (ctx : APIContext)
  : list (string * bool * bool * bool * list (bool * string)) :=
  map (fun m => (Name m, Primitive m, CanMarshal m, CanUnmarshal m,
                 map (fun f => (IsMessage f, FieldType f)) (Fields m)))
    (Models ctx).

(** The identifier that a declaration of the template introduces. *)
Definition declName (d : Decl) : string :=
  match d with
  | PlainInterface n _ | WireInterface n _ | MapToJSONFn n _ _ _ _
  | ToJSONFn n _ _ _ _ | JSONToMapFn n _ _ _ _ _ | JSONToFn n _ _ _ _
  | ServiceInterface n _ | ClientClass n _ _ => n
  end.

(** A schema method whose name and input type are ASCII, as identifiers of
    the schema language are: on these the byte-wise [strings.ToLower] is
    the one of the source. *)
Definition asciiMethod (m : MethodDescriptorProto) : Prop :=
  strings.isASCII (md_GetName m) = true
  ∧ strings.isASCII (md_GetInputType m) = true.
(** * Properties *)

(** ** Strings *)

Example Trim_brackets : strings.Trim "Date[]" "[]" = "Date".
Proof. reflexivity. Qed.

Example Split_three : strings.Split "a_b__c" "_"%char = ["a"; "b"; ""; "c"].
Proof. reflexivity. Qed.

Section StringFacts.

Lemma removeAll_app (c : ascii) (a b : string) :
  strings.removeAll c (a +:+ b) = strings.removeAll c a +:+ strings.removeAll c b.
Proof.
  induction a as [|x a IH]; simpl; [reflexivity|].
  destruct (Ascii.eqb x c); simpl; now rewrite IH.
Qed.

Lemma append_nil_r (a : string) : a +:+ "" = a.
Proof. induction a; simpl; congruence. Qed.

Lemma append_assoc (a b c : string) : (a +:+ b) +:+ c = a +:+ b +:+ c.
Proof. induction a; simpl; congruence. Qed.

Lemma Split_nonempty (s : string) (sep : ascii) : strings.Split s sep ≠ [].
Proof.
  destruct s as [|c s]; simpl; [discriminate|].
  destruct (Ascii.eqb c sep); [discriminate|].
  destruct (strings.Split s sep); discriminate.
Qed.

(** Splitting at a separator splits the list of segments. *)
Lemma Split_app_sep (a b : string) (sep : ascii) :
  strings.Split (a +:+ String sep b) sep
  = strings.Split a sep ++ strings.Split b sep.
Proof.
  induction a as [|c a IH]; simpl.
  - now rewrite Ascii.eqb_refl.
  - destruct (Ascii.eqb c sep); [now rewrite IH|].
    rewrite IH. pose proof (Split_nonempty a sep) as Hne.
    destruct (strings.Split a sep); [congruence|reflexivity].
Qed.

Lemma slice_first (p : string) :
  slice p 0 1 = match p with
                | EmptyString => Panic SliceOutOfRange
                | String c _ => Ok (String c EmptyString)
                end.
Proof. destruct p as [|c p]; reflexivity. Qed.

Lemma sliceFrom_rest (c : ascii) (p : string) : sliceFrom (String c p) 1 = Ok p.
Proof. reflexivity. Qed.

End StringFacts.

(** ** Field names *)

Section CamelCase.

Lemma camelCasePart_S (i : nat) (p : string) :
  camelCasePart (S i) p
  = match p with
    | EmptyString => Panic SliceOutOfRange
    | String _ _ => Ok (capitalize p)
    end.
Proof. destruct p; reflexivity. Qed.

Lemma camelCaseLoop_S (i : nat) (ps : list string) :
  camelCaseLoop (S i) ps
  = if forallb (fun p => negb (String.eqb p "")) ps
    then Ok (map capitalize ps) else Panic SliceOutOfRange.
Proof.
  revert i; induction ps as [|p ps IH]; intros i; [reflexivity|].
  cbn [camelCaseLoop forallb map]. rewrite camelCasePart_S, IH.
  destruct p as [|c p]; [reflexivity|]. cbn.
  now destruct (forallb _ ps).
Qed.

Lemma camelCase_eq (s first : string) (rest : list string) :
  strings.Split s "_" = first :: rest →
  camelCase s
  = if forallb (fun p => negb (String.eqb p "")) rest
    then Ok (strings.ToLower first +:+ strings.Join (map capitalize rest))
    else Panic SliceOutOfRange.
Proof.
  intros Hs. unfold camelCase. rewrite Hs.
  cbn [camelCaseLoop camelCasePart Nat.eqb]. rewrite camelCaseLoop_S.
  now destruct (forallb _ rest).
Qed.

Lemma camelCase_camelSafe (s : string) :
  camelCase s
  = if camelSafe s
    then Ok (strings.ToLower (hd "" (strings.Split s "_"))
             +:+ strings.Join (map capitalize (tl (strings.Split s "_"))))
    else Panic SliceOutOfRange.
Proof.
  unfold camelSafe. pose proof (Split_nonempty s "_") as Hne.
  destruct (strings.Split s "_") as [|first rest] eqn:Hs; [congruence|].
  now rewrite (camelCase_eq _ _ _ Hs).
Qed.

Lemma forallb_nonempty_Forall (ps : list string) :
  forallb (fun p => negb (String.eqb p "")) ps = true
  ↔ Forall (fun p => p ≠ "") ps.
Proof.
  rewrite forallb_forall, Forall_forall. split; intros H p Hp.
  - apply list_elem_of_In, H in Hp. intros ->. discriminate.
  - apply list_elem_of_In, H in Hp. destruct p; [congruence|reflexivity].
Qed.

Lemma forallb_nonempty_Exists (ps : list string) :
  Exists (fun p => p = "") ps →
  forallb (fun p => negb (String.eqb p "")) ps = false.
Proof.
  intros H. destruct (forallb _ ps) eqn:E; [|reflexivity].
  apply forallb_nonempty_Forall in E. rewrite Forall_forall in E.
  apply Exists_exists in H as (p & Hp & ->). now apply E in Hp.
Qed.

(** A trailing underscore leaves an empty last segment, which is not the
    first one. *)
Lemma camelSafe_trailing (t : string) : camelSafe (t +:+ "_") = false.
Proof.
  unfold camelSafe. rewrite Split_app_sep. cbn [strings.Split].
  pose proof (Split_nonempty t "_") as Hne.
  destruct (strings.Split t "_") as [|p ps]; [congruence|].
  cbn [app tl]. apply forallb_nonempty_Exists, Exists_exists.
  exists "". split; [|reflexivity]. apply elem_of_app; right. constructor.
Qed.

Lemma camelSafe_doubled (a b : string) : camelSafe (a +:+ "__" +:+ b) = false.
Proof.
  unfold camelSafe. cbn [String.append]. rewrite Split_app_sep.
  cbn [strings.Split]. rewrite Ascii.eqb_refl.
  pose proof (Split_nonempty a "_") as Hne.
  destruct (strings.Split a "_") as [|p ps]; [congruence|].
  cbn [app tl]. apply forallb_nonempty_Exists, Exists_exists.
  exists "". split; [|reflexivity]. apply elem_of_app; right. constructor.
Qed.

End CamelCase.

(** ** Schema walker *)

Section Walker.

Lemma DescriptorProto_nested_ind (P : DescriptorProto → Prop) :
  (∀ name fields nested mapEntry,
      Forall P nested → P (mkDescriptor name fields nested mapEntry)) →
  ∀ m, P m.
Proof.
  intros step. fix IH 1. intros [name fields nested mapEntry].
  apply step. induction nested as [|n ns IHns]; constructor.
  - apply IH.
  - apply IHns.
Qed.

Lemma bind_Ok_inv {A B : Type} (r : result A) (k : A → result B) (b : B) :
  (x ← r; k x) = Ok b → ∃ a, r = Ok a ∧ k a = Ok b.
Proof. destruct r; cbn; intros H; try discriminate. eauto. Qed.

Lemma addMessageType_eq (m : DescriptorProto) (prefix pkg : string)
  (ctx : APIContext) :
  addMessageType m prefix pkg ctx
  = ('(fields, keyField, valueField) ←
       forM (fieldStep m pkg) (m_GetField m) ([], None, None);
     ctx1 ← attachMap (m_GetMapEntry m)
              (strings.removeAll "." prefix +:+ m_GetName m)
              (length (Models ctx)) keyField valueField
              (AddModel ctx
                 (newModel (strings.removeAll "." prefix +:+ m_GetName m)
                    fields));
     walkNested (prefix +:+ "." +:+ m_GetName m) pkg (m_GetNestedType m) ctx1).
Proof.
  destruct m as [name fields nested mapEntry]. cbn [addMessageType].
  cbn [m_GetField m_GetName m_GetNestedType m_GetMapEntry].
  destruct (forM _ fields _) as [[[fs k] v]| | |]; cbn; try reflexivity.
  destruct (attachMap _ _ _ _ _ _) as [ctx1| | |]; cbn; try reflexivity.
  unfold walkNested. revert ctx1.
  induction nested as [|n ns IHns]; intros ctx1; cbn; [reflexivity|].
  destruct (addMessageType n _ pkg ctx1); cbn; auto.
Qed.

Lemma newField_eq (f : FieldDescriptorProto) (m : DescriptorProto)
  (pkg : string) :
  newField f m pkg
  = if camelSafe (f_GetName f) then Ok (fieldOf m pkg f)
    else Panic SliceOutOfRange.
Proof.
  unfold newField, fieldOf. destruct (protoToTSType f pkg) as [ts js].
  rewrite camelCase_camelSafe. now destruct (camelSafe (f_GetName f)).
Qed.

Lemma fieldLoop_eq (m : DescriptorProto) (pkg : string)
  (fs : list FieldDescriptorProto) (acc : list ModelField)
  (k v : option ModelField) :
  forM (fieldStep m pkg) fs (acc, k, v)
  = if forallb (fun f => camelSafe (f_GetName f)) fs
    then Ok (acc ++ map (fieldOf m pkg) fs,
             lastField m pkg "key" fs k, lastField m pkg "value" fs v)
    else Panic SliceOutOfRange.
Proof.
  revert acc k v; induction fs as [|f fs IH]; intros acc k v.
  - cbn. now rewrite app_nil_r.
  - cbn [forM forallb fieldStep]. rewrite newField_eq.
    destruct (camelSafe (f_GetName f)); cbn; [|reflexivity].
    rewrite IH. destruct (forallb _ fs); [|reflexivity].
    now rewrite <- app_assoc.
Qed.

Lemma lastField_found (m : DescriptorProto) (pkg n : string)
  (fs : list FieldDescriptorProto) (init : option ModelField) :
  existsb (fun f => String.eqb (f_GetName f) n) fs = true →
  ∃ f, f ∈ fs ∧ f_GetName f = n
       ∧ lastField m pkg n fs init = Some (fieldOf m pkg f).
Proof.
  revert init; induction fs as [|f fs IH]; intros init; [discriminate|].
  cbn [existsb]. unfold lastField. cbn [fold_left].
  destruct (existsb _ fs) eqn:Hfs.
  - intros _. destruct (IH (if String.eqb (f_GetName f) n
                            then Some (fieldOf m pkg f) else init) eq_refl)
      as (g & Hg & Hn & Hl).
    exists g. split; [now constructor|]. split; [exact Hn|exact Hl].
  - rewrite orb_false_r. intros Hf. rewrite Hf.
    exists f. split; [constructor|]. split; [now apply String.eqb_eq|].
    clear IH Hf. revert Hfs. generalize (Some (fieldOf m pkg f)).
    induction fs as [|g fs IH]; intros o Hfs; [reflexivity|].
    cbn [existsb] in Hfs. apply orb_false_elim in Hfs as [Hg Hfs].
    cbn [fold_left]. rewrite Hg. now apply IH.
Qed.

Lemma lastField_missing (m : DescriptorProto) (pkg n : string)
  (fs : list FieldDescriptorProto) (init : option ModelField) :
  existsb (fun f => String.eqb (f_GetName f) n) fs = false →
  lastField m pkg n fs init = init.
Proof.
  revert init; induction fs as [|g fs IH]; intros o Hfs; [reflexivity|].
  cbn [existsb] in Hfs. apply orb_false_elim in Hfs as [Hg Hfs].
  unfold lastField. cbn [fold_left]. rewrite Hg. now apply IH.
Qed.

Lemma flatNames_eq (enclosing : list string) (m : DescriptorProto) :
  flatNames enclosing m
  = flatName enclosing (m_GetName m)
    :: flat_map (flatNames (enclosing ++ [m_GetName m])) (m_GetNestedType m).
Proof.
  destruct m as [name fields nested mapEntry]. cbn. f_equal.
  all: induction nested as [|n ns IHns]; cbn; [reflexivity|]; now rewrite IHns.
Qed.

Lemma wellFormed_eq (m : DescriptorProto) :
  wellFormed m
  = fieldsSafe m
    && implb (m_GetMapEntry m) (hasField "key" m && hasField "value" m)
    && forallb wellFormed (m_GetNestedType m).
Proof.
  destruct m as [name fields nested mapEntry]. cbn. f_equal.
  all: induction nested as [|n ns IHns]; cbn; [reflexivity|]; now rewrite IHns.
Qed.

Lemma Join_app (xs ys : list string) :
  strings.Join (xs ++ ys) = strings.Join xs +:+ strings.Join ys.
Proof.
  induction xs as [|x xs IH]; cbn; [reflexivity|].
  now rewrite IH, append_assoc.
Qed.

(** The prefix that [addMessageType] hands to a nested type is flattened
    to the names of the enclosing types. *)
Lemma nested_prefix_flat (prefix own : string) (enclosing : list string) :
  strings.removeAll "." prefix
  = strings.Join (map (strings.removeAll ".") enclosing) →
  strings.removeAll "." (prefix +:+ "." +:+ own)
  = strings.Join (map (strings.removeAll ".") (enclosing ++ [own])).
Proof.
  intros H. rewrite removeAll_app, H, map_app, Join_app. cbn.
  now rewrite append_nil_r.
Qed.

Lemma alter_last {A : Type} (f : A → A) (l : list A) (x : A) :
  alter f (length l) (l ++ [x]) = l ++ [f x].
Proof. induction l as [|y l IH]; cbn; [reflexivity|]. now rewrite IH. Qed.

Lemma attachMap_eq (m : DescriptorProto) (prefix pkg : string)
  (ctx : APIContext) :
  let name := strings.removeAll "." prefix +:+ m_GetName m in
  attachMap (m_GetMapEntry m) name (length (Models ctx))
    (lastField m pkg "key" (m_GetField m) None)
    (lastField m pkg "value" (m_GetField m) None)
    (AddModel ctx (newModel name (map (fieldOf m pkg) (m_GetField m))))
  = if m_GetMapEntry m
       && negb (hasField "key" m && hasField "value" m)
    then Panic NilDereference
    else Ok {| Models := Models ctx ++ [modelOf m prefix pkg];
               Services := Services ctx;
               modelLookup :=
                 <[Name (modelOf m prefix pkg) := length (Models ctx)]>
                   (modelLookup ctx) |}.
Proof.
  intros name. unfold attachMap, modelOf, mapDetailsOf, hasField.
  fold name. destruct (m_GetMapEntry m); cbn [andb]; [|reflexivity].
  destruct (existsb _ (m_GetField m)) eqn:Hk.
  - destruct (lastField_found m pkg "key" _ None Hk) as (kf & _ & _ & ->).
    destruct (existsb (fun f => String.eqb (f_GetName f) "value") _) eqn:Hv.
    + destruct (lastField_found m pkg "value" _ None Hv) as (vf & _ & _ & ->).
      cbn. unfold setMap, AddModel. cbn. now rewrite alter_last.
    + now rewrite (lastField_missing m pkg "value" _ None Hv).
  - now rewrite (lastField_missing m pkg "key" _ None Hk).
Qed.

(** One call of [addMessageType], with the loop over the nested types
    left as [walkNested]. *)
Lemma addMessageType_step (m : DescriptorProto) (prefix pkg : string)
  (ctx : APIContext) :
  addMessageType m prefix pkg ctx
  = if negb (fieldsSafe m) then Panic SliceOutOfRange
    else if m_GetMapEntry m
            && negb (hasField "key" m && hasField "value" m)
    then Panic NilDereference
    else walkNested (prefix +:+ "." +:+ m_GetName m) pkg (m_GetNestedType m)
           {| Models := Models ctx ++ [modelOf m prefix pkg];
              Services := Services ctx;
              modelLookup :=
                <[Name (modelOf m prefix pkg) := length (Models ctx)]>
                  (modelLookup ctx) |}.
Proof.
  rewrite addMessageType_eq, fieldLoop_eq. unfold fieldsSafe.
  destruct (forallb _ (m_GetField m)); cbn [negb]; [|reflexivity].
  cbn -[attachMap walkNested]. rewrite (attachMap_eq m prefix pkg ctx).
  now destruct (m_GetMapEntry m && negb _).
Qed.

Lemma freshModel_modelOf (m : DescriptorProto) (prefix pkg : string) :
  freshModel (modelOf m prefix pkg).
Proof. repeat split. Qed.

(** What a returning walk has added to the registry. *)
Lemma addMessageType_inv (m : DescriptorProto) :
  ∀ prefix pkg ctx ctx',
    addMessageType m prefix pkg ctx = Ok ctx' →
    ∃ rest,
      Models ctx' = Models ctx ++ modelOf m prefix pkg :: rest
      ∧ Services ctx' = Services ctx
      ∧ Forall freshModel rest
      ∧ ∀ enclosing,
          strings.removeAll "." prefix
          = strings.Join (map (strings.removeAll ".") enclosing) →
          map Name (modelOf m prefix pkg :: rest) = flatNames enclosing m.
Proof.
  induction m as [name fields nested mapEntry IH]
    using DescriptorProto_nested_ind.
  intros prefix pkg ctx ctx'. rewrite addMessageType_step.
  destruct (negb _); [discriminate|].
  destruct (_ && negb _); [discriminate|].
  set (m := mkDescriptor name fields nested mapEntry) in *.
  cbn [m_GetName m_GetNestedType]. fold m.
  set (model := modelOf m prefix pkg).
  set (ctx1 := {| Models := Models ctx ++ [model] |}).
  assert (Hnested : ∀ ns c c',
             Forall (fun n => ∀ prefix pkg ctx ctx',
                       addMessageType n prefix pkg ctx = Ok ctx' →
                       ∃ rest,
                         Models ctx' = Models ctx ++ modelOf n prefix pkg :: rest
                         ∧ Services ctx' = Services ctx
                         ∧ Forall freshModel rest
                         ∧ ∀ enclosing,
                             strings.removeAll "." prefix
                             = strings.Join
                                 (map (strings.removeAll ".") enclosing) →
                             map Name (modelOf n prefix pkg :: rest)
                             = flatNames enclosing n) ns →
             walkNested (prefix +:+ "." +:+ name) pkg ns c = Ok c' →
             ∃ news,
               Models c' = Models c ++ news
               ∧ Services c' = Services c
               ∧ Forall freshModel news
               ∧ ∀ enclosing,
                   strings.removeAll "." (prefix +:+ "." +:+ name)
                   = strings.Join (map (strings.removeAll ".") enclosing) →
                   map Name news = flat_map (flatNames enclosing) ns).
  { clear. induction ns as [|n ns IHns]; intros c c' Hall Hw.
    - injection Hw as <-. exists []. rewrite app_nil_r. repeat split.
      constructor.
    - unfold walkNested in Hw. cbn [forM] in Hw.
      apply bind_Ok_inv in Hw as (c1 & Hn & Hw).
      inversion Hall as [|? ? Hhead Htail]; subst.
      destruct (Hhead _ _ _ _ Hn) as (rest & Hm & Hs & Hf & Hnames).
      destruct (IHns c1 c' Htail Hw) as (news & Hm' & Hs' & Hf' & Hnames').
      exists (modelOf n (prefix +:+ "." +:+ name) pkg :: rest ++ news).
      split; [rewrite Hm', Hm, <- app_assoc; reflexivity|].
      split; [congruence|].
      split.
      { constructor; [apply freshModel_modelOf|]. now apply Forall_app. }
      intros enclosing Henc. cbn [flat_map].
      rewrite <- (Hnames enclosing Henc), <- (Hnames' enclosing Henc).
      cbn [map]. now rewrite map_app. }
  intros Hw. destruct (Hnested nested ctx1 ctx' IH Hw)
    as (news & Hm & Hs & Hf & Hnames).
  exists news. split; [rewrite Hm; cbn; now rewrite <- app_assoc|].
  split; [exact Hs|]. split; [exact Hf|].
  intros enclosing Henc. rewrite flatNames_eq. cbn [map m_GetName m_GetNestedType m].
  f_equal.
  - subst model. cbn. unfold flatName. now rewrite Henc.
  - apply Hnames. now apply nested_prefix_flat.
Qed.

Lemma walkNested_inv (prefix pkg : string) (ns : list DescriptorProto) :
  ∀ ctx ctx',
    walkNested prefix pkg ns ctx = Ok ctx' →
    ∃ news,
      Models ctx' = Models ctx ++ news
      ∧ Services ctx' = Services ctx
      ∧ Forall freshModel news
      ∧ ∀ enclosing,
          strings.removeAll "." prefix
          = strings.Join (map (strings.removeAll ".") enclosing) →
          map Name news = flat_map (flatNames enclosing) ns.
Proof.
  induction ns as [|n ns IHns]; intros c c' Hw.
  - injection Hw as <-. exists []. rewrite app_nil_r. repeat split.
    constructor.
  - unfold walkNested in Hw. cbn [forM] in Hw.
    apply bind_Ok_inv in Hw as (c1 & Hn & Hw).
    destruct (addMessageType_inv _ _ _ _ _ Hn) as (rest & Hm & Hs & Hf & Hnames).
    destruct (IHns c1 c' Hw) as (news & Hm' & Hs' & Hf' & Hnames').
    exists (modelOf n prefix pkg :: rest ++ news).
    split; [rewrite Hm', Hm, <- app_assoc; reflexivity|].
    split; [congruence|].
    split.
    { constructor; [apply freshModel_modelOf|]. now apply Forall_app. }
    intros enclosing Henc. cbn [flat_map].
    rewrite <- (Hnames enclosing Henc), <- (Hnames' enclosing Henc).
    cbn [map]. now rewrite map_app.
Qed.

(** The walker returns on every well-formed message. *)
Lemma addMessageType_total (m : DescriptorProto) :
  ∀ prefix pkg ctx,
    wellFormed m = true → ∃ ctx', addMessageType m prefix pkg ctx = Ok ctx'.
Proof.
  induction m as [name fields nested mapEntry IH]
    using DescriptorProto_nested_ind.
  intros prefix pkg ctx. rewrite wellFormed_eq, addMessageType_step.
  intros Hwf. apply andb_prop in Hwf as [Hwf Hns].
  apply andb_prop in Hwf as [Hfs Hmap]. rewrite Hfs. cbn [negb].
  replace (_ && negb _) with false
    by (destruct (m_GetMapEntry _); cbn in *; [now rewrite Hmap|reflexivity]).
  cbn [m_GetNestedType] in *.
  generalize (prefix +:+ "." +:+ m_GetName (mkDescriptor name fields nested mapEntry)).
  intros prefix'.
  match goal with |- ∃ _, walkNested _ _ _ ?c = _ => generalize c end.
  clear Hfs Hmap. induction nested as [|n ns IHns]; intros c.
  - exists c. reflexivity.
  - cbn [forallb] in Hns. apply andb_prop in Hns as [Hn Hns].
    inversion IH as [|? ? Hhead Htail]; subst.
    destruct (Hhead prefix' pkg c Hn) as (c1 & Hc1).
    destruct (IHns Htail Hns c1) as (c' & Hc').
    exists c'. unfold walkNested in *. cbn [forM]. now rewrite Hc1.
Qed.

Lemma walkMessages_total (pkg : string) (ms : list DescriptorProto) :
  ∀ ctx, forallb wellFormed ms = true →
         ∃ ctx', walkMessages pkg ms ctx = Ok ctx'.
Proof.
  induction ms as [|m ms IH]; intros ctx Hwf.
  - exists ctx. reflexivity.
  - cbn [forallb] in Hwf. apply andb_prop in Hwf as [Hm Hms].
    destruct (addMessageType_total m "" pkg ctx Hm) as (c1 & Hc1).
    destruct (IH c1 Hms) as (c' & Hc').
    exists c'. unfold walkMessages in *. cbn [forM]. now rewrite Hc1.
Qed.

Lemma walkMessages_inv (pkg : string) (ms : list DescriptorProto)
  (ctx ctx' : APIContext) :
  walkMessages pkg ms ctx = Ok ctx' →
  ∃ news,
    Models ctx' = Models ctx ++ news
    ∧ Services ctx' = Services ctx
    ∧ Forall freshModel news
    ∧ map Name news = flat_map (flatNames []) ms.
Proof.
  intros Hw. destruct (walkNested_inv "" pkg ms ctx ctx' Hw)
    as (news & Hm & Hs & Hf & Hnames).
  exists news. repeat split; try assumption. now apply Hnames.
Qed.

Example flatNames_three_levels :
  flatNames [] nestedExample
  = ["Outer"; "OuterMiddle"; "OuterMiddleInner"; "OuterMiddleLeaf";
     "OuterSide"].
Proof. reflexivity. Qed.

Example walk_three_levels :
  (ctx ← walkMessages "pkg" [nestedExample] NewAPIContext;
   Ok (map Name (Models ctx)))
  = Ok ["Outer"; "OuterMiddle"; "OuterMiddleInner"; "OuterMiddleLeaf";
        "OuterSide"].
Proof. vm_compute. reflexivity. Qed.

Lemma AddModel_bounded (c : APIContext) (m : Model) :
  lookupBounded c → lookupBounded (AddModel c m).
Proof.
  intros Hb k v. cbn. rewrite length_app. cbn.
  intros Hl. apply lookup_insert_Some in Hl as [(_ & <-)|(_ & Hl)]; [lia|].
  apply Hb in Hl. lia.
Qed.

Lemma addMessageType_bounded (m : DescriptorProto) :
  ∀ prefix pkg c c',
    lookupBounded c → addMessageType m prefix pkg c = Ok c' →
    lookupBounded c'.
Proof.
  induction m as [name fields nested mapEntry IH]
    using DescriptorProto_nested_ind.
  intros prefix pkg c c' Hb. rewrite addMessageType_step.
  destruct (negb _); [discriminate|].
  destruct (_ && negb _); [discriminate|].
  cbn [m_GetNestedType].
  match goal with
  | |- walkNested ?pre _ _ ?c1 = _ → _ =>
      generalize pre; intros prefix';
      assert (Hb1 : lookupBounded c1)
        by (apply (AddModel_bounded c (modelOf _ prefix pkg)); exact Hb);
      generalize dependent c1
  end.
  clear Hb. induction nested as [|n ns IHns]; intros c1 Hb1 Hw.
  - injection Hw as <-. exact Hb1.
  - unfold walkNested in Hw. cbn [forM] in Hw.
    apply bind_Ok_inv in Hw as (c2 & Hn & Hw).
    inversion IH as [|? ? Hhead Htail]; subst.
    apply (IHns Htail c2); [|exact Hw]. now apply (Hhead prefix' pkg c1).
Qed.

Lemma walkMessages_bounded (pkg : string) (ms : list DescriptorProto) :
  ∀ c c', lookupBounded c → walkMessages pkg ms c = Ok c' → lookupBounded c'.
Proof.
  induction ms as [|m ms IH]; intros c c' Hb Hw.
  - injection Hw as <-. exact Hb.
  - unfold walkMessages in Hw. cbn [forM] in Hw.
    apply bind_Ok_inv in Hw as (c1 & Hm & Hw).
    apply (IH c1); [|exact Hw]. now apply (addMessageType_bounded m "" pkg c).
Qed.

End Walker.

(** ** Service builder *)

Section Services.

Lemma lowerFirst_slices (s : string) :
  s ≠ "" →
  (first ← slice s 0 1; rest ← sliceFrom s 1;
   Ok (strings.ToLower first +:+ rest))
  = Ok (lowerFirst s).
Proof. destruct s as [|c s]; [congruence|]. reflexivity. Qed.

Lemma newMethod_eq (pkg : string) (m : MethodDescriptorProto) :
  md_GetName m ≠ "" → removePkg (md_GetInputType m) pkg ≠ "" →
  newMethod pkg m = Ok (methodOf pkg m).
Proof.
  intros Hn Hi. unfold newMethod, methodOf.
  destruct (md_GetName m) as [|c n]; [congruence|].
  destruct (removePkg (md_GetInputType m) pkg) as [|d i]; [congruence|].
  reflexivity.
Qed.

Lemma newMethod_empty_name (pkg : string) (m : MethodDescriptorProto) :
  md_GetName m = "" → newMethod pkg m = Panic SliceOutOfRange.
Proof. intros Hn. unfold newMethod. now rewrite Hn. Qed.

Lemma methodLoop_eq (pkg : string) (ms : list MethodDescriptorProto) :
  ∀ acc,
    Forall (validMethod pkg) ms →
    forM (fun ms m => method ← newMethod pkg m; Ok (ms ++ [method])) ms acc
    = Ok (acc ++ map (methodOf pkg) ms).
Proof.
  induction ms as [|m ms IH]; intros acc Hall.
  - cbn. now rewrite app_nil_r.
  - inversion Hall as [|? ? (Hn & Hi & _) Hms]; subst.
    cbn [forM map]. rewrite (newMethod_eq pkg m Hn Hi). cbn.
    rewrite (IH _ Hms). now rewrite <- app_assoc.
Qed.

Lemma newService_eq (pkg : string) (s : ServiceDescriptorProto) :
  Forall (validMethod pkg) (s_GetMethod s) →
  newService pkg s
  = Ok {| ServiceName := s_GetName s; Package := pkg;
          Methods := map (methodOf pkg) (s_GetMethod s) |}.
Proof.
  intros Hall. unfold newService. now rewrite (methodLoop_eq pkg _ [] Hall).
Qed.

End Services.

(** ** Reachability propagator *)

Section Shape.

Lemma Marshal_ne_Unmarshal : Marshal ≠ Unmarshal.
Proof. discriminate. Qed.

Lemma Unmarshal_ne_Marshal : Unmarshal ≠ Marshal.
Proof. discriminate. Qed.

Lemma eraseFlags_setFlag (fl : flag) (m : Model) :
  eraseFlags (setFlag fl m) = eraseFlags m.
Proof. now destruct fl. Qed.

Lemma sameShape_refl (c : APIContext) : sameShape c c.
Proof. repeat split. Qed.

Lemma sameShape_sym (c c' : APIContext) : sameShape c c' → sameShape c' c.
Proof. intros (H1 & H2 & H3). repeat split; congruence. Qed.

Lemma sameShape_trans (c1 c2 c3 : APIContext) :
  sameShape c1 c2 → sameShape c2 c3 → sameShape c1 c3.
Proof. intros (H1 & H2 & H3) (H4 & H5 & H6). repeat split; congruence. Qed.

Lemma sameShape_setModelFlag (fl : flag) (c : APIContext) (p : nat) :
  sameShape c (setModelFlag fl c p).
Proof.
  repeat split. cbn. apply list_eq; intros i.
  rewrite !list_lookup_fmap. destruct (decide (i = p)) as [->|Hne].
  - rewrite list_lookup_alter_eq. destruct (Models c !! p); cbn; [|reflexivity].
    now rewrite eraseFlags_setFlag.
  - now rewrite list_lookup_alter_ne.
Qed.

Lemma sameShape_model (c c' : APIContext) (i : nat) (m : Model) :
  sameShape c c' → Models c !! i = Some m →
  ∃ m', Models c' !! i = Some m' ∧ eraseFlags m' = eraseFlags m.
Proof.
  intros (H & _) Hm.
  assert (Hi : (eraseFlags <$> Models c') !! i = Some (eraseFlags m))
    by (rewrite <- H, list_lookup_fmap, Hm; reflexivity).
  rewrite list_lookup_fmap in Hi.
  destruct (Models c' !! i) as [m'|]; [|discriminate].
  exists m'. split; [reflexivity|]. cbn in Hi. congruence.
Qed.

Lemma eraseFlags_Fields (m m' : Model) :
  eraseFlags m' = eraseFlags m → Fields m' = Fields m.
Proof. intros H. now injection H. Qed.

Lemma eraseFlags_Name (m m' : Model) :
  eraseFlags m' = eraseFlags m → Name m' = Name m.
Proof. intros H. now injection H. Qed.

Lemma sameShape_length (c c' : APIContext) :
  sameShape c c' → length (Models c) = length (Models c').
Proof.
  intros (H & _). apply (f_equal length) in H. now rewrite !length_fmap in H.
Qed.

Lemma follows_shape (c c' : APIContext) (i j : nat) :
  sameShape c c' → follows c i j → follows c' i j.
Proof.
  intros Hs (m & f & Hm & Hf & Hskip & Hl).
  destruct (sameShape_model _ _ _ _ Hs Hm) as (m' & Hm' & He).
  exists m', f. split; [exact Hm'|]. rewrite (eraseFlags_Fields _ _ He).
  destruct Hs as (_ & _ & <-). auto.
Qed.

Lemma references_shape (c c' : APIContext) (i j : nat) :
  sameShape c c' → references c i j → references c' i j.
Proof.
  intros Hs (m & f & Hm & Hf & Hmsg & Hd & Hl).
  destruct (sameShape_model _ _ _ _ Hs Hm) as (m' & Hm' & He).
  exists m', f. split; [exact Hm'|]. rewrite (eraseFlags_Fields _ _ He).
  destruct Hs as (_ & _ & <-). auto.
Qed.

Lemma seeded_shape (fl : flag) (c c' : APIContext) (i : nat) :
  sameShape c c' → seeded fl c i → seeded fl c' i.
Proof.
  intros Hs (m & s & sm & Hm & Hsv & Hsm & Hn).
  destruct (sameShape_model _ _ _ _ Hs Hm) as (m' & Hm' & He).
  exists m', s, sm. split; [exact Hm'|].
  rewrite (eraseFlags_Name _ _ He). destruct Hs as (_ & <- & _). auto.
Qed.

Lemma rtc_follows_shape (c c' : APIContext) (i j : nat) :
  sameShape c c' → rtc (follows c) i j → rtc (follows c') i j.
Proof. intros Hs. apply rtc_subrel. intros x y. now apply follows_shape. Qed.

Lemma rtc_references_shape (c c' : APIContext) (i j : nat) :
  sameShape c c' → rtc (references c) i j → rtc (references c') i j.
Proof. intros Hs. apply rtc_subrel. intros x y. now apply references_shape. Qed.

(** Reading the flags after [m.CanMarshal = true] through [p]. *)
Lemma flagAt_setModelFlag (fl : flag) (c : APIContext) (p i : nat) :
  p < length (Models c) →
  flagAt fl (setModelFlag fl c p) i = true ↔ flagAt fl c i = true ∨ i = p.
Proof.
  intros Hp. unfold flagAt, setModelFlag. cbn.
  destruct (decide (i = p)) as [->|Hne].
  - rewrite list_lookup_alter_eq.
    destruct (lookup_lt_is_Some_2 _ _ Hp) as (m & ->). cbn.
    split; [auto|]. intros _. now destruct fl.
  - rewrite list_lookup_alter_ne by congruence. tauto.
Qed.

Lemma flagAt_setModelFlag_other (fl fl' : flag) (c : APIContext) (p i : nat) :
  fl' ≠ fl → flagAt fl' (setModelFlag fl c p) i = flagAt fl' c i.
Proof.
  intros Hne. unfold flagAt, setModelFlag. cbn.
  destruct (decide (i = p)) as [->|Hip].
  - rewrite list_lookup_alter_eq. destruct (Models c !! p); cbn; [|reflexivity].
    destruct fl, fl'; cbn; congruence.
  - now rewrite list_lookup_alter_ne by congruence.
Qed.

End Shape.

Section Enable.

Variable fl : flag.

Lemma enableFlag_post (fuel : nat) :
  ∀ c p c', enableFlag fl fuel c (Some p) = Ok c' → enablePost fl c p c'.
Proof.
  induction fuel as [|n IH]; [discriminate|].
  intros c p c' H. cbn [enableFlag] in H.
  destruct (Models c !! p) as [model|] eqn:Hm; [|discriminate].
  assert (Hp : p < length (Models c)) by (apply lookup_lt_is_Some; eauto).
  assert (Hloop : ∀ fs ca cb,
             sameShape c ca →
             forM (fun ctx f =>
                     if skipField f then Ok ctx
                     else match modelLookup ctx !! baseType f with
                          | None => couldNotFind (baseType f) (FieldName f)
                          | Some mm => enableFlag fl n ctx (Some mm)
                          end) fs ca = Ok cb →
             sameShape ca cb
             ∧ (∀ i, flagAt fl ca i = true → flagAt fl cb i = true)
             ∧ (∀ i, flagAt fl cb i = true →
                     flagAt fl ca i = true
                     ∨ ∃ f q, f ∈ fs ∧ skipField f = false
                              ∧ modelLookup c !! baseType f = Some q
                              ∧ rtc (follows c) q i)
             ∧ (∀ f q, f ∈ fs → skipField f = false →
                       modelLookup c !! baseType f = Some q →
                       ∀ i, rtc (follows c) q i → flagAt fl cb i = true)
             ∧ (∀ fl' i, fl' ≠ fl → flagAt fl' cb i = flagAt fl' ca i)).
  { induction fs as [|f fs IHfs]; intros ca cb Hs Hrun.
    - injection Hrun as <-. split; [apply sameShape_refl|].
      split; [auto|]. split; [auto|]. split; [|auto].
      intros f q Hf. inversion Hf.
    - cbn [forM] in Hrun. apply bind_Ok_inv in Hrun as (cm & Hstep & Hrun).
      destruct (skipField f) eqn:Hskip.
      + injection Hstep as <-.
        destruct (IHfs ca cb Hs Hrun) as (H1 & H2 & H3 & H4 & H5).
        split; [exact H1|]. split; [exact H2|]. split; [|split; [|exact H5]].
        * intros i Hi. destruct (H3 i Hi) as [?|(g & q & Hg & ?)]; [auto|].
          right. exists g, q. split; [now constructor|assumption].
        * intros g q Hg Hgs Hl. apply elem_of_cons in Hg as [->|Hg];
            [congruence|]. now apply (H4 g q).
      + destruct (modelLookup ca !! baseType f) as [q|] eqn:Hl;
          [|discriminate].
        assert (Hlc : modelLookup c !! baseType f = Some q)
          by (destruct Hs as (_ & _ & ->); exact Hl).
        destruct (IH _ _ _ Hstep) as (E1 & E2 & E3 & E4 & E5).
        assert (Hsm : sameShape c cm) by (eapply sameShape_trans; eauto).
        destruct (IHfs cm cb Hsm Hrun) as (H1 & H2 & H3 & H4 & H5).
        split; [eapply sameShape_trans; eauto|]. split; [auto|].
        split; [|split].
        * intros i Hi. destruct (H3 i Hi) as [Hcm|(g & q' & Hg & ?)].
          -- destruct (E3 i Hcm) as [?|Hr]; [auto|]. right.
             exists f, q. split; [constructor|]. split; [exact Hskip|].
             split; [exact Hlc|].
             apply (rtc_follows_shape ca c); [now apply sameShape_sym|exact Hr].
          -- right. exists g, q'. split; [now constructor|assumption].
        * intros g q' Hg Hgs Hgl i Hr.
          apply elem_of_cons in Hg as [->|Hg].
          -- assert (q' = q) as -> by congruence.
             apply H2, E4. now apply (rtc_follows_shape c ca).
          -- now apply (H4 g q').
        * intros fl' i Hne. rewrite (H5 fl' i Hne). now apply E5. }
  destruct (Hloop (Fields model) (setModelFlag fl c p) c'
              (sameShape_setModelFlag fl c p) H) as (H1 & H2 & H3 & H4 & H5).
  split; [eapply sameShape_trans; [apply sameShape_setModelFlag|exact H1]|].
  split; [|split; [|split]].
  - intros i Hi. apply H2, flagAt_setModelFlag; auto.
  - intros i Hi. destruct (H3 i Hi) as [Hset|(f & q & Hf & Hskip & Hl & Hr)].
    + apply flagAt_setModelFlag in Hset as [?| ->]; [auto| |exact Hp].
      right. apply rtc_refl.
    + right. apply rtc_l with q; [|exact Hr]. now exists model, f.
  - intros i Hr. apply rtc_inv in Hr as [<-|(q & (m & f & Hm' & Hf & Hskip & Hl) & Hr)].
    + apply H2, flagAt_setModelFlag; auto.
    + assert (m = model) as -> by congruence. now apply (H4 f q).
  - intros fl' i Hne. rewrite (H5 fl' i Hne).
    now apply flagAt_setModelFlag_other.
Qed.

End Enable.

Section Apply.

Variable fl : flag.
Variable c0 : APIContext.

Lemma applyInv_start : applyInv fl c0 c0.
Proof.
  split; [apply sameShape_refl|]. split; [auto|]. split.
  - intros i Hi. exists i. split; [exact Hi|apply rtc_refl].
  - intros i k Hi Hi'. congruence.
Qed.

Lemma enableFlag_ptr (fl' : flag) (fuel : nat) (c c' : APIContext) (o : ptr) :
  enableFlag fl' fuel c o = Ok c' → ∃ q, o = Some q.
Proof. destruct fuel, o; try discriminate. eauto. Qed.

Lemma applyField_phases (fuel p : nat) (f : ModelField) (c c' : APIContext) :
  skipField f = false →
  applyField fuel p c f = Ok c' →
  ∃ c1, phase Marshal fuel p f c c1 ∧ phase Unmarshal fuel p f c1 c'.
Proof.
  intros Hskip H. unfold applyField in H. rewrite Hskip in H.
  apply bind_Ok_inv in H as (c1 & H1 & H2). exists c1. split.
  - destruct (flagAt Marshal c p) eqn:Hfl.
    + left. split; [exact Hfl|].
      destruct (enableFlag_ptr _ _ _ _ _ H1) as (q & Hq).
      exists q. split; [exact Hq|]. now rewrite <- Hq.
    + right. split; [exact Hfl|]. now injection H1.
  - destruct (flagAt Unmarshal c1 p) eqn:Hfl.
    + left. split; [exact Hfl|].
      destruct (modelLookup c1 !! baseType f) as [q|]; [|discriminate].
      now exists q.
    + right. split; [exact Hfl|]. now injection H2.
Qed.

Lemma phase_own (fuel p : nat) (m : Model) (f : ModelField)
  (c c' : APIContext) :
  applyInv fl c0 c → Models c0 !! p = Some m → f ∈ Fields m →
  skipField f = false →
  phase fl fuel p f c c' →
  applyInv fl c0 c'
  ∧ (∀ i, flagAt fl c i = true → flagAt fl c' i = true)
  ∧ covered fl c0 c' p f.
Proof.
  intros (HS & HM & Hso & Hcn) Hm Hf Hskip [(Hp & q & Hl & Hrun)|(Hp & ->)].
  - destruct (enableFlag_post fl _ _ _ _ Hrun) as (E1 & E2 & E3 & E4 & _).
    assert (Hl0 : modelLookup c0 !! baseType f = Some q)
      by (destruct HS as (_ & _ & ->); exact Hl).
    assert (Hedge : follows c0 p q) by now exists m, f.
    assert (Hto : ∀ a b, rtc (follows c) a b → rtc (follows c0) a b)
      by (intros a b; apply rtc_follows_shape; now apply sameShape_sym).
    assert (Hfrom : ∀ a b, rtc (follows c0) a b → rtc (follows c) a b)
      by (intros a b; now apply rtc_follows_shape).
    split; [|split; [exact E2|]].
    + split; [eapply sameShape_trans; eauto|]. split; [auto|]. split.
      * intros i Hi. destruct (E3 i Hi) as [Hc|Hr]; [auto|].
        destruct (Hso p Hp) as (j & Hj & Hjp). exists j. split; [exact Hj|].
        eapply rtc_trans; [exact Hjp|].
        eapply rtc_l; [exact Hedge|]. now apply Hto.
      * intros i k Hi Hi0 Hr. destruct (E3 i Hi) as [Hc|Hqi].
        -- apply E2. now apply (Hcn i k).
        -- apply E4, Hfrom. eapply rtc_trans; [apply Hto; exact Hqi|exact Hr].
    + intros _ _ q' Hl' k Hr. assert (q' = q) as -> by congruence.
      now apply E4, Hfrom.
  - split; [exact (conj HS (conj HM (conj Hso Hcn)))|]. split; [auto|].
    intros Hp0. apply HM in Hp0. congruence.
Qed.

Lemma phase_other (fl' : flag) (fuel p : nat) (f : ModelField)
  (c c' : APIContext) :
  fl ≠ fl' → applyInv fl c0 c → phase fl' fuel p f c c' →
  applyInv fl c0 c' ∧ (∀ i, flagAt fl c' i = flagAt fl c i).
Proof.
  intros Hne (HS & HM & Hso & Hcn) [(Hp & q & Hl & Hrun)|(Hp & ->)].
  - destruct (enableFlag_post fl' _ _ _ _ Hrun) as (E1 & _ & _ & _ & E5).
    pose proof (fun i => E5 fl i Hne) as Heq. split; [|exact Heq].
    split; [eapply sameShape_trans; eauto|].
    split; [intros i Hi; rewrite Heq; auto|]. split.
    + intros i Hi. rewrite Heq in Hi. auto.
    + intros i k Hi Hi0 Hr. rewrite Heq in Hi. rewrite Heq. eauto.
  - split; [exact (conj HS (conj HM (conj Hso Hcn)))|reflexivity].
Qed.

Lemma covered_mono (c c' : APIContext) (p : nat) (f : ModelField) :
  (∀ i, flagAt fl c i = true → flagAt fl c' i = true) →
  covered fl c0 c p f → covered fl c0 c' p f.
Proof. intros Hmono Hc Hp Hskip q Hl k Hr. apply Hmono. now apply (Hc Hp Hskip q). Qed.

End Apply.

Section ApplyLoops.

Lemma applyField_inv (fl : flag) (c0 : APIContext) (fuel p : nat) (m : Model) (f : ModelField)
  (c c' : APIContext) :
  applyInv fl c0 c → Models c0 !! p = Some m → f ∈ Fields m →
  applyField fuel p c f = Ok c' →
  applyInv fl c0 c'
  ∧ (∀ i, flagAt fl c i = true → flagAt fl c' i = true)
  ∧ covered fl c0 c' p f.
Proof.
  intros Hinv Hm Hf Hrun. destruct (skipField f) eqn:Hskip.
  - unfold applyField in Hrun. rewrite Hskip in Hrun. injection Hrun as <-.
    split; [exact Hinv|]. split; [auto|]. intros _ ?. congruence.
  - destruct (applyField_phases _ _ _ _ _ Hskip Hrun) as (c1 & Hph1 & Hph2).
    destruct fl.
    + destruct (phase_own _ _ _ _ _ _ _ _ Hinv Hm Hf Hskip Hph1)
        as (Hinv1 & Hmono & Hcov).
      destruct (phase_other _ _ Unmarshal _ _ _ _ _ Marshal_ne_Unmarshal Hinv1 Hph2)
        as (Hinv2 & Heq).
      split; [exact Hinv2|]. split.
      * intros i Hi. rewrite Heq. auto.
      * apply (covered_mono _ _ c1); [|exact Hcov]. intros i Hi. now rewrite Heq.
    + destruct (phase_other _ _ Marshal _ _ _ _ _ Unmarshal_ne_Marshal Hinv Hph1)
        as (Hinv1 & Heq).
      destruct (phase_own _ _ _ _ _ _ _ _ Hinv1 Hm Hf Hskip Hph2)
        as (Hinv2 & Hmono & Hcov).
      split; [exact Hinv2|]. split; [|exact Hcov].
      intros i Hi. apply Hmono. now rewrite Heq.
Qed.

Lemma fieldLoop_inv (fl : flag) (c0 : APIContext) (fuel p : nat) (m : Model) :
  Models c0 !! p = Some m →
  ∀ fs c c',
    (∀ f, f ∈ fs → f ∈ Fields m) →
    applyInv fl c0 c →
    forM (applyField fuel p) fs c = Ok c' →
    applyInv fl c0 c'
    ∧ (∀ i, flagAt fl c i = true → flagAt fl c' i = true)
    ∧ (∀ f, f ∈ fs → covered fl c0 c' p f).
Proof.
  intros Hm. induction fs as [|f fs IH]; intros c c' Hsub Hinv Hrun.
  - injection Hrun as <-. split; [exact Hinv|]. split; [auto|].
    intros f Hf. inversion Hf.
  - cbn [forM] in Hrun. apply bind_Ok_inv in Hrun as (c1 & Hstep & Hrun).
    assert (Hf : f ∈ Fields m) by (apply Hsub; constructor).
    destruct (applyField_inv _ _ _ _ _ _ _ _ Hinv Hm Hf Hstep)
      as (Hinv1 & Hmono1 & Hcov1).
    destruct (IH c1 c') as (Hinv2 & Hmono2 & Hcov2); [|exact Hinv1|exact Hrun|].
    { intros g Hg. apply Hsub. now constructor. }
    split; [exact Hinv2|]. split; [auto|].
    intros g Hg. apply elem_of_cons in Hg as [->|Hg]; [|auto].
    now apply (covered_mono _ _ c1).
Qed.

Lemma applyModel_inv (fl : flag) (c0 : APIContext) (fuel p : nat)
  (c c' : APIContext) :
  applyInv fl c0 c →
  applyModel fuel c p = Ok c' →
  applyInv fl c0 c'
  ∧ (∀ i, flagAt fl c i = true → flagAt fl c' i = true)
  ∧ (∀ m f, Models c0 !! p = Some m → f ∈ Fields m → covered fl c0 c' p f).
Proof.
  intros Hinv Hrun. unfold applyModel in Hrun.
  destruct (Models c !! p) as [mc|] eqn:Hmc.
  - destruct Hinv as (HS & Hrest).
    destruct (sameShape_model _ _ _ _ (sameShape_sym _ _ HS) Hmc)
      as (m0 & Hm0 & He).
    apply eraseFlags_Fields in He.
    destruct (fieldLoop_inv fl c0 fuel p m0 Hm0 (Fields mc) c c')
      as (Hinv' & Hmono & Hcov);
      [intros f; now rewrite He|exact (conj HS Hrest)|exact Hrun|].
    split; [exact Hinv'|]. split; [exact Hmono|].
    intros m f Hm Hf. assert (m = m0) as -> by congruence.
    apply Hcov. now rewrite <- He.
  - injection Hrun as <-. split; [exact Hinv|]. split; [auto|].
    intros m f Hm. destruct Hinv as (HS & _).
    destruct (sameShape_model _ _ _ _ HS Hm) as (m' & Hm' & _). congruence.
Qed.

Lemma modelLoop_inv (fl : flag) (c0 : APIContext) (fuel : nat) :
  ∀ ps c c',
    applyInv fl c0 c →
    forM (applyModel fuel) ps c = Ok c' →
    applyInv fl c0 c'
    ∧ (∀ i, flagAt fl c i = true → flagAt fl c' i = true)
    ∧ (∀ p m f, p ∈ ps → Models c0 !! p = Some m → f ∈ Fields m →
                covered fl c0 c' p f).
Proof.
  induction ps as [|p ps IH]; intros c c' Hinv Hrun.
  - injection Hrun as <-. split; [exact Hinv|]. split; [auto|].
    intros p m f Hp. inversion Hp.
  - cbn [forM] in Hrun. apply bind_Ok_inv in Hrun as (c1 & Hstep & Hrun).
    destruct (applyModel_inv _ _ _ _ _ _ Hinv Hstep) as (Hinv1 & Hmono1 & Hcov1).
    destruct (IH c1 c' Hinv1 Hrun) as (Hinv2 & Hmono2 & Hcov2).
    split; [exact Hinv2|]. split; [auto|].
    intros q m f Hq Hm Hf. apply elem_of_cons in Hq as [->|Hq].
    + apply (covered_mono _ _ c1); [exact Hmono2|]. now apply (Hcov1 m).
    + now apply (Hcov2 q m).
Qed.

(** A returning [ApplyMarshalFlags] leaves each flag set on exactly the
    models that can be reached, along the edges it follows, from a model
    that had the flag before. *)
Lemma ApplyMarshalFlags_closure (fl : flag) (fuel : nat) (c0 c' : APIContext) :
  ApplyMarshalFlags fuel c0 = Ok c' →
  sameShape c0 c'
  ∧ ∀ i, flagAt fl c' i = true
         ↔ ∃ j, flagAt fl c0 j = true ∧ rtc (follows c0) j i.
Proof.
  intros Hrun. unfold ApplyMarshalFlags in Hrun.
  destruct (modelLoop_inv fl c0 fuel _ _ _ (applyInv_start fl c0) Hrun)
    as ((HS & HM & Hso & _) & _ & Hcov).
  split; [exact HS|]. intros i. split; [apply Hso|].
  intros (j & Hj & Hr).
  apply rtc_inv in Hr as [<-|(q & (m & f & Hm & Hf & Hskip & Hl) & Hr)];
    [auto|].
  assert (Hin : j ∈ seq 0 (length (Models c0))).
  { apply elem_of_seq. split; [lia|]. cbn. apply lookup_lt_is_Some. eauto. }
  exact (Hcov j m f Hin Hm Hf Hj Hskip q Hl i Hr).
Qed.

End ApplyLoops.

(** ** From the schema to the flags *)

Section Graphs.

Variable ctx : APIContext.
Variable d : nat.
Hypothesis Hdate : dateAt ctx d.

Lemma baseType_Date (f : ModelField) :
  FieldType f = "Date" → baseType f = "Date".
Proof. unfold baseType. intros ->. now destruct (IsRepeated f). Qed.

Lemma references_follows (a b : nat) : references ctx a b → follows ctx a b.
Proof.
  intros (m & f & Hm & Hf & Hmsg & Hd & Hl). exists m, f.
  repeat split; try assumption. unfold skipField. rewrite Hmsg. cbn.
  apply String.eqb_neq. intros Ht. now apply Hd, baseType_Date.
Qed.

Lemma follows_references (a b : nat) :
  follows ctx a b → references ctx a b ∨ b = d.
Proof.
  intros (m & f & Hm & Hf & Hskip & Hl).
  destruct (String.eqb (baseType f) "Date") eqn:Hb.
  - right. apply String.eqb_eq in Hb. rewrite Hb in Hl.
    destruct Hdate as (Hd & _). congruence.
  - left. apply String.eqb_neq in Hb. exists m, f.
    unfold skipField in Hskip. apply orb_false_elim in Hskip as [Hmsg _].
    apply negb_false_iff in Hmsg. repeat split; assumption.
Qed.

Lemma date_follows_nothing (b : nat) : ¬ follows ctx d b.
Proof.
  intros (m & f & Hm & Hf & _). destruct Hdate as (_ & md & Hmd & Hfs & _).
  assert (m = md) as -> by congruence. rewrite Hfs in Hf. inversion Hf.
Qed.

(** Away from the placeholder, the propagator reaches what the
    message-reference graph reaches. *)
Lemma rtc_follows_references (a b : nat) :
  b ≠ d → rtc (follows ctx) a b ↔ rtc (references ctx) a b.
Proof.
  intros Hb. split.
  - intros Hr. revert b Hr Hb.
    apply (rtc_ind_r (fun b => b ≠ d → rtc (references ctx) a b)).
    + intros _. apply rtc_refl.
    + intros y z Hay Hyz IH Hz.
      destruct (follows_references _ _ Hyz) as [Href| ->]; [|congruence].
      apply rtc_r with y; [|exact Href]. apply IH. intros ->.
      now apply date_follows_nothing in Hyz.
  - apply rtc_subrel. intros x y. apply references_follows.
Qed.

Lemma references_mentions (a b : nat) : references ctx a b → mentions ctx a b.
Proof.
  intros (m & f & Hm & Hf & Hmsg & _ & Hl). exists m, f. auto.
Qed.

Lemma mentions_references (a b : nat) :
  mentions ctx a b → references ctx a b ∨ b = d.
Proof.
  intros (m & f & Hm & Hf & Hmsg & Hl).
  destruct (String.eqb (baseType f) "Date") eqn:Hb.
  - right. apply String.eqb_eq in Hb. rewrite Hb in Hl.
    destruct Hdate as (Hd & _). congruence.
  - left. apply String.eqb_neq in Hb. exists m, f. auto.
Qed.

(** Whether or not the date type is kept in the message-reference graph,
    the same models other than the placeholder are reachable. *)
Lemma rtc_mentions_references (a b : nat) :
  b ≠ d → rtc (mentions ctx) a b ↔ rtc (references ctx) a b.
Proof.
  intros Hb. split.
  - intros Hr. revert b Hr Hb.
    apply (rtc_ind_r (fun b => b ≠ d → rtc (references ctx) a b)).
    + intros _. apply rtc_refl.
    + intros y z Hay Hyz IH Hz.
      destruct (mentions_references _ _ Hyz) as [Href| ->]; [|congruence].
      apply rtc_r with y; [|exact Href]. apply IH. intros ->.
      destruct Hyz as (m & f & Hm & Hf & _).
      destruct Hdate as (_ & md & Hmd & Hfs & _).
      assert (m = md) as -> by congruence. rewrite Hfs in Hf. inversion Hf.
  - apply rtc_subrel. intros x y. apply references_mentions.
Qed.

Lemma rtc_references_from_date (b : nat) : rtc (references ctx) d b → b = d.
Proof.
  intros Hr. apply rtc_inv in Hr as [<-|(y & Hy & _)]; [reflexivity|].
  apply references_follows in Hy. now apply date_follows_nothing in Hy.
Qed.

End Graphs.

Section Seeds.

Lemma Name_setFlag (fl : flag) (m : Model) : Name (setFlag fl m) = Name m.
Proof. now destruct fl. Qed.

Lemma seedMethod_spec (m : Model) (sm : ServiceMethod) :
  eraseFlags (seedMethod m sm) = eraseFlags m
  ∧ ∀ fl, getFlag fl (seedMethod m sm)
          = getFlag fl m || String.eqb (Name m) (seedType fl sm).
Proof.
  unfold seedMethod.
  destruct (String.eqb (Name m) (InputType sm)) eqn:Hi;
    rewrite ?Name_setFlag;
    destruct (String.eqb (Name m) (OutputType sm)) eqn:Ho;
    (split; [reflexivity|]); intros [|]; cbn; rewrite ?Hi, ?Ho;
    now rewrite ?orb_true_r, ?orb_false_r.
Qed.

Lemma seedMethods_spec (sms : list ServiceMethod) :
  ∀ m, eraseFlags (fold_left seedMethod sms m) = eraseFlags m
       ∧ ∀ fl, getFlag fl (fold_left seedMethod sms m)
               = getFlag fl m
                 || existsb (fun sm => String.eqb (Name m) (seedType fl sm)) sms.
Proof.
  induction sms as [|sm sms IH]; intros m; cbn [fold_left existsb].
  - split; [reflexivity|]. intros fl. now rewrite orb_false_r.
  - destruct (IH (seedMethod m sm)) as (He & Hfl).
    destruct (seedMethod_spec m sm) as (He' & Hfl').
    split; [congruence|]. intros fl. rewrite Hfl, Hfl'.
    rewrite (eraseFlags_Name _ _ He'). now rewrite orb_assoc.
Qed.

Lemma seedModel_spec (svcs : list Service) :
  ∀ m, eraseFlags (seedModel svcs m) = eraseFlags m
       ∧ ∀ fl, getFlag fl (seedModel svcs m)
               = getFlag fl m || usedByMethod fl svcs (Name m).
Proof.
  unfold seedModel, usedByMethod.
  induction svcs as [|s svcs IH]; intros m; cbn [fold_left existsb].
  - split; [reflexivity|]. intros fl. now rewrite orb_false_r.
  - destruct (IH (fold_left seedMethod (Methods s) m)) as (He & Hfl).
    destruct (seedMethods_spec (Methods s) m) as (He' & Hfl').
    split; [congruence|]. intros fl. rewrite Hfl, Hfl'.
    rewrite (eraseFlags_Name _ _ He'). now rewrite orb_assoc.
Qed.

Lemma usedByMethod_true (fl : flag) (svcs : list Service) (name : string) :
  usedByMethod fl svcs name = true
  ↔ ∃ s sm, s ∈ svcs ∧ sm ∈ Methods s ∧ name = seedType fl sm.
Proof.
  unfold usedByMethod. rewrite existsb_exists. split.
  - intros (s & Hs & Hex). apply existsb_exists in Hex as (sm & Hsm & Heq).
    exists s, sm. rewrite <- !list_elem_of_In in *.
    repeat split; try assumption. now apply String.eqb_eq.
  - intros (s & sm & Hs & Hsm & ->). exists s.
    split; [now apply list_elem_of_In|]. apply existsb_exists. exists sm.
    split; [now apply list_elem_of_In|]. apply String.eqb_refl.
Qed.

End Seeds.

Section Pipeline.

Lemma buildServices_inv (pkg : string) (ss : list ServiceDescriptorProto) :
  ∀ c c', buildServices pkg ss c = Ok c' →
          Models c' = Models c ∧ modelLookup c' = modelLookup c.
Proof.
  induction ss as [|s ss IH]; intros c c' H.
  - injection H as <-. auto.
  - unfold buildServices in H. cbn [forM] in H.
    apply bind_Ok_inv in H as (c1 & H1 & H).
    apply bind_Ok_inv in H1 as (svc & _ & H1). injection H1 as <-.
    destruct (IH _ _ H) as (-> & ->). auto.
Qed.

Lemma NewAPIContext_bounded : lookupBounded NewAPIContext.
Proof. intros k v Hl. cbn in Hl. now rewrite lookup_empty in Hl. Qed.

(** The stages of [CreateClientAPI] before the template runs. *)
Lemma clientContext_inv (fuel : nat) (d : FileDescriptorProto)
  (ctx : APIContext) :
  clientContext fuel d = Ok ctx →
  ∃ ctxS, Forall freshModel (Models ctxS)
          ∧ lookupBounded ctxS
          ∧ ApplyMarshalFlags fuel (AddModel (seedFlags ctxS) dateModel)
            = Ok ctx.
Proof.
  unfold clientContext, seededContext. intros H.
  apply bind_Ok_inv in H as (c0 & H0 & H).
  apply bind_Ok_inv in H0 as (ctxW & HW & H0).
  apply bind_Ok_inv in H0 as (ctxS & HS & H0). injection H0 as <-.
  exists ctxS. split; [|split; [|exact H]].
  - destruct (buildServices_inv _ _ _ _ HS) as (-> & _).
    destruct (walkMessages_inv _ _ _ _ HW) as (news & -> & _ & Hf & _).
    exact Hf.
  - pose proof (walkMessages_bounded _ _ _ _ NewAPIContext_bounded HW) as Hb.
    destruct (buildServices_inv _ _ _ _ HS) as (HM & HL).
    intros k v. rewrite HM, HL. apply Hb.
Qed.

Variable ctxS : APIContext.
Hypothesis Hfresh : Forall freshModel (Models ctxS).
Hypothesis Hbounded : lookupBounded ctxS.

Let c0 : APIContext := AddModel (seedFlags ctxS) dateModel.
Let d : nat := length (Models ctxS).

Lemma seeded_context_models :
  Models c0 = map (seedModel (Services ctxS)) (Models ctxS) ++ [dateModel].
Proof. reflexivity. Qed.

Lemma seeded_context_dateAt : dateAt c0 d.
Proof.
  split.
  - cbn. rewrite length_map. apply lookup_insert_eq.
  - exists dateModel. split; [|split; reflexivity].
    rewrite seeded_context_models. apply list_lookup_middle.
    now rewrite length_map.
Qed.

Lemma seeded_context_lookup (j : nat) (m' : Model) :
  Models c0 !! j = Some m' → j ≠ d →
  ∃ m, Models ctxS !! j = Some m ∧ m' = seedModel (Services ctxS) m
       ∧ freshModel m.
Proof.
  intros Hm Hj. rewrite seeded_context_models in Hm.
  assert (Hlt : j < d).
  { apply lookup_lt_Some in Hm. rewrite length_app, length_map in Hm.
    cbn in Hm. subst d. lia. }
  rewrite lookup_app_l in Hm by (rewrite length_map; exact Hlt).
  change (map ?f ?l) with (f <$> l) in Hm. rewrite list_lookup_fmap in Hm.
  destruct (Models ctxS !! j) as [m|] eqn:Hmj; [|discriminate].
  exists m. split; [reflexivity|]. split; [cbn in Hm; congruence|].
  rewrite Forall_forall in Hfresh. apply Hfresh.
  apply list_elem_of_lookup. eauto.
Qed.

(** After seeding, the flagged models are the ones that a method names. *)
Lemma seeded_context_flags (fl : flag) (j : nat) :
  flagAt fl c0 j = true ↔ j ≠ d ∧ seeded fl c0 j.
Proof.
  unfold flagAt. split.
  - destruct (Models c0 !! j) as [m'|] eqn:Hm; [|discriminate].
    intros Hfl. assert (Hj : j ≠ d).
    { intros ->. destruct seeded_context_dateAt as (_ & md & Hmd & _).
      assert (m' = dateModel) as ->.
      { rewrite seeded_context_models in Hm.
        rewrite list_lookup_middle in Hm by now rewrite length_map.
        congruence. }
      now destruct fl. }
    split; [exact Hj|].
    destruct (seeded_context_lookup _ _ Hm Hj) as (m & Hmj & -> & Hf).
    destruct (seedModel_spec (Services ctxS) m) as (He & Hflag).
    rewrite Hflag in Hfl. destruct Hf as (_ & HcM & HcU).
    assert (Hm0 : getFlag fl m = false) by now destruct fl.
    rewrite Hm0 in Hfl. cbn in Hfl.
    apply usedByMethod_true in Hfl as (s & sm & Hs & Hsm & Hn).
    exists (seedModel (Services ctxS) m), s, sm.
    split; [exact Hm|]. split; [exact Hs|]. split; [exact Hsm|].
    now rewrite (eraseFlags_Name _ _ He).
  - intros (Hj & m' & s & sm & Hm & Hs & Hsm & Hn). rewrite Hm.
    destruct (seeded_context_lookup _ _ Hm Hj) as (m & Hmj & -> & Hf).
    destruct (seedModel_spec (Services ctxS) m) as (He & Hflag).
    rewrite Hflag. apply orb_true_iff. right.
    apply usedByMethod_true. exists s, sm.
    rewrite (eraseFlags_Name _ _ He) in Hn. auto.
Qed.

Variable fuel : nat.
Variable ctx : APIContext.
Hypothesis Hrun : ApplyMarshalFlags fuel c0 = Ok ctx.

Lemma final_context_shape : sameShape c0 ctx.
Proof. exact (proj1 (ApplyMarshalFlags_closure Marshal _ _ _ Hrun)). Qed.

Lemma final_context_dateAt : dateAt ctx d.
Proof.
  destruct seeded_context_dateAt as (Hl & md & Hmd & Hfs & Hp).
  pose proof final_context_shape as HS.
  destruct (sameShape_model _ _ _ _ HS Hmd) as (m' & Hm' & He).
  split; [destruct HS as (_ & _ & <-); exact Hl|].
  exists m'. split; [exact Hm'|].
  split; [now rewrite (eraseFlags_Fields _ _ He)|].
  injection He as _ Hprim _ _. congruence.
Qed.

(** The flags when propagation has returned, for every model but the
    placeholder. *)
Lemma final_context_flags (fl : flag) (i : nat) :
  i ≠ d → flagAt fl ctx i = true ↔ reachableFromMethod fl ctx i.
Proof.
  intros Hi. pose proof final_context_shape as HS.
  destruct (ApplyMarshalFlags_closure fl _ _ _ Hrun) as (_ & Hclo).
  rewrite Hclo. unfold reachableFromMethod. split.
  - intros (j & Hj & Hr). apply seeded_context_flags in Hj as (_ & Hj).
    exists j. split; [now apply (seeded_shape fl c0)|].
    apply (rtc_references_shape c0); [exact HS|].
    now apply (rtc_follows_references c0 d seeded_context_dateAt).
  - intros (j & Hj & Hr). exists j.
    apply (seeded_shape fl ctx c0) in Hj; [|now apply sameShape_sym].
    apply (rtc_references_shape ctx c0) in Hr; [|now apply sameShape_sym].
    split.
    + apply seeded_context_flags. split; [|exact Hj]. intros ->.
      now apply (rtc_references_from_date c0 d seeded_context_dateAt) in Hr.
    + now apply (rtc_follows_references c0 d seeded_context_dateAt).
Qed.

Lemma seeded_context_date_key (k : string) :
  modelLookup c0 !! k = Some d → k = "Date".
Proof.
  cbn. rewrite length_map. intros Hl.
  apply lookup_insert_Some in Hl as [(<- & _)|(_ & Hl)]; [reflexivity|].
  apply Hbounded in Hl. subst d. lia.
Qed.

Lemma date_not_referenced (y : nat) : ¬ references ctx y d.
Proof.
  intros (m & f & _ & _ & _ & Hd & Hl). apply Hd, seeded_context_date_key.
  destruct final_context_shape as (_ & _ & ->). exact Hl.
Qed.

Lemma final_context_date_model (m : Model) :
  Models ctx !! d = Some m → eraseFlags m = dateModel.
Proof.
  intros Hm. destruct seeded_context_dateAt as (_ & md & Hmd & _).
  assert (md = dateModel) as ->.
  { rewrite seeded_context_models in Hmd.
    rewrite list_lookup_middle in Hmd by now rewrite length_map.
    congruence. }
  destruct (sameShape_model _ _ _ _ final_context_shape Hmd) as (m' & Hm' & He).
  assert (m' = m) as -> by congruence. exact He.
Qed.

Lemma final_context_others (i : nat) (m : Model) :
  Models ctx !! i = Some m → i ≠ d → Primitive m = false.
Proof.
  intros Hm Hi.
  destruct (sameShape_model _ _ _ _ (sameShape_sym _ _ final_context_shape) Hm)
    as (m0 & Hm0 & He).
  destruct (seeded_context_lookup _ _ Hm0 Hi) as (m1 & _ & -> & Hf & _).
  destruct (seedModel_spec (Services ctxS) m1) as (He1 & _).
  rewrite He1 in He. injection He as _ Hp _ _. congruence.
Qed.

(** The placeholder is reachable in the message-reference graph only as
    the type of a method itself. *)
Lemma placeholder_reachable (fl : flag) :
  reachableFromMethod fl ctx d → usedByMethod fl (Services ctx) "Date" = true.
Proof.
  intros (j & Hj & Hr).
  apply rtc_inv_r in Hr as [->|(y & _ & Hy)];
    [|now apply date_not_referenced in Hy].
  destruct Hj as (m & s & sm & Hm & Hs & Hsm & Hn).
  apply usedByMethod_true. exists s, sm. repeat split; try assumption.
  rewrite <- Hn. apply final_context_date_model in Hm.
  apply (f_equal Name) in Hm. cbn in Hm. congruence.
Qed.

End Pipeline.

(** The placeholder for the date type in the registry that the template
    receives. *)
Lemma clientContext_placeholder (fuel : nat) (file : FileDescriptorProto)
  (ctx : APIContext) :
  clientContext fuel file = Ok ctx →
  ∃ d md,
    modelLookup ctx !! "Date" = Some d
    ∧ Models ctx !! d = Some md
    ∧ eraseFlags md = dateModel
    ∧ (∀ i m, Models ctx !! i = Some m → i ≠ d → Primitive m = false)
    ∧ (∀ fl i, i ≠ d → flagAt fl ctx i = true ↔ reachableFromMethod fl ctx i)
    ∧ (∀ fl, reachableFromMethod fl ctx d →
             usedByMethod fl (Services ctx) "Date" = true).
Proof.
  intros H. destruct (clientContext_inv _ _ _ H) as (ctxS & Hf & Hb & Hrun).
  destruct (final_context_dateAt ctxS fuel ctx Hrun) as (Hl & md & Hmd & _).
  exists (length (Models ctxS)), md.
  split; [exact Hl|]. split; [exact Hmd|].
  split; [now apply (final_context_date_model ctxS fuel ctx Hrun)|].
  split; [now apply (final_context_others ctxS Hf fuel ctx Hrun)|].
  split; [intros fl i; now apply (final_context_flags ctxS Hf fuel ctx Hrun)|].
  intros fl. now apply (placeholder_reachable ctxS Hb fuel ctx Hrun).
Qed.

(** ** Propagation on cyclic schemas *)

Section Divergence.

Lemma setFlag_id (fl : flag) (m : Model) :
  getFlag fl m = true → setFlag fl m = m.
Proof. destruct m, fl; cbn; now intros ->. Qed.

Lemma setModelFlag_id (fl : flag) (c : APIContext) (p : nat) (m : Model) :
  Models c !! p = Some m → getFlag fl m = true → setModelFlag fl c p = c.
Proof.
  intros Hm Hfl. destruct c as [ms ss lk]. unfold setModelFlag. cbn in *.
  f_equal. apply list_eq. intros i. destruct (decide (i = p)) as [->|Hne].
  - rewrite list_lookup_alter_eq, Hm. cbn. now rewrite setFlag_id.
  - now rewrite list_lookup_alter_ne.
Qed.

Lemma enableFlag_S (fl : flag) (fuel : nat) (c : APIContext) (p : nat)
  (model : Model) :
  Models c !! p = Some model →
  enableFlag fl (S fuel) c (Some p)
  = forM (fun ctx f =>
            if skipField f then Ok ctx
            else match modelLookup ctx !! baseType f with
                 | None => couldNotFind (baseType f) (FieldName f)
                 | Some mm => enableFlag fl fuel ctx (Some mm)
                 end)
         (Fields model) (setModelFlag fl c p).
Proof. intros Hm. cbn [enableFlag]. now rewrite Hm. Qed.

Lemma forM_skipped {S : Type} (body : S → ModelField → result S)
  (pre : list ModelField) (s : S) :
  Forall (fun f => body s f = Ok s) pre → forM body pre s = Ok s.
Proof.
  induction 1 as [|f pre Hf _ IH]; [reflexivity|].
  cbn [forM]. now rewrite Hf.
Qed.

Lemma forM_app {A S : Type} (body : S → A → result S) (xs ys : list A) (s : S) :
  forM body (xs ++ ys) s = (s' ← forM body xs s; forM body ys s').
Proof.
  revert s; induction xs as [|x xs IH]; intros s; [reflexivity|].
  cbn [app forM]. destruct (body s x); cbn; auto.
Qed.

(** A flagged model whose first field that is not skipped refers to the
    model itself: the recursion never ends. *)
Lemma enableFlag_self_loop (fl : flag) (c : APIContext) (p : nat)
  (model : Model) (pre rest : list ModelField) (f : ModelField) :
  Models c !! p = Some model →
  getFlag fl model = true →
  Fields model = pre ++ f :: rest →
  Forall (fun g => skipField g = true) pre →
  skipField f = false →
  modelLookup c !! baseType f = Some p →
  ∀ fuel, enableFlag fl fuel c (Some p) = OutOfFuel.
Proof.
  intros Hm Hfl Hfs Hpre Hskip Hl. induction fuel as [|n IH]; [reflexivity|].
  rewrite (enableFlag_S _ _ _ _ _ Hm), (setModelFlag_id _ _ _ _ Hm Hfl), Hfs.
  rewrite forM_app, forM_skipped.
  - cbn. now rewrite Hskip, Hl, IH.
  - eapply Forall_impl; [exact Hpre|]. cbn. now intros g ->.
Qed.

(** The same model, met by [ApplyMarshalFlags] as the first one. *)
Lemma ApplyMarshalFlags_self_loop (c : APIContext) (model : Model)
  (others : list Model) (pre rest : list ModelField) (f : ModelField) :
  Models c = model :: others →
  CanMarshal model = true →
  Fields model = pre ++ f :: rest →
  Forall (fun g => skipField g = true) pre →
  skipField f = false →
  modelLookup c !! baseType f = Some 0 →
  ∀ fuel, ApplyMarshalFlags fuel c = OutOfFuel.
Proof.
  intros Hms Hfl Hfs Hpre Hskip Hl fuel.
  assert (Hm : Models c !! 0 = Some model) by now rewrite Hms.
  assert (H0 : applyModel fuel c 0 = OutOfFuel).
  { unfold applyModel. rewrite Hm, Hfs, forM_app, forM_skipped.
    - cbn [forM mbind result_bind]. unfold applyField. rewrite Hskip.
      unfold flagAt. rewrite Hm. cbn [getFlag]. rewrite Hfl, Hl.
      unfold enableMarshal.
      now rewrite (enableFlag_self_loop Marshal c 0 model pre rest f).
    - eapply Forall_impl; [exact Hpre|]. cbn. unfold applyField.
      now intros g ->. }
  unfold ApplyMarshalFlags. rewrite Hms. cbn [length seq forM].
  now rewrite H0.
Qed.

(** No amount of fuel lets [enableMarshal] or [enableUnmarshal] return on
    a model from which the edges can be followed forever, as on every
    cycle of the message-reference graph. *)
Lemma enableFlag_cycle (fl : flag) (c0 : APIContext) (endless : nat → Prop) :
  (∀ x, endless x → ∃ y, endless y ∧ follows c0 x y) →
  ∀ fuel c p c',
    sameShape c0 c → endless p → enableFlag fl fuel c (Some p) ≠ Ok c'.
Proof.
  intros Hstep. induction fuel as [|n IH]; [discriminate|].
  intros c p c' HS Hp Hrun.
  destruct (Hstep p Hp) as (y & Hy & (m0 & f & Hm0 & Hf & Hskip & Hl0)).
  destruct (sameShape_model _ _ _ _ HS Hm0) as (model & Hm & He).
  rewrite (enableFlag_S _ _ _ _ _ Hm) in Hrun.
  rewrite <- (eraseFlags_Fields _ _ He) in Hf.
  assert (HS1 : sameShape c0 (setModelFlag fl c p))
    by (eapply sameShape_trans; [exact HS|apply sameShape_setModelFlag]).
  revert Hf Hrun HS1. generalize (setModelFlag fl c p) as ca.
  induction (Fields model) as [|g fs IHfs]; intros ca Hf Hrun HSa;
    [inversion Hf|].
  cbn [forM] in Hrun. apply bind_Ok_inv in Hrun as (cm & Hg & Hrun).
  assert (Hlook : modelLookup ca = modelLookup c0)
    by (destruct HSa as (_ & _ & ->); reflexivity).
  apply elem_of_cons in Hf as [<-|Hf].
  - rewrite Hskip, Hlook, Hl0 in Hg. now apply (IH ca y cm).
  - apply (IHfs cm Hf Hrun). destruct (skipField g).
    + now injection Hg as <-.
    + destruct (modelLookup ca !! baseType g) as [q|]; [|discriminate].
      eapply sameShape_trans; [exact HSa|].
      exact (proj1 (enableFlag_post fl _ _ _ _ Hg)).
Qed.

End Divergence.

Section Cycles.

Lemma forM_visits {A S : Type} (body : S → A → result S) (Inv : S → Prop)
  (xs : list A) :
  (∀ s x s', x ∈ xs → Inv s → body s x = Ok s' → Inv s') →
  ∀ s s' x, Inv s → forM body xs s = Ok s' → x ∈ xs →
            ∃ sk sk', Inv sk ∧ body sk x = Ok sk'.
Proof.
  induction xs as [|y ys IH]; intros Hpres s s' x Hs Hrun Hx;
    [inversion Hx|].
  cbn [forM] in Hrun. apply bind_Ok_inv in Hrun as (s1 & Hy & Hrun).
  apply elem_of_cons in Hx as [->|Hx]; [now exists s, s1|].
  apply (IH (fun s x s' Hin => Hpres s x s' (list_elem_of_further _ _ _ Hin))
           s1 s' x); try assumption.
  apply (Hpres s y s1); [constructor|assumption..].
Qed.

(** [ApplyMarshalFlags] does not return when a flagged model lies on a
    cycle, or on any path along which the edges can be followed forever. *)
Lemma ApplyMarshalFlags_cycle (fl : flag) (c0 : APIContext)
  (endless : nat → Prop) :
  (∀ x, endless x → ∃ y, endless y ∧ follows c0 x y) →
  ∀ i, endless i → flagAt fl c0 i = true →
       ∀ fuel c', ApplyMarshalFlags fuel c0 ≠ Ok c'.
Proof.
  intros Hstep i Hi Hfl fuel c' Hrun.
  destruct (Hstep i Hi) as (y & Hy & (m & f & Hm & Hf & Hskip & Hl)).
  assert (Hin : i ∈ seq 0 (length (Models c0))).
  { apply elem_of_seq. split; [lia|]. cbn. apply lookup_lt_is_Some. eauto. }
  destruct (forM_visits (applyModel fuel) (applyInv fl c0) _
              (fun s x s' _ Hs Hx => proj1 (applyModel_inv fl c0 fuel x s s' Hs Hx))
              c0 c' i (applyInv_start fl c0) Hrun Hin)
    as (ck & ck' & Hinv & Hvisit).
  unfold applyModel in Hvisit.
  destruct (sameShape_model _ _ _ _ (proj1 Hinv) Hm) as (mk & Hmk & He).
  rewrite Hmk in Hvisit. apply eraseFlags_Fields in He.
  assert (Hfk : f ∈ Fields mk) by now rewrite He.
  destruct (forM_visits (applyField fuel i) (applyInv fl c0) (Fields mk)
              (fun s x s' Hx Hs Hr =>
                 proj1 (applyField_inv fl c0 fuel i m x s s' Hs Hm
                          ltac:(now rewrite <- He) Hr))
              ck ck' f Hinv Hvisit Hfk)
    as (cj & cj' & Hinvj & Hfield).
  destruct (applyField_phases _ _ _ _ _ Hskip Hfield) as (c1 & Hph1 & Hph2).
  assert (Hown : ∀ c c'', applyInv fl c0 c → phase fl fuel i f c c'' → False).
  { intros c c'' (HS & HM & _) [(_ & q & Hq & Hcall)|(Hoff & _)].
    - assert (q = y) as ->
        by (destruct HS as (_ & _ & Hlk); rewrite <- Hlk in Hq; congruence).
      now apply (enableFlag_cycle fl c0 endless Hstep fuel c y c'').
    - apply HM in Hfl. congruence. }
  destruct fl.
  - now apply (Hown cj c1).
  - destruct (phase_other Unmarshal c0 Marshal _ _ _ _ _
                Unmarshal_ne_Marshal Hinvj Hph1) as (Hinv1 & _).
    now apply (Hown c1 cj').
Qed.

End Cycles.

Section Fuel.

(** More fuel does not change what a returning call returns. *)
Lemma enableFlag_more_fuel (fl : flag) :
  ∀ fuel c o c',
    enableFlag fl fuel c o = Ok c' → enableFlag fl (S fuel) c o = Ok c'.
Proof.
  induction fuel as [|n IH]; [discriminate|].
  intros c o c' Hrun. destruct o as [p|]; [|discriminate].
  destruct (Models c !! p) as [model|] eqn:Hm;
    [|cbn [enableFlag] in Hrun; rewrite Hm in Hrun; discriminate].
  rewrite (enableFlag_S fl n _ _ _ Hm) in Hrun.
  rewrite (enableFlag_S fl (S n) _ _ _ Hm).
  revert Hrun. generalize (setModelFlag fl c p) as ca.
  induction (Fields model) as [|f fs IHfs]; intros ca Hrun; [exact Hrun|].
  cbn [forM] in *. apply bind_Ok_inv in Hrun as (cm & Hf & Hrun).
  destruct (skipField f).
  - injection Hf as <-. cbn. now apply IHfs.
  - destruct (modelLookup ca !! baseType f) as [q|]; [|discriminate].
    rewrite (IH _ _ _ Hf). cbn. now apply IHfs.
Qed.

Lemma applyField_more_fuel (fuel p : nat) (f : ModelField)
  (c c' : APIContext) :
  applyField fuel p c f = Ok c' → applyField (S fuel) p c f = Ok c'.
Proof.
  unfold applyField. destruct (skipField f); [auto|]. intros H.
  apply bind_Ok_inv in H as (c1 & H1 & H2).
  assert (H1' : (if flagAt Marshal c p
                 then enableMarshal (S fuel) c (modelLookup c !! baseType f)
                 else Ok c) = Ok c1).
  { destruct (flagAt Marshal c p); [|exact H1].
    now apply enableFlag_more_fuel. }
  rewrite H1'. cbn [mbind result_bind].
  destruct (flagAt Unmarshal c1 p); [|exact H2].
  destruct (modelLookup c1 !! baseType f); [|discriminate].
  now apply enableFlag_more_fuel.
Qed.

Lemma applyModel_more_fuel (fuel p : nat) (c c' : APIContext) :
  applyModel fuel c p = Ok c' → applyModel (S fuel) c p = Ok c'.
Proof.
  unfold applyModel. destruct (Models c !! p) as [m|]; [|auto].
  revert c. induction (Fields m) as [|f fs IHfs]; intros c H; [exact H|].
  cbn [forM] in *. apply bind_Ok_inv in H as (c1 & Hf & H).
  rewrite (applyField_more_fuel _ _ _ _ _ Hf). cbn [mbind result_bind].
  now apply IHfs.
Qed.

Lemma ApplyMarshalFlags_more_fuel (fuel : nat) (c c' : APIContext) :
  ApplyMarshalFlags fuel c = Ok c' → ApplyMarshalFlags (S fuel) c = Ok c'.
Proof.
  unfold ApplyMarshalFlags. generalize (seq 0 (length (Models c))) as ps.
  intros ps. revert c. induction ps as [|p ps IH]; intros c H; [exact H|].
  cbn [forM] in *. apply bind_Ok_inv in H as (c1 & Hp & H).
  rewrite (applyModel_more_fuel _ _ _ _ Hp). cbn [mbind result_bind].
  now apply IH.
Qed.

(** The result of generation does not depend on the fuel, once there is
    enough of it. *)
Lemma clientContext_more_fuel (fuel extra : nat) (file : FileDescriptorProto)
  (ctx : APIContext) :
  clientContext fuel file = Ok ctx →
  clientContext (extra + fuel) file = Ok ctx.
Proof.
  intros H. induction extra as [|k IH]; [exact H|].
  unfold clientContext in *. destruct (seededContext file); try discriminate.
  cbn [mbind result_bind Nat.add] in *. now apply ApplyMarshalFlags_more_fuel.
Qed.

End Fuel.

(** ** Emitter *)

Section Emitter.

Lemma modelDecls_primitive (m : Model) :
  Primitive m = true → modelDecls m = [].
Proof. unfold modelDecls. now intros ->. Qed.

Lemma modelDecls_no_marshal (m : Model) :
  Primitive m = true ∨ CanMarshal m = false →
  Forall (fun decl => isMarshalFn decl = false) (modelDecls m).
Proof.
  intros [Hp|Hc]; [rewrite modelDecls_primitive by exact Hp; constructor|].
  unfold modelDecls, marshalDecls, unmarshalDecls. rewrite Hc.
  destruct (Primitive m), (Map m), (CanUnmarshal m); repeat constructor.
Qed.

Lemma modelDecls_no_unmarshal (m : Model) :
  Primitive m = true ∨ CanUnmarshal m = false →
  Forall (fun decl => isUnmarshalFn decl = false) (modelDecls m).
Proof.
  intros [Hp|Hc]; [rewrite modelDecls_primitive by exact Hp; constructor|].
  unfold modelDecls, marshalDecls, unmarshalDecls. rewrite Hc.
  destruct (Primitive m), (Map m), (CanMarshal m); repeat constructor.
Qed.

Lemma modelDecls_marshal (m : Model) :
  Primitive m = false → CanMarshal m = true →
  Exists (fun decl => isMarshalFn decl = true) (modelDecls m).
Proof.
  intros Hp Hc. unfold modelDecls, marshalDecls. rewrite Hp, Hc.
  destruct (Map m); cbn [app].
  - apply Exists_cons_tl, Exists_cons_hd. reflexivity.
  - apply Exists_cons_tl, Exists_cons_tl, Exists_cons_hd. reflexivity.
Qed.

Lemma modelDecls_unmarshal (m : Model) :
  Primitive m = false → CanUnmarshal m = true →
  Exists (fun decl => isUnmarshalFn decl = true) (modelDecls m).
Proof.
  intros Hp Hc. unfold modelDecls, marshalDecls, unmarshalDecls.
  rewrite Hp, Hc. apply Exists_app. right. apply Exists_app. right.
  apply Exists_app. right. destruct (Map m); constructor; reflexivity.
Qed.

End Emitter.

Section Scenarios.

(** The Greeter schema end to end: both messages get their interfaces,
    [HelloReq] alone is marshaled, [HelloResp] alone is unmarshaled, and
    [sayHello] posts to [/twirp/pkg.Greeter/SayHello]. *)
Example greeter_declarations :
  CreateClientAPI 5 greeterFile
  = Ok [PlainInterface "HelloReq" [mkMember "name" true "string"];
        WireInterface "HelloReqJSON" [mkMember "name" true "string"];
        ToJSONFn "HelloReqToJSON" "m" "HelloReq" "HelloReqJSON"
          [("name", "m.name")];
        PlainInterface "HelloResp" [mkMember "message" true "string"];
        WireInterface "HelloRespJSON" [mkMember "message" true "string"];
        JSONToFn "JSONToHelloResp" "m" "HelloRespJSON" "HelloResp"
          [("message", "m.message", "undefined")];
        ServiceInterface "Greeter"
          [mkClientMethod "sayHello" "helloReq" "HelloReq" "HelloResp"
             "SayHello" "HelloReqToJSON" "JSONToHelloResp"];
        ClientClass "GreeterClient" "/twirp/pkg.Greeter/"
          [mkClientMethod "sayHello" "helloReq" "HelloReq" "HelloResp"
             "SayHello" "HelloReqToJSON" "JSONToHelloResp"]].
Proof. vm_compute. reflexivity. Qed.

(** A map field: the entry type becomes a model with [MapDetails], and the
    field of the enclosing message is typed as an associative container. *)
Example tagged_message_models :
  (ctx ← walkMessages "pkg" [taggedMessage] NewAPIContext;
   Ok (map (fun m => (Name m, MapName <$> Map m,
                      map (fun f => (FieldType f, MapType f)) (Fields m)))
         (Models ctx)))
  = Ok [("Item", None, [("ItemTagsEntry[]", Some "Map<string,string>")]);
        ("ItemTagsEntry", Some "ItemTags",
         [("string", None); ("string", None)])].
Proof. vm_compute. reflexivity. Qed.

End Scenarios.

(** ** Propagation on acyclic schemas *)

Section Termination.

Variable c0 : APIContext.
Variable rank : nat → nat.
Hypothesis Hresolved : resolved c0.
Hypothesis Hbounded : lookupBounded c0.
Hypothesis Hranked : ranked c0 rank.

(** With fuel beyond its rank, the recursion returns on every model. *)
Lemma enableFlag_returns (fl : flag) :
  ∀ fuel c p,
    sameShape c0 c → p < length (Models c0) → rank p < fuel →
    ∃ c', enableFlag fl fuel c (Some p) = Ok c'.
Proof.
  induction fuel as [|n IH]; [intros; lia|].
  intros c p HS Hp Hr.
  destruct (lookup_lt_is_Some_2 _ _ Hp) as (m0 & Hm0).
  destruct (sameShape_model _ _ _ _ HS Hm0) as (model & Hm & He).
  rewrite (enableFlag_S _ _ _ _ _ Hm).
  assert (Hsub : ∀ f, f ∈ Fields model → f ∈ Fields m0)
    by (intros f; now rewrite (eraseFlags_Fields _ _ He)).
  assert (HS1 : sameShape c0 (setModelFlag fl c p))
    by (eapply sameShape_trans; [exact HS|apply sameShape_setModelFlag]).
  revert Hsub HS1. generalize (setModelFlag fl c p) as ca.
  induction (Fields model) as [|f fs IHfs]; intros ca Hsub HSa.
  - exists ca. reflexivity.
  - cbn [forM].
    assert (Hf : f ∈ Fields m0) by (apply Hsub; constructor).
    assert (Hstep : ∃ cm, (if skipField f then Ok ca
                           else match modelLookup ca !! baseType f with
                                | None => couldNotFind (baseType f) (FieldName f)
                                | Some mm => enableFlag fl n ca (Some mm)
                                end) = Ok cm ∧ sameShape c0 cm).
    { destruct (skipField f) eqn:Hskip; [now exists ca|].
      destruct (Hresolved p m0 f Hm0 Hf Hskip) as (q & Hq).
      assert (Hqa : modelLookup ca !! baseType f = Some q)
        by (destruct HSa as (_ & _ & <-); exact Hq).
      rewrite Hqa.
      assert (Hedge : follows c0 p q) by now exists m0, f.
      destruct (IH ca q HSa) as (cm & Hcm).
      - now apply (Hbounded (baseType f)).
      - apply Hranked in Hedge. lia.
      - exists cm. split; [exact Hcm|].
        eapply sameShape_trans; [exact HSa|].
        exact (proj1 (enableFlag_post fl _ _ _ _ Hcm)). }
    destruct Hstep as (cm & -> & HSm). cbn.
    apply IHfs; [|exact HSm]. intros g Hg. apply Hsub. now constructor.
Qed.

Variable fuel : nat.
Hypothesis Hfuel : ∀ p, p < length (Models c0) → rank p < fuel.

Lemma applyField_returns (p : nat) (m0 : Model) (f : ModelField)
  (c : APIContext) :
  sameShape c0 c → Models c0 !! p = Some m0 → f ∈ Fields m0 →
  ∃ c', applyField fuel p c f = Ok c' ∧ sameShape c0 c'.
Proof.
  intros HS Hm0 Hf. unfold applyField.
  destruct (skipField f) eqn:Hskip; [now exists c|].
  destruct (Hresolved p m0 f Hm0 Hf Hskip) as (q & Hq).
  assert (Hqb : q < length (Models c0)) by now apply (Hbounded (baseType f)).
  assert (Hqc : modelLookup c !! baseType f = Some q)
    by (destruct HS as (_ & _ & <-); exact Hq).
  assert (H1 : ∃ c1, (if flagAt Marshal c p
                      then enableMarshal fuel c (modelLookup c !! baseType f)
                      else Ok c) = Ok c1 ∧ sameShape c0 c1).
  { destruct (flagAt Marshal c p); [|now exists c]. rewrite Hqc.
    destruct (enableFlag_returns Marshal fuel c q HS Hqb (Hfuel q Hqb))
      as (c1 & Hc1).
    exists c1. split; [exact Hc1|]. eapply sameShape_trans; [exact HS|].
    exact (proj1 (enableFlag_post Marshal _ _ _ _ Hc1)). }
  destruct H1 as (c1 & -> & HS1). cbn.
  destruct (flagAt Unmarshal c1 p); [|now exists c1].
  assert (Hq1 : modelLookup c1 !! baseType f = Some q)
    by (destruct HS1 as (_ & _ & <-); exact Hq).
  rewrite Hq1.
  destruct (enableFlag_returns Unmarshal fuel c1 q HS1 Hqb (Hfuel q Hqb))
    as (c2 & Hc2).
  exists c2. split; [exact Hc2|]. eapply sameShape_trans; [exact HS1|].
  exact (proj1 (enableFlag_post Unmarshal _ _ _ _ Hc2)).
Qed.

Lemma applyModel_returns (p : nat) (c : APIContext) :
  sameShape c0 c →
  ∃ c', applyModel fuel c p = Ok c' ∧ sameShape c0 c'.
Proof.
  intros HS. unfold applyModel.
  destruct (Models c !! p) as [model|] eqn:Hm; [|now exists c].
  destruct (sameShape_model _ _ _ _ (sameShape_sym _ _ HS) Hm)
    as (m0 & Hm0 & He).
  assert (Hsub : ∀ f, f ∈ Fields model → f ∈ Fields m0)
    by (intros f; now rewrite (eraseFlags_Fields _ _ He)).
  clear Hm. revert c HS Hsub.
  induction (Fields model) as [|f fs IHfs]; intros c HS Hsub.
  - now exists c.
  - cbn [forM].
    destruct (applyField_returns p m0 f c HS Hm0) as (c1 & -> & HS1);
      [apply Hsub; constructor|].
    cbn. apply IHfs; [exact HS1|]. intros g Hg. apply Hsub. now constructor.
Qed.

(** [ApplyMarshalFlags] returns on a registry whose references resolve
    and do not form a cycle. *)
Lemma ApplyMarshalFlags_returns :
  ∃ c', ApplyMarshalFlags fuel c0 = Ok c'.
Proof.
  unfold ApplyMarshalFlags. generalize (seq 0 (length (Models c0))) as ps.
  assert (HS : sameShape c0 c0) by apply sameShape_refl.
  revert HS. generalize c0 at 2 3 as c.
  intros c HS ps. revert c HS.
  induction ps as [|p ps IH]; intros c HS; [now exists c|].
  cbn [forM]. destruct (applyModel_returns p c HS) as (c1 & -> & HS1).
  cbn. now apply IH.
Qed.

End Termination.

Section Generation.

Lemma buildServices_returns (pkg : string) (ss : list ServiceDescriptorProto) :
  Forall (fun s => Forall (validMethod pkg) (s_GetMethod s)) ss →
  ∀ c, ∃ c', buildServices pkg ss c = Ok c'.
Proof.
  induction 1 as [|s ss Hs _ IH]; intros c; [now exists c|].
  unfold buildServices. cbn [forM]. rewrite (newService_eq pkg s Hs). cbn.
  apply IH.
Qed.

Lemma seededContext_returns (file : FileDescriptorProto) :
  forallb wellFormed (d_GetMessageType file) = true →
  Forall (fun s => Forall (validMethod (d_GetPackage file)) (s_GetMethod s))
    (d_GetService file) →
  ∃ c0, seededContext file = Ok c0 ∧ lookupBounded c0.
Proof.
  intros Hwf Hsv. unfold seededContext.
  destruct (walkMessages_total (d_GetPackage file) _ NewAPIContext Hwf)
    as (cW & HW).
  destruct (buildServices_returns _ _ Hsv cW) as (cS & HS).
  rewrite HW. cbn. rewrite HS. cbn. eexists. split; [reflexivity|].
  apply AddModel_bounded.
  pose proof (walkMessages_bounded _ _ _ _ NewAPIContext_bounded HW) as Hb.
  destruct (buildServices_inv _ _ _ _ HS) as (HM & HL).
  intros k v. cbn. rewrite length_map, HM, HL. apply Hb.
Qed.

(** Generation returns, with enough fuel, on every well-formed schema
    whose message references resolve within the file and form no cycle. *)
Lemma generation_returns (file : FileDescriptorProto) (rank : nat → nat) :
  forallb wellFormed (d_GetMessageType file) = true →
  Forall (fun s => Forall (validMethod (d_GetPackage file)) (s_GetMethod s))
    (d_GetService file) →
  (∀ c0, seededContext file = Ok c0 → resolved c0 ∧ ranked c0 rank) →
  ∃ fuel ctx, clientContext fuel file = Ok ctx.
Proof.
  intros Hwf Hsv Hgraph.
  destruct (seededContext_returns file Hwf Hsv) as (c0 & Hc0 & Hb).
  destruct (Hgraph c0 Hc0) as (Hres & Hrk).
  set (fuel := S (max_list (rank <$> seq 0 (length (Models c0))))).
  destruct (ApplyMarshalFlags_returns c0 rank Hres Hb Hrk fuel) as (ctx & Hctx).
  { intros p Hp. subst fuel. apply Nat.lt_succ_r, max_list_elem_of_le.
    apply list_elem_of_fmap. exists p. split; [reflexivity|].
    apply elem_of_seq. lia. }
  exists fuel, ctx. unfold clientContext. now rewrite Hc0.
Qed.

End Generation.

(** ** Propagation: when it returns and when it does not *)

Section Stuck.

Variable fl : flag.
Variable c0 : APIContext.
Variable stuck : nat → Prop.
Hypothesis Hstuck :
  ∀ x, stuck x → (∃ y, stuck y ∧ follows c0 x y) ∨ dangling c0 x.

(** A stuck model has a field at which the loop of [enableMarshal]
    cannot get past. *)
Lemma stuck_field (x : nat) :
  stuck x →
  ∃ m f, Models c0 !! x = Some m ∧ f ∈ Fields m ∧ skipField f = false
         ∧ match modelLookup c0 !! baseType f with
           | Some y => stuck y
           | None => True
           end.
Proof.
  intros Hx. destruct (Hstuck x Hx)
    as [(y & Hy & (m & f & Hm & Hf & Hskip & Hl))|(m & f & Hm & Hf & Hskip & Hl)];
    exists m, f; rewrite Hl; auto.
Qed.

Lemma enableFlag_stuck :
  ∀ fuel c p c',
    sameShape c0 c → stuck p → enableFlag fl fuel c (Some p) ≠ Ok c'.
Proof.
  induction fuel as [|n IH]; [discriminate|].
  intros c p c' HS Hp Hrun.
  destruct (stuck_field p Hp) as (m0 & f & Hm0 & Hf & Hskip & Hl0).
  destruct (sameShape_model _ _ _ _ HS Hm0) as (model & Hm & He).
  rewrite (enableFlag_S _ _ _ _ _ Hm) in Hrun.
  rewrite <- (eraseFlags_Fields _ _ He) in Hf.
  assert (HS1 : sameShape c0 (setModelFlag fl c p))
    by (eapply sameShape_trans; [exact HS|apply sameShape_setModelFlag]).
  revert Hf Hrun HS1. generalize (setModelFlag fl c p) as ca.
  induction (Fields model) as [|g fs IHfs]; intros ca Hf Hrun HSa;
    [inversion Hf|].
  cbn [forM] in Hrun. apply bind_Ok_inv in Hrun as (cm & Hg & Hrun).
  assert (Hlook : modelLookup ca = modelLookup c0)
    by (destruct HSa as (_ & _ & ->); reflexivity).
  apply elem_of_cons in Hf as [<-|Hf].
  - rewrite Hskip, Hlook in Hg.
    destruct (modelLookup c0 !! baseType f) as [y|]; [|discriminate].
    now apply (IH ca y cm).
  - apply (IHfs cm Hf Hrun). destruct (skipField g).
    + now injection Hg as <-.
    + destruct (modelLookup ca !! baseType g) as [q|]; [|discriminate].
      eapply sameShape_trans; [exact HSa|].
      exact (proj1 (enableFlag_post fl _ _ _ _ Hg)).
Qed.

Lemma ApplyMarshalFlags_stuck (i : nat) :
  stuck i → flagAt fl c0 i = true →
  ∀ fuel c', ApplyMarshalFlags fuel c0 ≠ Ok c'.
Proof.
  intros Hi Hfl fuel c' Hrun.
  destruct (stuck_field i Hi) as (m & f & Hm & Hf & Hskip & Hl).
  assert (Hin : i ∈ seq 0 (length (Models c0))).
  { apply elem_of_seq. split; [lia|]. cbn. apply lookup_lt_is_Some. eauto. }
  destruct (forM_visits (applyModel fuel) (applyInv fl c0) _
              (fun s x s' _ Hs Hx => proj1 (applyModel_inv fl c0 fuel x s s' Hs Hx))
              c0 c' i (applyInv_start fl c0) Hrun Hin)
    as (ck & ck' & Hinv & Hvisit).
  unfold applyModel in Hvisit.
  destruct (sameShape_model _ _ _ _ (proj1 Hinv) Hm) as (mk & Hmk & He).
  rewrite Hmk in Hvisit. apply eraseFlags_Fields in He.
  assert (Hfk : f ∈ Fields mk) by now rewrite He.
  destruct (forM_visits (applyField fuel i) (applyInv fl c0) (Fields mk)
              (fun s x s' Hx Hs Hr =>
                 proj1 (applyField_inv fl c0 fuel i m x s s' Hs Hm
                          ltac:(now rewrite <- He) Hr))
              ck ck' f Hinv Hvisit Hfk)
    as (cj & cj' & Hinvj & Hfield).
  destruct (applyField_phases _ _ _ _ _ Hskip Hfield) as (c1 & Hph1 & Hph2).
  assert (Hown : ∀ c c'', applyInv fl c0 c → phase fl fuel i f c c'' → False).
  { intros c c'' (HS & HM & _) [(_ & q & Hq & Hcall)|(Hoff & _)].
    - destruct HS as (HS1 & HS2 & Hlk). rewrite Hlk, Hq in Hl.
      now apply (enableFlag_stuck fuel c q c'').
    - apply HM in Hfl. congruence. }
  destruct fl.
  - now apply (Hown cj c1).
  - destruct (phase_other Unmarshal c0 Marshal _ _ _ _ _
                Unmarshal_ne_Marshal Hinvj Hph1) as (Hinv1 & _).
    now apply (Hown c1 cj').
Qed.

End Stuck.

Section Live.

Variable c0 : APIContext.
Variable rank : nat → nat.
Hypothesis Hbounded : lookupBounded c0.
Hypothesis Hresolved : ∀ x, liveIn c0 x → ¬ dangling c0 x.
Hypothesis Hranked : ∀ x y, liveIn c0 x → follows c0 x y → rank y < rank x.

Lemma liveIn_step (x y : nat) : liveIn c0 x → follows c0 x y → liveIn c0 y.
Proof.
  intros (fl & j & Hj & Hr) Hxy. exists fl, j. split; [exact Hj|].
  now apply rtc_r with x.
Qed.

Lemma live_field_resolves (x : nat) (m : Model) (f : ModelField) :
  liveIn c0 x → Models c0 !! x = Some m → f ∈ Fields m →
  skipField f = false →
  ∃ q, modelLookup c0 !! baseType f = Some q ∧ liveIn c0 q
       ∧ q < length (Models c0) ∧ rank q < rank x.
Proof.
  intros Hx Hm Hf Hskip.
  destruct (modelLookup c0 !! baseType f) as [q|] eqn:Hl.
  - assert (Hedge : follows c0 x q) by now exists m, f.
    exists q. split; [reflexivity|]. split; [now apply (liveIn_step x)|].
    split; [now apply (Hbounded (baseType f))|now apply Hranked].
  - exfalso. apply (Hresolved x Hx). now exists m, f.
Qed.

Lemma enableFlag_returns_live (fl : flag) :
  ∀ fuel c p,
    sameShape c0 c → liveIn c0 p → p < length (Models c0) → rank p < fuel →
    ∃ c', enableFlag fl fuel c (Some p) = Ok c'.
Proof.
  induction fuel as [|n IH]; [intros; lia|].
  intros c p HS Hlive Hp Hr.
  destruct (lookup_lt_is_Some_2 _ _ Hp) as (m0 & Hm0).
  destruct (sameShape_model _ _ _ _ HS Hm0) as (model & Hm & He).
  rewrite (enableFlag_S _ _ _ _ _ Hm).
  assert (Hsub : ∀ f, f ∈ Fields model → f ∈ Fields m0)
    by (intros f; now rewrite (eraseFlags_Fields _ _ He)).
  assert (HS1 : sameShape c0 (setModelFlag fl c p))
    by (eapply sameShape_trans; [exact HS|apply sameShape_setModelFlag]).
  revert Hsub HS1. generalize (setModelFlag fl c p) as ca.
  induction (Fields model) as [|f fs IHfs]; intros ca Hsub HSa.
  - exists ca. reflexivity.
  - cbn [forM].
    assert (Hf : f ∈ Fields m0) by (apply Hsub; constructor).
    assert (Hstep : ∃ cm, (if skipField f then Ok ca
                           else match modelLookup ca !! baseType f with
                                | None => couldNotFind (baseType f) (FieldName f)
                                | Some mm => enableFlag fl n ca (Some mm)
                                end) = Ok cm ∧ sameShape c0 cm).
    { destruct (skipField f) eqn:Hskip; [now exists ca|].
      destruct (live_field_resolves p m0 f Hlive Hm0 Hf Hskip)
        as (q & Hq & Hql & Hqb & Hqr).
      assert (Hqa : modelLookup ca !! baseType f = Some q)
        by (destruct HSa as (_ & _ & <-); exact Hq).
      rewrite Hqa.
      destruct (IH ca q HSa Hql Hqb) as (cm & Hcm); [lia|].
      exists cm. split; [exact Hcm|].
      eapply sameShape_trans; [exact HSa|].
      exact (proj1 (enableFlag_post fl _ _ _ _ Hcm)). }
    destruct Hstep as (cm & -> & HSm). cbn [mbind result_bind].
    apply IHfs; [|exact HSm]. intros g Hg. apply Hsub. now constructor.
Qed.

Variable fuel : nat.
Hypothesis Hfuel : ∀ p, liveIn c0 p → rank p < fuel.

Lemma flagged_is_live (fl : flag) (c : APIContext) (p : nat) :
  applyInv fl c0 c → flagAt fl c p = true → liveIn c0 p.
Proof.
  intros (_ & _ & Hso & _) Hp. destruct (Hso p Hp) as (j & Hj & Hr).
  now exists fl, j.
Qed.

Lemma phase_returns_live (fl : flag) (p : nat) (m0 : Model) (f : ModelField)
  (c : APIContext) :
  applyInv fl c0 c → Models c0 !! p = Some m0 → f ∈ Fields m0 →
  skipField f = false →
  ∃ c', phase fl fuel p f c c'.
Proof.
  intros Hinv Hm0 Hf Hskip. destruct (flagAt fl c p) eqn:Hfl.
  - pose proof (flagged_is_live fl c p Hinv Hfl) as Hlive.
    destruct (live_field_resolves p m0 f Hlive Hm0 Hf Hskip)
      as (q & Hq & Hql & Hqb & Hqr).
    destruct (enableFlag_returns_live fl fuel c q (proj1 Hinv) Hql Hqb
                (Hfuel q Hql)) as (c' & Hc').
    exists c'. left. split; [exact Hfl|]. exists q. split; [|exact Hc'].
    destruct Hinv as ((_ & _ & <-) & _). exact Hq.
  - exists c. right. auto.
Qed.

Lemma phase_applyField (p : nat) (f : ModelField) (c c1 c' : APIContext) :
  skipField f = false →
  phase Marshal fuel p f c c1 → phase Unmarshal fuel p f c1 c' →
  applyField fuel p c f = Ok c'.
Proof.
  intros Hskip H1 H2. unfold applyField. rewrite Hskip.
  destruct H1 as [(Hfl & q & Hq & Hrun)|(Hfl & ->)]; rewrite Hfl.
  - rewrite Hq. unfold enableMarshal. rewrite Hrun. cbn [mbind result_bind].
    destruct H2 as [(Hfl2 & q2 & Hq2 & Hrun2)|(Hfl2 & ->)]; rewrite Hfl2;
      [now rewrite Hq2|reflexivity].
  - cbn [mbind result_bind].
    destruct H2 as [(Hfl2 & q2 & Hq2 & Hrun2)|(Hfl2 & ->)]; rewrite Hfl2;
      [now rewrite Hq2|reflexivity].
Qed.

Lemma applyField_returns_live (p : nat) (m0 : Model) (f : ModelField)
  (c : APIContext) :
  applyInv Marshal c0 c → applyInv Unmarshal c0 c →
  Models c0 !! p = Some m0 → f ∈ Fields m0 →
  ∃ c', applyField fuel p c f = Ok c'
        ∧ applyInv Marshal c0 c' ∧ applyInv Unmarshal c0 c'.
Proof.
  intros HM HU Hm0 Hf. destruct (skipField f) eqn:Hskip.
  - exists c. unfold applyField. now rewrite Hskip.
  - destruct (phase_returns_live Marshal p m0 f c HM Hm0 Hf Hskip)
      as (c1 & Hph1).
    destruct (phase_own Marshal c0 fuel p m0 f c c1 HM Hm0 Hf Hskip Hph1)
      as (HM1 & _).
    destruct (phase_other Unmarshal c0 Marshal fuel p f c c1
                Unmarshal_ne_Marshal HU Hph1) as (HU1 & _).
    destruct (phase_returns_live Unmarshal p m0 f c1 HU1 Hm0 Hf Hskip)
      as (c2 & Hph2).
    destruct (phase_own Unmarshal c0 fuel p m0 f c1 c2 HU1 Hm0 Hf Hskip Hph2)
      as (HU2 & _).
    destruct (phase_other Marshal c0 Unmarshal fuel p f c1 c2
                Marshal_ne_Unmarshal HM1 Hph2) as (HM2 & _).
    exists c2. split; [|split; assumption].
    now apply (phase_applyField p f c c1 c2).
Qed.

Lemma applyModel_returns_live (p : nat) (c : APIContext) :
  applyInv Marshal c0 c → applyInv Unmarshal c0 c →
  ∃ c', applyModel fuel c p = Ok c'
        ∧ applyInv Marshal c0 c' ∧ applyInv Unmarshal c0 c'.
Proof.
  intros HM HU. unfold applyModel.
  destruct (Models c !! p) as [model|] eqn:Hm; [|now exists c].
  destruct (sameShape_model _ _ _ _ (sameShape_sym _ _ (proj1 HM)) Hm)
    as (m0 & Hm0 & He).
  assert (Hsub : ∀ f, f ∈ Fields model → f ∈ Fields m0)
    by (intros f; now rewrite (eraseFlags_Fields _ _ He)).
  clear Hm. revert c HM HU Hsub.
  induction (Fields model) as [|f fs IHfs]; intros c HM HU Hsub.
  - now exists c.
  - cbn [forM].
    destruct (applyField_returns_live p m0 f c HM HU Hm0)
      as (c1 & -> & HM1 & HU1); [apply Hsub; constructor|].
    cbn [mbind result_bind]. apply IHfs; try assumption.
    intros g Hg. apply Hsub. now constructor.
Qed.

Lemma ApplyMarshalFlags_returns_live :
  ∃ c', ApplyMarshalFlags fuel c0 = Ok c'.
Proof.
  unfold ApplyMarshalFlags. generalize (seq 0 (length (Models c0))) as ps.
  pose proof (applyInv_start Marshal c0) as HM.
  pose proof (applyInv_start Unmarshal c0) as HU.
  revert HM HU. generalize c0 at 2 4 5 as c.
  intros c HM HU ps. revert c HM HU.
  induction ps as [|p ps IH]; intros c HM HU; [now exists c|].
  cbn [forM].
  destruct (applyModel_returns_live p c HM HU) as (c1 & -> & HM1 & HU1).
  cbn [mbind result_bind]. now apply IH.
Qed.

End Live.

Section Idempotence.

Lemma model_ext (a b : Model) :
  eraseFlags a = eraseFlags b →
  CanMarshal a = CanMarshal b → CanUnmarshal a = CanUnmarshal b → a = b.
Proof.
  destruct a, b. cbn. intros [= -> -> -> ->] -> ->. reflexivity.
Qed.

Lemma flagAt_getFlag (fl : flag) (c : APIContext) (i : nat) (m : Model) :
  Models c !! i = Some m → flagAt fl c i = getFlag fl m.
Proof. unfold flagAt. now intros ->. Qed.

(** After a returning run the flagged models are closed under the edges:
    a second run finds nothing to add. *)
Lemma ApplyMarshalFlags_fixpoint (fuel fuel' : nat) (c c' c'' : APIContext) :
  ApplyMarshalFlags fuel c = Ok c' →
  ApplyMarshalFlags fuel' c' = Ok c'' →
  c'' = c'.
Proof.
  intros H1 H2.
  assert (Hflags : ∀ fl i, flagAt fl c'' i = flagAt fl c' i).
  { intros fl i.
    destruct (ApplyMarshalFlags_closure fl _ _ _ H1) as (HS1 & Hc1).
    destruct (ApplyMarshalFlags_closure fl _ _ _ H2) as (HS2 & Hc2).
    apply eq_true_iff_eq. rewrite Hc2. split.
    - intros (j & Hj & Hr). apply Hc1 in Hj as (j0 & Hj0 & Hr0).
      apply Hc1. exists j0. split; [exact Hj0|].
      eapply rtc_trans; [exact Hr0|].
      apply (rtc_follows_shape c' c); [now apply sameShape_sym|exact Hr].
    - intros Hi. exists i. split; [exact Hi|apply rtc_refl]. }
  destruct (ApplyMarshalFlags_closure Marshal _ _ _ H2) as (HS & _).
  assert (HM : Models c'' = Models c').
  { apply list_eq. intros i.
    destruct (Models c' !! i) as [m'|] eqn:Hm'.
    - destruct (sameShape_model _ _ _ _ HS Hm') as (m'' & Hm'' & He).
      rewrite Hm''. f_equal. apply model_ext; [exact He| |].
      + change (getFlag Marshal m'' = getFlag Marshal m').
        rewrite <- (flagAt_getFlag Marshal c'' i m'' Hm'').
        rewrite <- (flagAt_getFlag Marshal c' i m' Hm'). apply Hflags.
      + change (getFlag Unmarshal m'' = getFlag Unmarshal m').
        rewrite <- (flagAt_getFlag Unmarshal c'' i m'' Hm'').
        rewrite <- (flagAt_getFlag Unmarshal c' i m' Hm'). apply Hflags.
    - apply lookup_ge_None. rewrite <- (sameShape_length _ _ HS).
      now apply lookup_ge_None. }
  destruct HS as (_ & HSv & HL). destruct c', c''. cbn in *. congruence.
Qed.

End Idempotence.

Section Obstacles.

Lemma ApplyMarshalFlags_dangling (fl : flag) (c : APIContext) (i k : nat) :
  flagAt fl c i = true → rtc (follows c) i k → dangling c k →
  ∀ fuel c', ApplyMarshalFlags fuel c ≠ Ok c'.
Proof.
  intros Hfl Hr Hk.
  apply (ApplyMarshalFlags_stuck fl c (fun x => rtc (follows c) x k)) with i;
    [|exact Hr|exact Hfl].
  intros x Hx. apply rtc_inv in Hx as [->|(y & Hxy & Hy)]; [now right|].
  left. now exists y.
Qed.

Lemma ApplyMarshalFlags_on_cycle (fl : flag) (c : APIContext) (i k : nat) :
  flagAt fl c i = true → rtc (follows c) i k → tc (follows c) k k →
  ∀ fuel c', ApplyMarshalFlags fuel c ≠ Ok c'.
Proof.
  intros Hfl Hr Hk.
  apply (ApplyMarshalFlags_cycle fl c (fun x => rtc (follows c) x k)) with i;
    [|exact Hr|exact Hfl].
  intros x Hx. apply rtc_inv in Hx as [->|(y & Hxy & Hy)].
  - inversion Hk as [? ? Hkk|? y ? Hky Hyk]; subst.
    + exists k. split; [apply rtc_refl|exact Hkk].
    + exists y. split; [now apply tc_rtc|exact Hky].
  - now exists y.
Qed.

End Obstacles.

Section SeededRegistry.

Lemma seededContext_bounded (file : FileDescriptorProto) (c : APIContext) :
  seededContext file = Ok c → lookupBounded c.
Proof.
  unfold seededContext. intros H.
  apply bind_Ok_inv in H as (cW & HW & H).
  apply bind_Ok_inv in H as (cS & HS & H). injection H as <-.
  apply AddModel_bounded.
  pose proof (walkMessages_bounded _ _ _ _ NewAPIContext_bounded HW) as Hb.
  destruct (buildServices_inv _ _ _ _ HS) as (HM & HL).
  intros k v. cbn. rewrite length_map, HM, HL. apply Hb.
Qed.

End SeededRegistry.

(** Case analysis on a field of a model of a registry that is written out. *)
Ltac each_field Hm Hf :=
  vm_compute in Hm; try discriminate Hm; injection Hm as <-;
  repeat (apply elem_of_cons in Hf as [->|Hf]);
  try (inversion Hf; fail).

(** ** More on strings *)

Section StringFacts2.

Lemma length_append (a b : string) :
  String.length (a +:+ b) = String.length a + String.length b.
Proof. induction a as [|c a IH]; cbn; [reflexivity|]. now rewrite IH. Qed.

Lemma HasPrefix_app (p s : string) : strings.HasPrefix (p +:+ s) p = true.
Proof.
  induction p as [|c p IH]; cbn; [now destruct s|].
  now rewrite Ascii.eqb_refl, IH.
Qed.

Lemma dropBytes_app (p s : string) :
  strings.dropBytes (String.length p) (p +:+ s) = s.
Proof. induction p as [|c p IH]; cbn; [reflexivity|exact IH]. Qed.

Lemma takeBytes_app (p s : string) :
  strings.takeBytes (String.length p) (p +:+ s) = p.
Proof. induction p as [|c p IH]; cbn; [reflexivity|]. now rewrite IH. Qed.

Lemma TrimPrefix_app (p s : string) : strings.TrimPrefix (p +:+ s) p = s.
Proof. unfold strings.TrimPrefix. now rewrite HasPrefix_app, dropBytes_app. Qed.

Lemma TrimSuffix_app (s suf : string) : strings.TrimSuffix (s +:+ suf) suf = s.
Proof.
  unfold strings.TrimSuffix, strings.HasSuffix. rewrite length_append.
  replace (String.length s + String.length suf - String.length suf)
    with (String.length s) by lia.
  rewrite dropBytes_app, takeBytes_app, String.eqb_refl.
  replace (String.length suf <=? String.length s + String.length suf)%nat
    with true by (symmetry; apply Nat.leb_le; lia).
  reflexivity.
Qed.

Lemma takeBytes_dropBytes (n : nat) (s : string) :
  strings.takeBytes n s +:+ strings.dropBytes n s = s.
Proof.
  revert s; induction n as [|n IH]; intros [|c s]; cbn; try reflexivity.
  now rewrite IH.
Qed.

Lemma HasSuffix_split (s suf : string) :
  strings.HasSuffix s suf = true → ∃ base, s = base +:+ suf.
Proof.
  unfold strings.HasSuffix. intros H. apply andb_prop in H as [_ H].
  apply String.eqb_eq in H.
  exists (strings.takeBytes (String.length s - String.length suf) s).
  pose proof (takeBytes_dropBytes (String.length s - String.length suf) s)
    as Hs.
  rewrite H in Hs. now symmetry.
Qed.

Lemma TrimSuffix_without (s suf : string) :
  (∀ base, s ≠ base +:+ suf) → strings.TrimSuffix s suf = s.
Proof.
  intros Hno. unfold strings.TrimSuffix.
  destruct (strings.HasSuffix s suf) eqn:H; [|reflexivity].
  destruct (HasSuffix_split s suf H) as (base & Hb). now destruct (Hno base).
Qed.

Lemma TrimRight_app_brackets (s : string) :
  strings.TrimRight (s +:+ "[]") "[]" = strings.TrimRight s "[]".
Proof.
  induction s as [|c s IH]; [reflexivity|].
  cbn [String.append strings.TrimRight]. now rewrite IH.
Qed.

Lemma TrimLeft_app_brackets (s : string) :
  strings.TrimLeft (s +:+ "[]") "[]"
  = match strings.TrimLeft s "[]" with
    | EmptyString => EmptyString
    | t => t +:+ "[]"
    end.
Proof.
  induction s as [|c s IH]; [reflexivity|].
  cbn [String.append strings.TrimLeft].
  destruct (strings.inCutset c "[]"); [exact IH|reflexivity].
Qed.

(** Trimming brackets undoes the sequence marker that [protoToTSType]
    appends. *)
Lemma Trim_app_brackets (s : string) :
  strings.Trim (s +:+ "[]") "[]" = strings.Trim s "[]".
Proof.
  unfold strings.Trim. rewrite TrimLeft_app_brackets.
  destruct (strings.TrimLeft s "[]") as [|c t] eqn:E; [reflexivity|].
  apply TrimRight_app_brackets.
Qed.

Lemma removeAll_leading_dots (ns : list string) :
  strings.removeAll "." (strings.Join (map (fun n => "." +:+ n) ns))
  = strings.Join (map (strings.removeAll ".") ns).
Proof.
  induction ns as [|n ns IH]; [reflexivity|].
  cbn [map strings.Join]. rewrite removeAll_app, removeAll_app, IH.
  reflexivity.
Qed.

Lemma Split_without_sep (s : string) (sep : ascii) :
  strings.inCutset sep s = false → strings.Split s sep = [s].
Proof.
  induction s as [|c s IH]; [reflexivity|]. cbn.
  rewrite Ascii.eqb_sym. destruct (Ascii.eqb c sep); [discriminate|].
  cbn. intros H. now rewrite (IH H).
Qed.

Lemma last_Split_app (q n : string) :
  strings.inCutset "." n = false →
  List.last (strings.Split (q +:+ "." +:+ n) ".") "" = n.
Proof.
  intros Hn. change (q +:+ "." +:+ n) with (q +:+ String "." n).
  rewrite Split_app_sep, (Split_without_sep n "." Hn).
  apply List.last_last.
Qed.

End StringFacts2.

Section TypeNames.

Lemma sequence_type_not_Date (t : string) : t +:+ "[]" ≠ "Date".
Proof.
  destruct t as [|c1 [|c2 [|c3 [|c4 [|c5 t]]]]]; cbn; discriminate.
Qed.

Lemma removePkg_qualified (pkg first : string) (others : list string) :
  removePkg (qualifiedName pkg (first :: others)) pkg
  = strings.Join (map (strings.removeAll ".") (first :: others)).
Proof.
  unfold removePkg, qualifiedName. cbn [map strings.Join].
  replace ("." +:+ pkg +:+ ("." +:+ first)
           +:+ strings.Join (map (fun n => "." +:+ n) others))
    with (("." +:+ pkg +:+ ".")
          +:+ first +:+ strings.Join (map (fun n => "." +:+ n) others)).
  - rewrite TrimPrefix_app, removeAll_app, removeAll_leading_dots.
    reflexivity.
  - cbn [String.append]. f_equal. now rewrite !append_assoc.
Qed.

Lemma removePkg_flatName (pkg : string) (enclosing : list string)
  (own : string) :
  strings.removeAll "." own = own →
  removePkg (qualifiedName pkg (enclosing ++ [own])) pkg
  = flatName enclosing own.
Proof.
  intros Hown.
  assert (H1 : removePkg (qualifiedName pkg (enclosing ++ [own])) pkg
               = strings.Join (map (strings.removeAll ".")
                                 (enclosing ++ [own])))
    by (destruct enclosing; apply removePkg_qualified).
  rewrite H1. unfold flatName.
  rewrite map_app, Join_app. cbn [map strings.Join].
  now rewrite Hown, append_nil_r.
Qed.

Lemma Entry_not_Timestamp (z : string) :
  z +:+ "Entry" ≠ ".google.protobuf.Timestamp".
Proof.
  intros H. pose proof H as H'.
  apply (f_equal (fun s => strings.TrimSuffix s "Entry")) in H'.
  rewrite TrimSuffix_app in H'. vm_compute in H'. subst z.
  discriminate H.
Qed.

Lemma qualifiedName_last (pkg : string) (enclosing : list string)
  (own : string) :
  qualifiedName pkg (enclosing ++ [own])
  = ("." +:+ pkg
     +:+ strings.Join (map (fun n => "." +:+ n) enclosing) +:+ ".")
    +:+ own.
Proof.
  unfold qualifiedName. rewrite map_app, Join_app. cbn [map strings.Join].
  rewrite append_nil_r. cbn [String.append]. f_equal.
  now rewrite !append_assoc.
Qed.

End TypeNames.

(** ** The registry and its name table *)

Section Registry.

Lemma AddModel_consistent (c : APIContext) (m : Model) :
  lookupConsistent c → lookupConsistent (AddModel c m).
Proof.
  intros Hc k v Hl. cbn in Hl.
  apply lookup_insert_Some in Hl as [(<- & <-)|(Hne & Hl)].
  - exists m. split; [|reflexivity]. cbn. now apply list_lookup_middle.
  - destruct (Hc k v Hl) as (m0 & Hm0 & Hn). exists m0.
    split; [|exact Hn]. cbn. rewrite lookup_app_l; [exact Hm0|].
    now apply lookup_lt_Some in Hm0.
Qed.

Lemma AddModel_complete (c : APIContext) (m : Model) :
  lookupComplete c → lookupComplete (AddModel c m).
Proof.
  intros Hc i mi Hmi. cbn in Hmi. cbn [modelLookup AddModel].
  destruct (decide (Name m = Name mi)) as [He|Hne].
  - exists (length (Models c)). rewrite He, lookup_insert_eq.
    split; [reflexivity|]. apply lookup_lt_Some in Hmi.
    rewrite length_app in Hmi. cbn in Hmi. lia.
  - rewrite lookup_insert_ne by exact Hne.
    destruct (decide (i < length (Models c))) as [Hlt|Hge].
    + rewrite lookup_app_l in Hmi by exact Hlt. now apply Hc.
    + rewrite lookup_app_r in Hmi by lia.
      destruct (i - length (Models c)) as [|n]; [|discriminate].
      cbn in Hmi. congruence.
Qed.

(** The walker touches the registry through [AddModel] only (and through
    [model.Map], which is part of the model it adds). *)
Lemma addMessageType_preserves (P : APIContext → Prop) :
  (∀ c m, P c → P (AddModel c m)) →
  ∀ m prefix pkg c c',
    P c → addMessageType m prefix pkg c = Ok c' → P c'.
Proof.
  intros HP m.
  induction m as [name fields nested mapEntry IH]
    using DescriptorProto_nested_ind.
  intros prefix pkg c c' Hc. rewrite addMessageType_step.
  destruct (negb _); [discriminate|].
  destruct (_ && negb _); [discriminate|].
  cbn [m_GetNestedType].
  match goal with
  | |- walkNested ?pre _ _ ?c1 = _ → _ =>
      generalize pre; intros prefix';
      assert (Hc1 : P c1) by (apply (HP c (modelOf _ prefix pkg)); exact Hc);
      generalize dependent c1
  end.
  clear Hc. induction nested as [|n ns IHns]; intros c1 Hc1 Hw.
  - injection Hw as <-. exact Hc1.
  - unfold walkNested in Hw. cbn [forM] in Hw.
    apply bind_Ok_inv in Hw as (c2 & Hn & Hw).
    inversion IH as [|? ? Hhead Htail]; subst.
    apply (IHns Htail c2); [|exact Hw]. now apply (Hhead prefix' pkg c1).
Qed.

Lemma walkMessages_preserves (P : APIContext → Prop) :
  (∀ c m, P c → P (AddModel c m)) →
  ∀ pkg ms c c', P c → walkMessages pkg ms c = Ok c' → P c'.
Proof.
  intros HP pkg ms. induction ms as [|m ms IH]; intros c c' Hc Hw.
  - injection Hw as <-. exact Hc.
  - unfold walkMessages in Hw. cbn [forM] in Hw.
    apply bind_Ok_inv in Hw as (c1 & Hm & Hw).
    apply (IH c1); [|exact Hw].
    now apply (addMessageType_preserves P HP m "" pkg c).
Qed.

(** Both properties of the name table depend on the names of the models
    only. *)
Lemma lookup_invariants_names (c c' : APIContext) :
  Name <$> Models c = Name <$> Models c' →
  modelLookup c = modelLookup c' →
  lookupConsistent c ∧ lookupComplete c →
  lookupConsistent c' ∧ lookupComplete c'.
Proof.
  intros Hn Hl (Hc & Hk).
  assert (Hname : ∀ a b i m, Name <$> Models a = Name <$> Models b →
                             Models a !! i = Some m →
                             ∃ m', Models b !! i = Some m' ∧ Name m' = Name m).
  { intros a b i m Hab Hm.
    assert (Hi : (Name <$> Models b) !! i = Some (Name m))
      by (rewrite <- Hab, list_lookup_fmap, Hm; reflexivity).
    rewrite list_lookup_fmap in Hi.
    destruct (Models b !! i) as [m'|]; [|discriminate].
    exists m'. split; [reflexivity|]. cbn in Hi. congruence. }
  split.
  - intros k v Hkv. rewrite <- Hl in Hkv.
    destruct (Hc k v Hkv) as (m & Hm & Hmn).
    destruct (Hname c c' v m Hn Hm) as (m' & Hm' & Hn').
    exists m'. split; [exact Hm'|congruence].
  - intros i m' Hm'.
    destruct (Hname c' c i m' (eq_sym Hn) Hm') as (m & Hm & Hmn).
    destruct (Hk i m Hm) as (v & Hv & Hle). exists v.
    rewrite <- Hl, <- Hmn. auto.
Qed.

Lemma sameShape_names (c c' : APIContext) :
  sameShape c c' → Name <$> Models c = Name <$> Models c'.
Proof.
  intros (H & _).
  assert (He : ∀ l : list Model, Name <$> l = Name <$> (eraseFlags <$> l)).
  { intros l. rewrite <- list_fmap_compose. reflexivity. }
  now rewrite (He (Models c)), (He (Models c')), H.
Qed.

Lemma seedFlags_erase (c : APIContext) :
  eraseFlags <$> Models (seedFlags c) = eraseFlags <$> Models c.
Proof.
  cbn. change (map ?f ?l) with (f <$> l). rewrite <- list_fmap_compose.
  apply list_fmap_ext. intros i m _. cbn.
  exact (proj1 (seedModel_spec (Services c) m)).
Qed.

(** The stages of [CreateClientAPI], with what each leaves behind. *)
Lemma clientContext_stages (fuel : nat) (file : FileDescriptorProto)
  (ctx : APIContext) :
  clientContext fuel file = Ok ctx →
  ∃ ctxW ctxS,
    walkMessages (d_GetPackage file) (d_GetMessageType file) NewAPIContext
    = Ok ctxW
    ∧ buildServices (d_GetPackage file) (d_GetService file) ctxW = Ok ctxS
    ∧ Models ctxS = Models ctxW
    ∧ modelLookup ctxS = modelLookup ctxW
    ∧ ApplyMarshalFlags fuel (AddModel (seedFlags ctxS) dateModel) = Ok ctx
    ∧ eraseFlags <$> Models ctx
      = (eraseFlags <$> Models ctxW) ++ [dateModel]
    ∧ modelLookup ctx
      = <["Date" := length (Models ctxW)]> (modelLookup ctxW).
Proof.
  unfold clientContext, seededContext. intros H.
  apply bind_Ok_inv in H as (c0 & H0 & H).
  apply bind_Ok_inv in H0 as (ctxW & HW & H0).
  apply bind_Ok_inv in H0 as (ctxS & HS & H0). injection H0 as <-.
  destruct (buildServices_inv _ _ _ _ HS) as (HM & HL).
  exists ctxW, ctxS. repeat split; try assumption.
  - destruct (ApplyMarshalFlags_closure Marshal _ _ _ H) as ((He & _) & _).
    rewrite <- He. cbn [Models AddModel]. rewrite fmap_app.
    rewrite (seedFlags_erase ctxS), HM. reflexivity.
  - destruct (ApplyMarshalFlags_closure Marshal _ _ _ H) as ((_ & _ & <-) & _).
    cbn. now rewrite length_map, HM, HL.
Qed.

Lemma NewAPIContext_lookup_invariants :
  lookupConsistent NewAPIContext ∧ lookupComplete NewAPIContext.
Proof.
  split.
  - intros k v Hl. cbn in Hl. now rewrite lookup_empty in Hl.
  - intros i m Hm. discriminate.
Qed.

Lemma clientContext_lookup_invariants (fuel : nat)
  (file : FileDescriptorProto) (ctx : APIContext) :
  clientContext fuel file = Ok ctx →
  lookupConsistent ctx ∧ lookupComplete ctx.
Proof.
  intros H. unfold clientContext, seededContext in H.
  apply bind_Ok_inv in H as (c0 & H0 & H).
  apply bind_Ok_inv in H0 as (ctxW & HW & H0).
  apply bind_Ok_inv in H0 as (ctxS & HS & H0). injection H0 as <-.
  destruct (buildServices_inv _ _ _ _ HS) as (HM & HL).
  assert (HQ : lookupConsistent ctxW ∧ lookupComplete ctxW).
  { apply (walkMessages_preserves
             (fun c => lookupConsistent c ∧ lookupComplete c)) with
      (d_GetPackage file) (d_GetMessageType file) NewAPIContext;
      [|apply NewAPIContext_lookup_invariants|exact HW].
    intros c m (Hc & Hk).
    split; [now apply AddModel_consistent|now apply AddModel_complete]. }
  assert (HQS : lookupConsistent (seedFlags ctxS)
                ∧ lookupComplete (seedFlags ctxS)).
  { apply (lookup_invariants_names ctxW); [| |exact HQ].
    - rewrite <- HM.
      assert (He : ∀ l : list Model,
                 Name <$> l = Name <$> (eraseFlags <$> l))
        by (intros l; rewrite <- list_fmap_compose; reflexivity).
      now rewrite (He (Models ctxS)), (He (Models (seedFlags ctxS))),
        seedFlags_erase.
    - cbn. now rewrite HL. }
  destruct HQS as (Hc & Hk).
  apply (lookup_invariants_names (AddModel (seedFlags ctxS) dateModel)).
  - apply sameShape_names.
    exact (proj1 (ApplyMarshalFlags_closure Marshal _ _ _ H)).
  - exact (proj2 (proj2 (proj1 (ApplyMarshalFlags_closure Marshal _ _ _ H)))).
  - split; [now apply AddModel_consistent|now apply AddModel_complete].
Qed.

End Registry.

(** ** Declarations of the template, by kind *)

Section Declarations.

Lemma wireNames_app (ds ds' : list Decl) :
  wireNames (ds ++ ds') = wireNames ds ++ wireNames ds'.
Proof. apply flat_map_app. Qed.

Lemma wireNames_modelDecls (m : Model) :
  wireNames (modelDecls m)
  = if Primitive m then [] else [Name m +:+ "JSON"].
Proof.
  unfold modelDecls, marshalDecls, unmarshalDecls.
  destruct (Primitive m); [reflexivity|].
  rewrite !wireNames_app.
  destruct (Map m), (CanMarshal m), (CanUnmarshal m); reflexivity.
Qed.

Lemma wireNames_models (ms : list Model) :
  wireNames (concat (map modelDecls ms))
  = flat_map (fun m => if Primitive m then [] else [Name m +:+ "JSON"])
      (eraseFlags <$> ms).
Proof.
  induction ms as [|m ms IH]; [reflexivity|].
  cbn [map concat fmap list_fmap flat_map].
  rewrite wireNames_app, wireNames_modelDecls. f_equal. exact IH.
Qed.

Lemma wireNames_services (ss : list Service) :
  wireNames (concat (map serviceDecls ss)) = [].
Proof. induction ss as [|s ss IH]; [reflexivity|exact IH]. Qed.

Lemma wireNames_fresh (ms : list Model) :
  Forall freshModel ms →
  flat_map (fun m => if Primitive m then [] else [Name m +:+ "JSON"])
    (eraseFlags <$> ms)
  = map (fun n => n +:+ "JSON") (map Name ms).
Proof.
  induction 1 as [|m ms (Hp & _) _ IH]; [reflexivity|].
  cbn [fmap list_fmap flat_map map eraseFlags Primitive Name].
  rewrite Hp. cbn [app]. f_equal. exact IH.
Qed.

Lemma newMethod_sliceable (pkg : string) (m : MethodDescriptorProto) :
  newMethod pkg m
  = if sliceable pkg m then Ok (methodOf pkg m) else Panic SliceOutOfRange.
Proof.
  unfold newMethod, sliceable, methodOf.
  destruct (md_GetName m) as [|c n]; [reflexivity|].
  destruct (removePkg (md_GetInputType m) pkg) as [|d i]; reflexivity.
Qed.

Lemma methodLoop_sliceable (pkg : string) (ms : list MethodDescriptorProto) :
  ∀ acc,
    forM (fun ms m => method ← newMethod pkg m; Ok (ms ++ [method])) ms acc
    = if forallb (sliceable pkg) ms
      then Ok (acc ++ map (methodOf pkg) ms)
      else Panic SliceOutOfRange.
Proof.
  induction ms as [|m ms IH]; intros acc.
  - cbn. now rewrite app_nil_r.
  - cbn [forM map forallb]. rewrite newMethod_sliceable.
    destruct (sliceable pkg m); cbn; [|reflexivity].
    rewrite IH. now rewrite <- app_assoc.
Qed.

End Declarations.

(** ** Map fields and their entries *)

Section MapFields.

Variables (entry : DescriptorProto) (pkg : string).

Lemma FieldType_fieldOf (e : FieldDescriptorProto) :
  isRepeated e = false →
  FieldType (fieldOf entry pkg e) = fst (types e pkg).
Proof.
  intros Hr. cbn. unfold protoToTSType. destruct (types e pkg).
  now rewrite Hr.
Qed.

Lemma mapKeyVal_fields (fs : list FieldDescriptorProto) :
  ∀ (kv : string * string) (ko vo : option ModelField),
    (∀ k, ko = Some k → IsRepeated k = false → FieldType k = fst kv) →
    (∀ v, vo = Some v → IsRepeated v = false → FieldType v = snd kv) →
    let kv' :=
      fold_left
        (fun kv e =>
           let keyType :=
             if String.eqb (f_GetName e) "key" then fst (types e pkg)
             else fst kv in
           let valType :=
             if String.eqb (f_GetName e) "value" then fst (types e pkg)
             else snd kv in
           (keyType, valType))
        fs kv in
    (∀ k, lastField entry pkg "key" fs ko = Some k →
          IsRepeated k = false → FieldType k = fst kv')
    ∧ (∀ v, lastField entry pkg "value" fs vo = Some v →
            IsRepeated v = false → FieldType v = snd kv').
Proof.
  induction fs as [|e fs IH]; intros kv ko vo Hk Hv; [now split|].
  cbn [fold_left]. unfold lastField. cbn [fold_left].
  apply IH.
  - destruct (String.eqb (f_GetName e) "key"); [|exact Hk].
    intros k [= <-] Hr. cbn [fst]. now apply FieldType_fieldOf.
  - destruct (String.eqb (f_GetName e) "value"); [|exact Hv].
    intros v [= <-] Hr. cbn [snd]. now apply FieldType_fieldOf.
Qed.

Lemma mapKeyVal_details (name : string) (md : MapDetails) :
  mapDetailsOf entry pkg name = Some md →
  IsRepeated (KeyField md) = false →
  IsRepeated (ValueField md) = false →
  mapKeyVal pkg (m_GetField entry)
  = (FieldType (KeyField md), FieldType (ValueField md)).
Proof.
  unfold mapDetailsOf. destruct (m_GetMapEntry entry); [|discriminate].
  destruct (lastField entry pkg "key" _ None) as [k|] eqn:Hk;
    [|discriminate].
  destruct (lastField entry pkg "value" _ None) as [v|] eqn:Hv;
    [|discriminate].
  intros [= <-]. cbn [KeyField ValueField]. intros Hrk Hrv.
  destruct (mapKeyVal_fields (m_GetField entry) ("", "") None None)
    as [Hkey Hval]; try discriminate.
  unfold mapKeyVal.
  rewrite (surjective_pairing (fold_left _ _ _)).
  f_equal; symmetry; [exact (Hkey k Hk Hrk)|exact (Hval v Hv Hrv)].
Qed.

Lemma mapTypeLoop_first (simple : string) (before after : list DescriptorProto) :
  Forall (fun n => m_GetName n = simple → m_GetMapEntry n = false) before →
  m_GetName entry = simple → m_GetMapEntry entry = true →
  mapTypeLoop pkg simple (before ++ entry :: after)
  = let '(keyType, valType) := mapKeyVal pkg (m_GetField entry) in
    Some ("Map<" +:+ keyType +:+ "," +:+ valType +:+ ">").
Proof.
  intros Hb Hn He. induction Hb as [|n ns Hn' _ IH]; cbn [app mapTypeLoop].
  - now rewrite Hn, String.eqb_refl, He.
  - destruct (String.eqb_spec (m_GetName n) simple) as [Heq|_];
      [rewrite (Hn' Heq)|]; exact IH.
Qed.

End MapFields.

Section Walked.

Lemma addMessageType_fieldsSafe (m : DescriptorProto) (prefix pkg : string)
  (ctx ctx' : APIContext) :
  addMessageType m prefix pkg ctx = Ok ctx' → fieldsSafe m = true.
Proof.
  rewrite addMessageType_step. now destruct (fieldsSafe m).
Qed.

Lemma newField_each (m : DescriptorProto) (pkg : string)
  (fs : list FieldDescriptorProto) :
  forallb (fun f => camelSafe (f_GetName f)) fs = true →
  Forall2 (fun f field => newField f m pkg = Ok field)
    fs (map (fieldOf m pkg) fs).
Proof.
  induction fs as [|f fs IH]; cbn [forallb map]; [constructor|].
  intros H. apply andb_prop in H as [Hf Hfs].
  constructor; [|now apply IH]. now rewrite newField_eq, Hf.
Qed.

End Walked.

Section ServiceLoop.

Lemma buildServices_services (pkg : string) (ss : list ServiceDescriptorProto) :
  ∀ c c',
    buildServices pkg ss c = Ok c' →
    Forall (fun s => forallb (sliceable pkg) (s_GetMethod s) = true) ss
    ∧ Services c'
      = Services c
        ++ map (fun s => {| ServiceName := s_GetName s; Package := pkg;
                            Methods := map (methodOf pkg) (s_GetMethod s) |})
             ss.
Proof.
  induction ss as [|s ss IH]; intros c c' H.
  - injection H as <-. split; [constructor|]. cbn. now rewrite app_nil_r.
  - unfold buildServices in H. cbn [forM] in H.
    apply bind_Ok_inv in H as (c1 & H1 & H).
    apply bind_Ok_inv in H1 as (svc & Hsvc & H1). injection H1 as <-.
    unfold newService in Hsvc. rewrite methodLoop_sliceable in Hsvc.
    destruct (forallb (sliceable pkg) (s_GetMethod s)) eqn:Hs;
      [|discriminate].
    injection Hsvc as <-. destruct (IH _ _ H) as (Hall & ->).
    split; [now constructor|].
    cbn [addService Services map]. now rewrite <- app_assoc.
Qed.

End ServiceLoop.

(** ** Propagation, run a second time *)

Section Returning.

(** Whether [enableMarshal] or [enableUnmarshal] returns depends on the
    fields and on the name table only. *)
Lemma enableFlag_returnsAt :
  ∀ fuel fl c1 p c1',
    enableFlag fl fuel c1 (Some p) = Ok c1' →
    ∀ fl' c2, sameShape c1 c2 → ∃ c2', enableFlag fl' fuel c2 (Some p) = Ok c2'.
Proof.
  induction fuel as [|n IH]; [discriminate|].
  intros fl c1 p c1' Hrun fl' c2 HS.
  destruct (Models c1 !! p) as [m1|] eqn:Hm1;
    [|cbn [enableFlag] in Hrun; rewrite Hm1 in Hrun; discriminate].
  rewrite (enableFlag_S _ _ _ _ _ Hm1) in Hrun.
  destruct (sameShape_model _ _ _ _ HS Hm1) as (m2 & Hm2 & He).
  rewrite (enableFlag_S _ _ _ _ _ Hm2), (eraseFlags_Fields _ _ He).
  assert (HSab : sameShape (setModelFlag fl c1 p) (setModelFlag fl' c2 p)).
  { eapply sameShape_trans; [apply sameShape_sym, sameShape_setModelFlag|].
    eapply sameShape_trans; [exact HS|apply sameShape_setModelFlag]. }
  revert Hrun HSab.
  generalize (setModelFlag fl c1 p) as ca, (setModelFlag fl' c2 p) as cb.
  induction (Fields m1) as [|f fs IHfs]; intros ca cb Hrun HSab.
  - now exists cb.
  - cbn [forM] in *. apply bind_Ok_inv in Hrun as (cm & Hstep & Hrun).
    assert (Hb : ∃ cm', (if skipField f then Ok cb
                         else match modelLookup cb !! baseType f with
                              | None => couldNotFind (baseType f) (FieldName f)
                              | Some mm => enableFlag fl' n cb (Some mm)
                              end) = Ok cm' ∧ sameShape cm cm').
    { destruct (skipField f).
      - injection Hstep as <-. now exists cb.
      - replace (modelLookup cb) with (modelLookup ca)
          by (now destruct HSab as (_ & _ & ->)).
        destruct (modelLookup ca !! baseType f) as [q|]; [|discriminate].
        destruct (IH _ _ _ _ Hstep fl' cb HSab) as (cm' & Hcm').
        exists cm'. split; [exact Hcm'|].
        eapply sameShape_trans;
          [apply sameShape_sym, (proj1 (enableFlag_post fl _ _ _ _ Hstep))|].
        eapply sameShape_trans; [exact HSab|].
        exact (proj1 (enableFlag_post fl' _ _ _ _ Hcm')). }
    destruct Hb as (cm' & -> & HS'). cbn [mbind result_bind].
    now apply (IHfs cm cm').
Qed.

Lemma returnsAt_run (fl : flag) (fuel : nat) (c c1 c1' : APIContext) (p : nat) :
  sameShape c c1 → enableFlag fl fuel c1 (Some p) = Ok c1' →
  returnsAt c fuel p.
Proof.
  intros HS Hrun fl' c2 HS2.
  apply (enableFlag_returnsAt fuel fl c1 p c1' Hrun).
  eapply sameShape_trans; [apply sameShape_sym, HS|exact HS2].
Qed.

Lemma returnsAt_S (c : APIContext) (fuel p : nat) :
  returnsAt c fuel p → returnsAt c (S fuel) p.
Proof.
  intros H fl c1 HS. destruct (H fl c1 HS) as (c' & Hc').
  exists c'. now apply enableFlag_more_fuel.
Qed.

Lemma returnsAt_zero (c : APIContext) (p : nat) : ¬ returnsAt c 0 p.
Proof.
  intros H. destruct (H Marshal c (sameShape_refl c)) as (c' & Hc').
  discriminate Hc'.
Qed.

(** A returning call has resolved every field that it does not skip and
    has returned from the call on it. *)
Lemma returnsAt_field (c : APIContext) (fuel p : nat) (m : Model)
  (f : ModelField) :
  returnsAt c (S fuel) p → Models c !! p = Some m → f ∈ Fields m →
  skipField f = false →
  ∃ q, modelLookup c !! baseType f = Some q ∧ returnsAt c fuel q.
Proof.
  intros Hret Hm Hf Hskip.
  destruct (Hret Marshal c (sameShape_refl c)) as (c' & Hrun).
  rewrite (enableFlag_S _ _ _ _ _ Hm) in Hrun.
  match type of Hrun with forM ?b _ _ = _ => set (body := b) in * end.
  assert (Hpres : ∀ s x s', x ∈ Fields m → sameShape c s →
                            body s x = Ok s' → sameShape c s').
  { intros s x s' _ HSs Hx. subst body. cbn beta in Hx.
    destruct (skipField x); [now injection Hx as <-|].
    destruct (modelLookup s !! baseType x) as [q|]; [|discriminate].
    eapply sameShape_trans; [exact HSs|].
    exact (proj1 (enableFlag_post Marshal _ _ _ _ Hx)). }
  destruct (forM_visits body (sameShape c) (Fields m) Hpres
              (setModelFlag Marshal c p) c' f
              (sameShape_setModelFlag Marshal c p) Hrun Hf)
    as (sk & sk' & HSk & Hstep).
  subst body.
  cbn beta in Hstep. rewrite Hskip in Hstep.
  replace (modelLookup sk) with (modelLookup c) in Hstep
    by (now destruct HSk as (_ & _ & ->)).
  destruct (modelLookup c !! baseType f) as [q|]; [|discriminate].
  exists q. split; [reflexivity|].
  now apply (returnsAt_run Marshal fuel c sk sk').
Qed.

Lemma returnsAt_rtc (c : APIContext) (fuel : nat) (p x : nat) :
  rtc (follows c) p x → returnsAt c fuel p → returnsAt c fuel x.
Proof.
  induction 1 as [p|p y x (m & f & Hm & Hf & Hskip & Hl) _ IH];
    [auto|].
  intros Hp. apply IH. destruct fuel as [|n];
    [now apply returnsAt_zero in Hp|].
  destruct (returnsAt_field c n p m f Hp Hm Hf Hskip) as (q & Hq & Hret).
  assert (q = y) as -> by congruence. now apply returnsAt_S.
Qed.

Variables (fuel : nat) (c c' : APIContext).
Hypothesis Hrun : ApplyMarshalFlags fuel c = Ok c'.

(** In a returning run, the call on each field of a model that was flagged
    at the start has returned. *)
Lemma first_run_calls (fl : flag) (j : nat) (m : Model) (f : ModelField) :
  flagAt fl c j = true → Models c !! j = Some m → f ∈ Fields m →
  skipField f = false →
  ∃ q, modelLookup c !! baseType f = Some q ∧ returnsAt c fuel q.
Proof.
  intros Hfl Hm Hf Hskip.
  assert (Hin : j ∈ seq 0 (length (Models c))).
  { apply elem_of_seq. split; [lia|]. cbn. apply lookup_lt_is_Some. eauto. }
  destruct (forM_visits (applyModel fuel) (applyInv fl c) _
              (fun s x s' _ Hs Hx => proj1 (applyModel_inv fl c fuel x s s' Hs Hx))
              c c' j (applyInv_start fl c) Hrun Hin)
    as (ck & ck' & Hinv & Hvisit).
  unfold applyModel in Hvisit.
  destruct (sameShape_model _ _ _ _ (proj1 Hinv) Hm) as (mk & Hmk & He).
  rewrite Hmk in Hvisit. apply eraseFlags_Fields in He.
  assert (Hfk : f ∈ Fields mk) by now rewrite He.
  destruct (forM_visits (applyField fuel j) (applyInv fl c) (Fields mk)
              (fun s x s' Hx Hs Hr =>
                 proj1 (applyField_inv fl c fuel j m x s s' Hs Hm
                          ltac:(now rewrite <- He) Hr))
              ck ck' f Hinv Hvisit Hfk)
    as (cj & cj' & Hinvj & Hfield).
  destruct (applyField_phases _ _ _ _ _ Hskip Hfield) as (c1 & Hph1 & Hph2).
  assert (Hown : ∀ ca cb, applyInv fl c ca → phase fl fuel j f ca cb →
                   ∃ q, modelLookup c !! baseType f = Some q
                        ∧ returnsAt c fuel q).
  { intros ca cb (HS & HM & _) [(_ & q & Hq & Hcall)|(Hoff & _)].
    - exists q. split; [now destruct HS as (_ & _ & ->)|].
      now apply (returnsAt_run fl fuel c ca cb).
    - apply HM in Hfl. congruence. }
  destruct fl.
  - now apply (Hown cj c1).
  - destruct (phase_other Unmarshal c Marshal _ _ _ _ _
                Unmarshal_ne_Marshal Hinvj Hph1) as (Hinv1 & _).
    now apply (Hown c1 cj').
Qed.

(** The same holds of every model that the run has visited. *)
Lemma first_run_live (x : nat) (m : Model) (f : ModelField) :
  liveIn c x → Models c !! x = Some m → f ∈ Fields m →
  skipField f = false →
  ∃ q, modelLookup c !! baseType f = Some q ∧ returnsAt c fuel q.
Proof.
  intros (fl & j & Hj & Hr) Hm Hf Hskip.
  apply rtc_inv in Hr as [<-|(y & Hjy & Hr)];
    [now apply (first_run_calls fl j m f)|].
  pose proof Hjy as (mj & fj & Hmj & Hfj & Hskipj & Hlj).
  destruct (first_run_calls fl j mj fj Hj Hmj Hfj Hskipj) as (q & Hq & Hret).
  assert (q = y) as -> by congruence.
  pose proof (returnsAt_rtc c fuel y x Hr Hret) as Hx.
  destruct fuel as [|n]; [now apply returnsAt_zero in Hx|].
  destruct (returnsAt_field c n x m f Hx Hm Hf Hskip) as (q & Hq' & Hretq).
  exists q. split; [exact Hq'|now apply returnsAt_S].
Qed.

Lemma liveIn_after : ∀ x, liveIn c' x → liveIn c x.
Proof.
  intros x (fl & j & Hj & Hr).
  destruct (ApplyMarshalFlags_closure fl _ _ _ Hrun) as (HS & Hc).
  apply Hc in Hj as (j0 & Hj0 & Hr0). exists fl, j0. split; [exact Hj0|].
  eapply rtc_trans; [exact Hr0|].
  apply (rtc_follows_shape c' c); [now apply sameShape_sym|exact Hr].
Qed.

Lemma second_run_calls (x : nat) (m : Model) (f : ModelField) :
  liveIn c' x → Models c' !! x = Some m → f ∈ Fields m →
  skipField f = false →
  ∃ q, modelLookup c' !! baseType f = Some q ∧ returnsAt c' fuel q.
Proof.
  intros Hx Hm Hf Hskip.
  destruct (ApplyMarshalFlags_closure Marshal _ _ _ Hrun) as (HS & _).
  destruct (sameShape_model _ _ _ _ (sameShape_sym _ _ HS) Hm)
    as (m0 & Hm0 & He).
  destruct (first_run_live x m0 f (liveIn_after x Hx) Hm0) as (q & Hq & Hret);
    [now rewrite (eraseFlags_Fields _ _ He)|exact Hskip|].
  exists q. split; [now destruct HS as (_ & _ & <-)|].
  intros fl c1 HS1. apply Hret. eapply sameShape_trans; eauto.
Qed.

End Returning.

Section Rerun.

Variables (fuel : nat) (c0 : APIContext).
Hypothesis Hcalls :
  ∀ x m f, liveIn c0 x → Models c0 !! x = Some m → f ∈ Fields m →
           skipField f = false →
           ∃ q, modelLookup c0 !! baseType f = Some q ∧ returnsAt c0 fuel q.

Lemma phase_returns (fl : flag) (p : nat) (m0 : Model) (f : ModelField)
  (c : APIContext) :
  applyInv fl c0 c → Models c0 !! p = Some m0 → f ∈ Fields m0 →
  skipField f = false →
  ∃ c', phase fl fuel p f c c'.
Proof.
  intros Hinv Hm0 Hf Hskip. destruct (flagAt fl c p) eqn:Hfl.
  - assert (Hlive : liveIn c0 p).
    { destruct Hinv as (_ & _ & Hso & _).
      destruct (Hso p Hfl) as (j & Hj & Hr). now exists fl, j. }
    destruct (Hcalls p m0 f Hlive Hm0 Hf Hskip) as (q & Hq & Hret).
    destruct (Hret fl c (proj1 Hinv)) as (c' & Hc').
    exists c'. left. split; [exact Hfl|]. exists q. split; [|exact Hc'].
    destruct Hinv as ((_ & _ & <-) & _). exact Hq.
  - exists c. right. auto.
Qed.

Lemma applyField_returns_again (p : nat) (m0 : Model) (f : ModelField)
  (c : APIContext) :
  applyInv Marshal c0 c → applyInv Unmarshal c0 c →
  Models c0 !! p = Some m0 → f ∈ Fields m0 →
  ∃ c', applyField fuel p c f = Ok c'
        ∧ applyInv Marshal c0 c' ∧ applyInv Unmarshal c0 c'.
Proof.
  intros HM HU Hm0 Hf. destruct (skipField f) eqn:Hskip.
  - exists c. unfold applyField. now rewrite Hskip.
  - destruct (phase_returns Marshal p m0 f c HM Hm0 Hf Hskip)
      as (c1 & Hph1).
    destruct (phase_own Marshal c0 fuel p m0 f c c1 HM Hm0 Hf Hskip Hph1)
      as (HM1 & _).
    destruct (phase_other Unmarshal c0 Marshal fuel p f c c1
                Unmarshal_ne_Marshal HU Hph1) as (HU1 & _).
    destruct (phase_returns Unmarshal p m0 f c1 HU1 Hm0 Hf Hskip)
      as (c2 & Hph2).
    destruct (phase_own Unmarshal c0 fuel p m0 f c1 c2 HU1 Hm0 Hf Hskip Hph2)
      as (HU2 & _).
    destruct (phase_other Marshal c0 Unmarshal fuel p f c1 c2
                Marshal_ne_Unmarshal HM1 Hph2) as (HM2 & _).
    exists c2. split; [|split; assumption].
    now apply (phase_applyField fuel p f c c1 c2).
Qed.

Lemma applyModel_returns_again (p : nat) (c : APIContext) :
  applyInv Marshal c0 c → applyInv Unmarshal c0 c →
  ∃ c', applyModel fuel c p = Ok c'
        ∧ applyInv Marshal c0 c' ∧ applyInv Unmarshal c0 c'.
Proof.
  intros HM HU. unfold applyModel.
  destruct (Models c !! p) as [model|] eqn:Hm; [|now exists c].
  destruct (sameShape_model _ _ _ _ (sameShape_sym _ _ (proj1 HM)) Hm)
    as (m0 & Hm0 & He).
  assert (Hsub : ∀ f, f ∈ Fields model → f ∈ Fields m0)
    by (intros f; now rewrite (eraseFlags_Fields _ _ He)).
  clear Hm. revert c HM HU Hsub.
  induction (Fields model) as [|f fs IHfs]; intros c HM HU Hsub.
  - now exists c.
  - cbn [forM].
    destruct (applyField_returns_again p m0 f c HM HU Hm0)
      as (c1 & -> & HM1 & HU1); [apply Hsub; constructor|].
    cbn [mbind result_bind]. apply IHfs; try assumption.
    intros g Hg. apply Hsub. now constructor.
Qed.

Lemma ApplyMarshalFlags_returns_again :
  ∃ c', ApplyMarshalFlags fuel c0 = Ok c'.
Proof.
  unfold ApplyMarshalFlags. generalize (seq 0 (length (Models c0))) as ps.
  pose proof (applyInv_start Marshal c0) as HM.
  pose proof (applyInv_start Unmarshal c0) as HU.
  revert HM HU. generalize c0 at 2 4 5 as c.
  intros c HM HU ps. revert c HM HU.
  induction ps as [|p ps IH]; intros c HM HU; [now exists c|].
  cbn [forM].
  destruct (applyModel_returns_again p c HM HU) as (c1 & -> & HM1 & HU1).
  cbn [mbind result_bind]. now apply IH.
Qed.

End Rerun.

Section SecondRun.

(** Propagation, run again on its own result, returns that result. *)
Lemma ApplyMarshalFlags_again (fuel : nat) (c c' : APIContext) :
  ApplyMarshalFlags fuel c = Ok c' →
  ∀ extra, ApplyMarshalFlags (extra + fuel) c' = Ok c'.
Proof.
  intros Hrun.
  destruct (ApplyMarshalFlags_returns_again fuel c'
              (second_run_calls fuel c c' Hrun)) as (c'' & H2).
  rewrite (ApplyMarshalFlags_fixpoint _ _ _ _ _ Hrun H2) in H2.
  induction extra as [|k IH]; [exact H2|].
  now apply ApplyMarshalFlags_more_fuel.
Qed.

End SecondRun.

(** * The claims *)

(** ** Type mapper *)

(** C3. The numeric case of [types] lists only double, fixed32, fixed64,
    int32 and int64: for a field of type float, uint32, uint64, sfixed32,
    sfixed64, sint32 or sint64 the mapper falls through to the default and
    returns the target type "string" and the wire type "string", not
    "number". *)
Theorem types_unlisted_numeric_is_string
  (name typeName pkg : string) (l : FieldDescriptorProto_Label) :
  Forall (fun t => types (mkFieldDescriptor name t l typeName) pkg
                   = ("string", "string"))
    [TYPE_FLOAT; TYPE_UINT32; TYPE_UINT64; TYPE_SFIXED32; TYPE_SFIXED64;
     TYPE_SINT32; TYPE_SINT64]
  ∧ Forall (fun t => types (mkFieldDescriptor name t l typeName) pkg
                     = ("number", "number"))
      [TYPE_DOUBLE; TYPE_FIXED32; TYPE_FIXED64; TYPE_INT32; TYPE_INT64].
Proof. split; repeat constructor. Qed.

(** C4, as the code has it.  For a message-typed field the mapper returns
    the namespace-stripped name of the referenced type and that name followed
    by "JSON", except for ".google.protobuf.Timestamp", where it returns
    "Date" and "string".  When generation returns, the registry holds a
    model named "Date": a primitive placeholder without fields, found under
    that name, for which the template writes nothing.  A timestamp field
    that is not repeated is skipped by the propagator. *)
Theorem message_types_and_date_placeholder
  (f : FieldDescriptorProto) (m : DescriptorProto) (pkg : string)
  (fuel : nat) (file : FileDescriptorProto) (ctx : APIContext) :
  f_GetType f = TYPE_MESSAGE →
  clientContext fuel file = Ok ctx →
  (f_GetTypeName f ≠ ".google.protobuf.Timestamp" →
   types f pkg = (removePkg (f_GetTypeName f) pkg,
                  removePkg (f_GetTypeName f) pkg +:+ "JSON"))
  ∧ (f_GetTypeName f = ".google.protobuf.Timestamp" →
     types f pkg = ("Date", "string")
     ∧ (isRepeated f = false →
        ∀ field, newField f m pkg = Ok field → skipField field = true))
  ∧ ∃ d md,
      modelLookup ctx !! "Date" = Some d
      ∧ Models ctx !! d = Some md
      ∧ Name md = "Date" ∧ Primitive md = true ∧ Fields md = []
      ∧ modelDecls md = [].
Proof.
  intros Hty Hrun. split; [|split].
  - intros Hn. unfold types. rewrite Hty.
    apply String.eqb_neq in Hn. now rewrite Hn.
  - intros Hn. unfold types. rewrite Hty, Hn. split; [reflexivity|].
    intros Hrep field. rewrite newField_eq.
    destruct (camelSafe (f_GetName f)); [|discriminate]. intros [= <-].
    unfold skipField, fieldOf, protoToTSType, types. cbn.
    rewrite Hty, Hn, Hrep. reflexivity.
  - destruct (clientContext_placeholder _ _ _ Hrun)
      as (d & md & Hl & Hmd & Hdate & _).
    exists d, md. split; [exact Hl|]. split; [exact Hmd|].
    injection Hdate as Hn Hp Hf _.
    repeat split; try assumption. now apply modelDecls_primitive.
Qed.

Lemma message_types_and_date_placeholder_witness :
  types (msgField "at" ".google.protobuf.Timestamp" LABEL_OPTIONAL) "pkg"
  = ("Date", "string")
  ∧ types (msgField "req" ".pkg.Outer.Inner" LABEL_OPTIONAL) "pkg"
    = ("OuterInner", "OuterInnerJSON")
  ∧ ∃ ctx d md,
      clientContext 5 greeterFile = Ok ctx
      ∧ modelLookup ctx !! "Date" = Some d
      ∧ Models ctx !! d = Some md
      ∧ Primitive md = true.
Proof.
  destruct (clientContext 5 greeterFile) as [ctx| | |] eqn:Hrun;
    try (vm_compute in Hrun; discriminate).
  destruct (message_types_and_date_placeholder
              (msgField "at" ".google.protobuf.Timestamp" LABEL_OPTIONAL)
              emptyMessage "pkg" 5 greeterFile ctx eq_refl Hrun)
    as (_ & Hdate & d & md & Hl & Hmd & _ & Hp & _).
  destruct (message_types_and_date_placeholder
              (msgField "req" ".pkg.Outer.Inner" LABEL_OPTIONAL)
              emptyMessage "pkg" 5 greeterFile ctx eq_refl Hrun)
    as (Hmsg & _).
  split; [exact (proj1 (Hdate eq_refl))|].
  split; [apply Hmsg; discriminate|].
  exists ctx, d, md. repeat split; assumption.
Defined.

(** C4, as stated, fails: the date type is a registered model.  For the
    Greeter schema the registry that the template receives holds the model
    "Date" as its third entry, and the name resolves to it. *)
Lemma date_is_a_registered_model :
  ∃ ctx md,
    clientContext 5 greeterFile = Ok ctx
    ∧ map Name (Models ctx) = ["HelloReq"; "HelloResp"; "Date"]
    ∧ modelLookup ctx !! "Date" = Some 2
    ∧ Models ctx !! 2 = Some md
    ∧ Name md = "Date".
Proof.
  destruct (clientContext 5 greeterFile) as [ctx| | |] eqn:Hrun;
    try (vm_compute in Hrun; discriminate).
  vm_compute in Hrun. injection Hrun as <-.
  eexists _, _. split; [reflexivity|]. repeat split.
Qed.

(** ** Field names *)

(** C9, as the code has it.  For an ASCII field name with segments
    [first :: rest] between underscores: when every segment of [rest] is
    non-empty, the target name is [first] lowercased followed by each segment
    of [rest] with its first character uppercased and the remainder
    lowercased; when some segment of [rest] is empty, [camelCase] panics with
    a slice bound out of range.  The first segment may be empty.  A trailing
    or a doubled underscore always leaves an empty segment in [rest].
    [newField] takes the target name of a field from [camelCase] and panics
    when it does. *)
Theorem camelCase_segments (s first : string) (rest : list string) :
  strings.isASCII s = true →
  strings.Split s "_" = first :: rest →
  (Forall (fun p => p ≠ "") rest →
   camelCase s
   = Ok (strings.ToLower first +:+ strings.Join (map capitalize rest)))
  ∧ (Exists (fun p => p = "") rest → camelCase s = Panic SliceOutOfRange)
  ∧ (∀ t, s = t +:+ "_" → camelCase s = Panic SliceOutOfRange)
  ∧ (∀ a b, s = a +:+ "__" +:+ b → camelCase s = Panic SliceOutOfRange)
  ∧ (∀ f m pkg, f_GetName f = s →
       match camelCase s with
       | Ok name => ∃ field, newField f m pkg = Ok field ∧ FieldName field = name
       | _ => newField f m pkg = Panic SliceOutOfRange
       end).
Proof.
  intros _ Hs. repeat split.
  - intros Hrest. rewrite (camelCase_eq _ _ _ Hs).
    apply forallb_nonempty_Forall in Hrest. now rewrite Hrest.
  - intros Hrest. rewrite (camelCase_eq _ _ _ Hs).
    now rewrite (forallb_nonempty_Exists _ Hrest).
  - intros t ->. now rewrite camelCase_camelSafe, camelSafe_trailing.
  - intros a b ->. now rewrite camelCase_camelSafe, camelSafe_doubled.
  - intros f m pkg Hf. rewrite newField_eq, Hf, camelCase_camelSafe.
    destruct (camelSafe s); [|reflexivity].
    eexists. split; [reflexivity|]. cbn. now rewrite Hf.
Qed.

Lemma camelCase_segments_witness :
  strings.isASCII "user_id" = true
  ∧ strings.Split "user_id" "_" = ["user"; "id"]
  ∧ camelCase "user_id" = Ok "userId".
Proof.
  split; [reflexivity|]. split; [reflexivity|].
  apply (proj1 (camelCase_segments "user_id" "user" ["id"] eq_refl eq_refl)).
  repeat constructor. discriminate.
Defined.

(** C9, as stated, fails on a leading underscore: the name [_foo] has an
    empty first segment and [camelCase] returns [Foo]. *)
Lemma camelCase_leading_underscore :
  strings.HasPrefix "_foo" "_" = true
  ∧ strings.Split "_foo" "_" = [""; "foo"]
  ∧ camelCase "_foo" = Ok "Foo".
Proof. repeat split. Qed.

(** ** Schema walker *)

(** C6. On well-formed messages the walker returns, and the names of the
    models it appends to the registry are the flattened names (the enclosing
    type names with their dots removed, then the type's own name) of the
    messages in pre-order: each parent before its children, the children in
    declaration order. *)
Theorem walker_flat_names_preorder
  (pkg : string) (ms : list DescriptorProto) (ctx : APIContext) :
  forallb wellFormed ms = true →
  ∃ ctx', walkMessages pkg ms ctx = Ok ctx'
          ∧ map Name (Models ctx')
            = map Name (Models ctx) ++ flat_map (flatNames []) ms.
Proof.
  intros Hwf. destruct (walkMessages_total pkg ms ctx Hwf) as (ctx' & Hw).
  exists ctx'. split; [exact Hw|].
  destruct (walkMessages_inv _ _ _ _ Hw) as (news & Hm & _ & _ & Hnames).
  now rewrite Hm, map_app, Hnames.
Qed.

Lemma walker_flat_names_preorder_witness :
  forallb wellFormed [nestedExample] = true
  ∧ ∃ ctx', walkMessages "pkg" [nestedExample] NewAPIContext = Ok ctx'
            ∧ map Name (Models ctx')
              = ["Outer"; "OuterMiddle"; "OuterMiddleInner"; "OuterMiddleLeaf";
                 "OuterSide"].
Proof.
  split; [reflexivity|].
  exact (walker_flat_names_preorder "pkg" [nestedExample] NewAPIContext eq_refl).
Defined.

(** C8. For a well-formed message with the map-entry marker and fields named
    [key] and [value], the walker returns and the model it registers carries
    [MapDetails] whose key and value fields are the fields built from a
    [key]-named and a [value]-named field of the message; whatever its flags,
    such a model is rendered as its wire interface followed by map helpers
    only, never as a plain interface. *)
Theorem map_entry_model_has_MapDetails
  (m : DescriptorProto) (prefix pkg : string) (ctx : APIContext) :
  m_GetMapEntry m = true →
  hasField "key" m = true →
  hasField "value" m = true →
  wellFormed m = true →
  ∃ ctx' model md kf vf,
    addMessageType m prefix pkg ctx = Ok ctx'
    ∧ Models ctx' !! length (Models ctx) = Some model
    ∧ Map model = Some md
    ∧ kf ∈ m_GetField m ∧ f_GetName kf = "key"
    ∧ newField kf m pkg = Ok (KeyField md)
    ∧ vf ∈ m_GetField m ∧ f_GetName vf = "value"
    ∧ newField vf m pkg = Ok (ValueField md)
    ∧ ∀ model', Map model' = Map model → Primitive model' = false →
        Forall (fun d => isPlainInterface d = false) (modelDecls model')
        ∧ ∃ members helpers,
            modelDecls model'
            = WireInterface (Name model' +:+ "JSON") members :: helpers
            ∧ Forall (fun d => isMapHelper d = true) helpers.
Proof.
  intros Hmap Hk Hv Hwf.
  destruct (addMessageType_total m prefix pkg ctx Hwf) as (ctx' & Hw).
  destruct (addMessageType_inv _ _ _ _ _ Hw) as (rest & Hm & _).
  pose proof Hwf as Hsafe. rewrite wellFormed_eq in Hsafe.
  apply andb_prop in Hsafe as [Hsafe _]. apply andb_prop in Hsafe as [Hsafe _].
  unfold fieldsSafe in Hsafe. rewrite forallb_forall in Hsafe.
  destruct (lastField_found m pkg "key" _ None Hk) as (kf & Hkf & Hkn & Hkl).
  destruct (lastField_found m pkg "value" _ None Hv) as (vf & Hvf & Hvn & Hvl).
  exists ctx', (modelOf m prefix pkg),
    {| MapName := strings.TrimSuffix (Name (modelOf m prefix pkg)) "Entry";
       KeyField := fieldOf m pkg kf; ValueField := fieldOf m pkg vf |}, kf, vf.
  assert (HMap : Map (modelOf m prefix pkg)
                 = Some {| MapName := strings.TrimSuffix
                                        (Name (modelOf m prefix pkg)) "Entry";
                           KeyField := fieldOf m pkg kf;
                           ValueField := fieldOf m pkg vf |}).
  { cbn. unfold mapDetailsOf. now rewrite Hmap, Hkl, Hvl. }
  split; [exact Hw|].
  split; [rewrite Hm; now apply list_lookup_middle|].
  split; [exact HMap|].
  split; [exact Hkf|]. split; [exact Hkn|].
  split; [rewrite newField_eq, (Hsafe kf); [reflexivity|now apply list_elem_of_In]|].
  split; [exact Hvf|]. split; [exact Hvn|].
  split; [rewrite newField_eq, (Hsafe vf); [reflexivity|now apply list_elem_of_In]|].
  intros model' HM' Hprim. rewrite HMap in HM'.
  unfold modelDecls, marshalDecls, unmarshalDecls. rewrite Hprim, HM'.
  cbn [app]. split.
  - destruct (CanMarshal model'), (CanUnmarshal model'); repeat constructor.
  - eexists _, _. split; [reflexivity|].
    destruct (CanMarshal model'), (CanUnmarshal model'); repeat constructor.
Qed.

Lemma map_entry_model_has_MapDetails_witness :
  ∃ ctx' model md,
    addMessageType tagsEntry ".Item" "pkg" NewAPIContext = Ok ctx'
    ∧ Models ctx' !! 0 = Some model
    ∧ Name model = "ItemTagsEntry"
    ∧ Map model = Some md
    ∧ MapName md = "ItemTags".
Proof.
  destruct (map_entry_model_has_MapDetails tagsEntry ".Item" "pkg" NewAPIContext
              eq_refl eq_refl eq_refl eq_refl)
    as (ctx' & model & md & kf & vf & Hw & Hl & HM & _).
  exists ctx', model, md. split; [exact Hw|]. split; [exact Hl|].
  vm_compute in Hw. injection Hw as <-. vm_compute in Hl.
  injection Hl as <-. vm_compute in HM. injection HM as <-.
  repeat split.
Defined.

(** C10. For a message marked as a map entry whose field names pass
    [camelCase]: when the [key] or the [value] field is missing, the walker
    dereferences a nil pointer; when the message is well-formed (both fields
    present), the walker returns and the [MapDetails] of the registered model
    is named by the flattened model name with a trailing "Entry" removed:
    a model named [<base>Entry] has the map name [<base>], and a model whose
    name does not end in "Entry" has its own name as the map name. *)
Theorem map_entry_requires_key_and_value
  (m : DescriptorProto) (prefix pkg : string) (ctx : APIContext) :
  m_GetMapEntry m = true →
  fieldsSafe m = true →
  (hasField "key" m && hasField "value" m = false →
   addMessageType m prefix pkg ctx = Panic NilDereference)
  ∧ (wellFormed m = true →
     ∃ ctx' model md,
       addMessageType m prefix pkg ctx = Ok ctx'
       ∧ Models ctx' !! length (Models ctx) = Some model
       ∧ Name model = strings.removeAll "." prefix +:+ m_GetName m
       ∧ Map model = Some md
       ∧ MapName md = strings.TrimSuffix (Name model) "Entry"
       ∧ (∀ base, Name model = base +:+ "Entry" → MapName md = base)
       ∧ ((∀ base, Name model ≠ base +:+ "Entry") →
          MapName md = Name model)).
Proof.
  intros Hmap Hsafe. split.
  - intros Hmiss. rewrite addMessageType_step, Hsafe, Hmap, Hmiss. reflexivity.
  - intros Hwf.
    destruct (addMessageType_total m prefix pkg ctx Hwf) as (ctx' & Hw).
    destruct (addMessageType_inv _ _ _ _ _ Hw) as (rest & Hm & _).
    rewrite wellFormed_eq, Hsafe, Hmap in Hwf. cbn in Hwf.
    apply andb_prop in Hwf as [Hkv _]. apply andb_prop in Hkv as [Hk Hv].
    destruct (lastField_found m pkg "key" _ None Hk) as (kf & _ & _ & Hkl).
    destruct (lastField_found m pkg "value" _ None Hv) as (vf & _ & _ & Hvl).
    exists ctx', (modelOf m prefix pkg),
      {| MapName := strings.TrimSuffix (Name (modelOf m prefix pkg)) "Entry";
         KeyField := fieldOf m pkg kf; ValueField := fieldOf m pkg vf |}.
    split; [exact Hw|].
    split; [rewrite Hm; now apply list_lookup_middle|].
    split; [reflexivity|]. split; [|split; [reflexivity|split]].
    + cbn. unfold mapDetailsOf. now rewrite Hmap, Hkl, Hvl.
    + intros base Hb. cbn [MapName]. rewrite Hb. apply TrimSuffix_app.
    + intros Hno. cbn [MapName]. now apply TrimSuffix_without.
Qed.

Lemma map_entry_requires_key_and_value_witness :
  addMessageType
    (mkDescriptor "TagsEntry" [scalarField "key" TYPE_STRING] [] true)
    ".Item" "pkg" NewAPIContext
  = Panic NilDereference
  ∧ ∃ ctx' model md,
      addMessageType tagsEntry ".Item" "pkg" NewAPIContext = Ok ctx'
      ∧ Models ctx' !! 0 = Some model
      ∧ Name model = "ItemTagsEntry"
      ∧ Map model = Some md
      ∧ MapName md = "ItemTags".
Proof.
  split.
  - apply (proj1 (map_entry_requires_key_and_value
                    (mkDescriptor "TagsEntry" [scalarField "key" TYPE_STRING]
                       [] true)
                    ".Item" "pkg" NewAPIContext eq_refl eq_refl)).
    reflexivity.
  - destruct (proj2 (map_entry_requires_key_and_value tagsEntry ".Item" "pkg"
                       NewAPIContext eq_refl eq_refl) eq_refl)
      as (ctx' & model & md & Hw & Hl & Hn & HM & _ & Hbase & _).
    exists ctx', model, md.
    split; [exact Hw|]. split; [exact Hl|]. split; [exact Hn|].
    split; [exact HM|]. apply Hbase. exact Hn.
Defined.

(** ** Service builder *)



(** ** Reachability propagator *)

(** The flags that the code sets.  When generation returns, every model of
    the registry other than the primitive placeholder has [CanMarshal]
    (resp. [CanUnmarshal]) set if and only if it can be reached from a model
    that some method uses as its input type (resp. output type), along the
    message fields whose base type is not the string "Date" and which the
    name table resolves; it then gets its conversion function, and a model,
    primitive or not, that cannot be reached so gets no [ToJSON] (resp.
    [JSONTo]) function. *)
Theorem flags_are_reachability
  (fuel : nat) (file : FileDescriptorProto) (ctx : APIContext)
  (i : nat) (m : Model) :
  clientContext fuel file = Ok ctx →
  Models ctx !! i = Some m →
  (Primitive m = false →
   (CanMarshal m = true ↔ reachableFromMethod Marshal ctx i)
   ∧ (CanUnmarshal m = true ↔ reachableFromMethod Unmarshal ctx i)
   ∧ (reachableFromMethod Marshal ctx i →
      Exists (fun decl => isMarshalFn decl = true) (modelDecls m))
   ∧ (reachableFromMethod Unmarshal ctx i →
      Exists (fun decl => isUnmarshalFn decl = true) (modelDecls m)))
  ∧ (¬ reachableFromMethod Marshal ctx i →
     Forall (fun decl => isMarshalFn decl = false) (modelDecls m))
  ∧ (¬ reachableFromMethod Unmarshal ctx i →
     Forall (fun decl => isUnmarshalFn decl = false) (modelDecls m)).
Proof.
  intros Hrun Hm.
  destruct (clientContext_placeholder _ _ _ Hrun)
    as (d & md & _ & Hmd & Hdate & _ & Hflags & _).
  assert (Hprim : Primitive m = false → i ≠ d).
  { intros Hp ->. assert (m = md) as -> by congruence.
    apply (f_equal Primitive) in Hdate. cbn in Hdate. congruence. }
  assert (Hiff : ∀ fl, Primitive m = false →
                       getFlag fl m = true ↔ reachableFromMethod fl ctx i).
  { intros fl Hp. rewrite <- (Hflags fl i (Hprim Hp)). unfold flagAt.
    now rewrite Hm. }
  split; [|split].
  - intros Hp. split; [exact (Hiff Marshal Hp)|].
    split; [exact (Hiff Unmarshal Hp)|]. split.
    + intros Hr. apply modelDecls_marshal; [exact Hp|].
      now apply (Hiff Marshal Hp).
    + intros Hr. apply modelDecls_unmarshal; [exact Hp|].
      now apply (Hiff Unmarshal Hp).
  - intros Hn. apply modelDecls_no_marshal.
    destruct (Primitive m) eqn:Hp; [now left|right].
    destruct (CanMarshal m) eqn:Hc; [|reflexivity].
    exfalso. now apply Hn, (Hiff Marshal eq_refl).
  - intros Hn. apply modelDecls_no_unmarshal.
    destruct (Primitive m) eqn:Hp; [now left|right].
    destruct (CanUnmarshal m) eqn:Hc; [|reflexivity].
    exfalso. now apply Hn, (Hiff Unmarshal eq_refl).
Qed.

Lemma flags_are_reachability_witness :
  ∃ ctx m,
    clientContext 5 greeterFile = Ok ctx
    ∧ Models ctx !! 0 = Some m
    ∧ Name m = "HelloReq"
    ∧ reachableFromMethod Marshal ctx 0
    ∧ Forall (fun decl => isUnmarshalFn decl = false) (modelDecls m).
Proof.
  destruct (clientContext 5 greeterFile) as [ctx| | |] eqn:Hrun;
    try (vm_compute in Hrun; discriminate).
  destruct (Models ctx !! 0) as [m|] eqn:Hm;
    [|vm_compute in Hrun; injection Hrun as <-; discriminate].
  exists ctx, m. split; [reflexivity|]. split; [exact Hm|].
  destruct (flags_are_reachability 5 greeterFile ctx 0 m Hrun Hm)
    as (Hflags & _ & Hnone).
  vm_compute in Hrun. injection Hrun as <-. vm_compute in Hm.
  injection Hm as <-. split; [reflexivity|].
  destruct (Hflags eq_refl) as (HM & HU & _). split.
  - now apply HM.
  - apply Hnone. intros Hr. apply HU in Hr. discriminate.
Defined.

(** C1 where a field has the type "Date".  The propagator skips a field by
    the test [f.Type == "Date"], under the comment "skip primitive types and
    WKT Timestamps".  The test takes a message of the file that is named
    [Date] for the timestamp type: with [Req] the input and output of a
    method and a field of [Req] of the type [Date], the model of the message
    [Date] is referenced by a flagged model and is left without both flags
    and without conversion functions.  The test also misses a repeated
    timestamp, whose type is "Date[]": the placeholder of the date type,
    which a timestamp field that is not repeated leaves unflagged, gets both
    flags from a repeated one. *)
Theorem date_typed_fields_defeat_reachability (fuel : nat) :
  (ctx ← clientContext (S fuel) dateNamedFile; Ok (flagTable ctx))
  = Ok [("Date", false, false, false, [(false, "number")]);
        ("Req", false, true, true, [(true, "Date")]);
        ("Date", true, false, false, [])]
  ∧ (decls ← CreateClientAPI (S fuel) dateNamedFile;
     Ok (map declName decls))
    = Ok ["Date"; "DateJSON"; "Req"; "ReqJSON"; "ReqToJSON"; "JSONToReq";
          "Cal"; "CalClient"]
  ∧ (ctx ← clientContext (S fuel) stampsFile; Ok (flagTable ctx))
    = Ok [("Log", false, true, true, [(true, "Date[]")]);
          ("Date", true, true, true, [])]
  ∧ (ctx ← clientContext (S fuel) eventFile; Ok (flagTable ctx))
    = Ok [("Event", false, true, true, [(true, "Date")]);
          ("Date", true, false, false, [])].
Proof. repeat split; vm_compute; reflexivity. Qed.

(** C2 on a self-referential message: for the schema with a message [Node]
    that has a field of type [Node] and is the input of a method, generation
    does not return, whatever the fuel. *)
Theorem self_reference_never_terminates (fuel : nat) :
  clientContext fuel selfRefFile = OutOfFuel.
Proof.
  unfold clientContext.
  destruct (seededContext selfRefFile) as [c0| | |] eqn:Hc0;
    try (vm_compute in Hc0; discriminate).
  vm_compute in Hc0. injection Hc0 as <-. cbn [mbind result_bind].
  eapply (ApplyMarshalFlags_self_loop _ _ _ [_]); try reflexivity.
  repeat constructor.
Qed.

(** C5 on an imported type.  The field [ext] of [Req] has a type that is
    not in the registry.  With [Req] as the input of a method,
    [ApplyMarshalFlags] hands the nil pointer to [enableMarshal], which
    dereferences it: the run stops with a panic that names neither the type
    nor the field.  With [Req] as the output of a method, the run stops in
    the fatal error that names both. *)
Theorem missing_model_is_nil_dereference_on_marshal_path (fuel : nat) :
  clientContext (S fuel) danglingInputFile = Panic NilDereference
  ∧ clientContext (S fuel) danglingOutputFile
    = Fatal "could not find model of type otherExt for field ext".
Proof. split; vm_compute; reflexivity. Qed.

(** * Further properties of the generator *)

(** ** Reachability propagator *)

(** X1. A returning [ApplyMarshalFlags] changes nothing but flags, and only
    raises them: the registry keeps its length, services and name table, each
    model keeps its name, fields, map details and primitive mark, and a flag
    that was set stays set. *)
Theorem propagation_only_raises_flags
  (fuel : nat) (c c' : APIContext) :
  ApplyMarshalFlags fuel c = Ok c' →
  length (Models c') = length (Models c)
  ∧ Services c' = Services c
  ∧ modelLookup c' = modelLookup c
  ∧ ∀ i m, Models c !! i = Some m →
      ∃ m', Models c' !! i = Some m'
            ∧ Name m' = Name m ∧ Primitive m' = Primitive m
            ∧ Fields m' = Fields m ∧ Map m' = Map m
            ∧ (CanMarshal m = true → CanMarshal m' = true)
            ∧ (CanUnmarshal m = true → CanUnmarshal m' = true).
Proof.
  intros Hrun.
  destruct (ApplyMarshalFlags_closure Marshal _ _ _ Hrun) as (HS & HcM).
  destruct (ApplyMarshalFlags_closure Unmarshal _ _ _ Hrun) as (_ & HcU).
  split; [symmetry; now apply sameShape_length|].
  split; [symmetry; apply HS|]. split; [symmetry; apply HS|].
  intros i m Hm. destruct (sameShape_model _ _ _ _ HS Hm) as (m' & Hm' & He).
  exists m'. split; [exact Hm'|]. injection He as Hn Hp Hf HMap.
  repeat split; try assumption.
  - intros Hfl. change (getFlag Marshal m' = true).
    rewrite <- (flagAt_getFlag Marshal c' i m' Hm'). apply HcM.
    exists i. split; [|apply rtc_refl].
    now rewrite (flagAt_getFlag Marshal c i m Hm).
  - intros Hfl. change (getFlag Unmarshal m' = true).
    rewrite <- (flagAt_getFlag Unmarshal c' i m' Hm'). apply HcU.
    exists i. split; [|apply rtc_refl].
    now rewrite (flagAt_getFlag Unmarshal c i m Hm).
Qed.

Lemma propagation_only_raises_flags_witness :
  ∃ c c',
    seededContext stampsFile = Ok c
    ∧ ApplyMarshalFlags 3 c = Ok c'
    ∧ length (Models c') = length (Models c)
    ∧ modelLookup c' = modelLookup c.
Proof.
  destruct (seededContext stampsFile) as [c| | |] eqn:Hc;
    try (vm_compute in Hc; discriminate).
  destruct (ApplyMarshalFlags 3 c) as [c'| | |] eqn:Hrun;
    try (vm_compute in Hc; injection Hc as <-; vm_compute in Hrun; discriminate).
  destruct (propagation_only_raises_flags 3 c c' Hrun) as (Hlen & _ & Hlk & _).
  exists c, c'. repeat split; assumption.
Defined.

(** X2. Propagation is idempotent: when [ApplyMarshalFlags] has returned,
    running it again on the result returns, at the same recursion depth and
    at every larger one, and gives the same registry back. *)
Theorem propagation_is_idempotent
  (fuel : nat) (c c' : APIContext) :
  ApplyMarshalFlags fuel c = Ok c' →
  (∀ extra, ApplyMarshalFlags (extra + fuel) c' = Ok c')
  ∧ (∀ fuel' c'', ApplyMarshalFlags fuel' c' = Ok c'' → c'' = c').
Proof.
  intros Hrun. split.
  - now apply (ApplyMarshalFlags_again fuel c c').
  - intros fuel' c''. now apply (ApplyMarshalFlags_fixpoint fuel fuel' c).
Qed.

Lemma propagation_is_idempotent_witness :
  ∃ c c',
    seededContext taggedFile = Ok c
    ∧ ApplyMarshalFlags 2 c = Ok c'
    ∧ ApplyMarshalFlags 2 c' = Ok c'
    ∧ c' ≠ c.
Proof.
  destruct (seededContext taggedFile) as [c| | |] eqn:Hc;
    try (vm_compute in Hc; discriminate).
  destruct (ApplyMarshalFlags 2 c) as [c'| | |] eqn:H1;
    try (vm_compute in Hc; injection Hc as <-; vm_compute in H1;
         discriminate).
  exists c, c'. split; [reflexivity|]. split; [exact H1|].
  split; [exact (proj1 (propagation_is_idempotent 2 c c' H1) 0)|].
  vm_compute in Hc. injection Hc as <-. vm_compute in H1.
  injection H1 as <-. discriminate.
Defined.

(** X3. Propagation returns, given fuel beyond the ranks, on every registry
    in which the models that it visits (the flagged ones and what can be
    reached from them) have all their message fields registered and refer
    to each other without a cycle. *)
Theorem propagation_returns_without_cycles
  (c : APIContext) (rank : nat → nat) (fuel : nat) :
  lookupBounded c →
  (∀ x, liveIn c x → ¬ dangling c x) →
  (∀ x y, liveIn c x → follows c x y → rank y < rank x) →
  (∀ x, liveIn c x → rank x < fuel) →
  ∃ c', ApplyMarshalFlags fuel c = Ok c'.
Proof.
  intros Hb Hres Hrk Hfuel.
  exact (ApplyMarshalFlags_returns_live c rank Hb Hres Hrk fuel Hfuel).
Qed.

Lemma propagation_returns_without_cycles_witness :
  ∃ c, seededContext taggedFile = Ok c
       ∧ ∃ c', ApplyMarshalFlags 2 c = Ok c'.
Proof.
  eexists. split; [vm_compute; reflexivity|].
  apply (propagation_returns_without_cycles _
           (fun x => match x with 0 => 1 | _ => 0 end) 2).
  - apply (seededContext_bounded taggedFile). vm_compute. reflexivity.
  - intros x _ (m & f & Hm & Hf & Hskip & Hl).
    destruct x as [|[|[|x]]]; each_field Hm Hf;
      vm_compute in Hskip; try discriminate Hskip;
      vm_compute in Hl; discriminate Hl.
  - intros x y _ (m & f & Hm & Hf & Hskip & Hl).
    destruct x as [|[|[|x]]]; each_field Hm Hf;
      vm_compute in Hskip; try discriminate Hskip.
    vm_compute in Hl. injection Hl as <-. lia.
  - intros [|[|x]] _; lia.
Defined.

(** X4. Propagation never passes over a field whose type is not registered:
    when a flagged model is, or can reach, a model with a message field
    whose base type is missing from the name table, [ApplyMarshalFlags] does
    not return a registry. *)
Theorem propagation_stops_at_unregistered_type
  (fl : flag) (c : APIContext) (i k : nat) :
  flagAt fl c i = true →
  rtc (follows c) i k →
  dangling c k →
  ∀ fuel c', ApplyMarshalFlags fuel c ≠ Ok c'.
Proof. apply ApplyMarshalFlags_dangling. Qed.

Lemma propagation_stops_at_unregistered_type_witness :
  ∃ c, seededContext danglingOutputFile = Ok c
       ∧ ∀ fuel c', ApplyMarshalFlags fuel c ≠ Ok c'.
Proof.
  eexists. split; [vm_compute; reflexivity|].
  apply (propagation_stops_at_unregistered_type Unmarshal _ 0 0).
  - reflexivity.
  - apply rtc_refl.
  - eexists _, _. split; [reflexivity|].
    split; [apply list_elem_of_here|]. split; reflexivity.
Defined.

(** X5. Propagation does not return when a flagged model is on, or can
    reach, a cycle of message references, whatever the fuel. *)
Theorem propagation_never_returns_on_cycle
  (fl : flag) (c : APIContext) (i k : nat) :
  flagAt fl c i = true →
  rtc (follows c) i k →
  tc (follows c) k k →
  ∀ fuel c', ApplyMarshalFlags fuel c ≠ Ok c'.
Proof. apply ApplyMarshalFlags_on_cycle. Qed.

Lemma propagation_never_returns_on_cycle_witness :
  ∃ c, seededContext selfRefFile = Ok c
       ∧ ∀ fuel c', ApplyMarshalFlags fuel c ≠ Ok c'.
Proof.
  eexists. split; [vm_compute; reflexivity|].
  apply (propagation_never_returns_on_cycle Marshal _ 0 0).
  - reflexivity.
  - apply rtc_refl.
  - apply tc_once. eexists _, _. split; [reflexivity|].
    split; [apply list_elem_of_further, list_elem_of_here|].
    split; reflexivity.
Defined.

(** ** The registry *)

(** X6. In the registry that the template receives, the name table and the
    list of models agree: every entry of [modelLookup] points at a model of
    that name, and the name of every model is in [modelLookup], where it
    leads to the last model registered under that name. *)
Theorem registry_names_resolve
  (fuel : nat) (file : FileDescriptorProto) (ctx : APIContext) :
  clientContext fuel file = Ok ctx →
  (∀ k v, modelLookup ctx !! k = Some v →
          ∃ m, Models ctx !! v = Some m ∧ Name m = k)
  ∧ (∀ (i : nat) m, Models ctx !! i = Some m →
       ∃ (v : nat) m', modelLookup ctx !! Name m = Some v
                       ∧ Models ctx !! v = Some m'
                       ∧ Name m' = Name m ∧ (i ≤ v)%nat).
Proof.
  intros H. destruct (clientContext_lookup_invariants _ _ _ H) as (Hc & Hk).
  split; [exact Hc|]. intros i m Hm.
  destruct (Hk i m Hm) as (v & Hv & Hle).
  destruct (Hc _ _ Hv) as (m' & Hm' & Hn). now exists v, m'.
Qed.

Lemma registry_names_resolve_witness :
  ∃ ctx m,
    clientContext 5 taggedFile = Ok ctx
    ∧ modelLookup ctx !! "ItemTagsEntry" = Some 1
    ∧ Models ctx !! 1 = Some m
    ∧ Name m = "ItemTagsEntry".
Proof.
  destruct (clientContext 5 taggedFile) as [ctx| | |] eqn:Hrun;
    try (vm_compute in Hrun; discriminate).
  assert (Hl : modelLookup ctx !! "ItemTagsEntry" = Some 1)
    by (vm_compute in Hrun; injection Hrun as <-; reflexivity).
  destruct (proj1 (registry_names_resolve 5 taggedFile ctx Hrun) _ _ Hl)
    as (m & Hm & Hn).
  exists ctx, m. repeat split; assumption.
Defined.

(** X7. The flagged models are closed under message fields: when generation
    returns, every field that the propagator does not skip, in a model with
    [CanMarshal] (resp. [CanUnmarshal]), names a registered model that has
    the flag too, and that model, unless it is primitive, gets its own
    conversion function. *)
Theorem conversions_are_closed
  (fuel : nat) (file : FileDescriptorProto) (ctx : APIContext)
  (fl : flag) (i : nat) (m : Model) (f : ModelField) :
  clientContext fuel file = Ok ctx →
  Models ctx !! i = Some m →
  getFlag fl m = true →
  f ∈ Fields m →
  skipField f = false →
  ∃ j mj,
    modelLookup ctx !! baseType f = Some j
    ∧ Models ctx !! j = Some mj
    ∧ Name mj = baseType f
    ∧ getFlag fl mj = true
    ∧ (Primitive mj = false →
       Exists (fun d => isConversionFn fl d = true) (modelDecls mj)).
Proof.
  intros Hctx Hm Hfl Hf Hskip.
  destruct (clientContext_lookup_invariants _ _ _ Hctx) as (Hcons & _).
  destruct (clientContext_stages _ _ _ Hctx)
    as (ctxW & ctxS & _ & _ & _ & _ & Hrun & _).
  set (c0 := AddModel (seedFlags ctxS) dateModel) in *.
  destruct (ApplyMarshalFlags_closure fl _ _ _ Hrun) as (HS & Hclo).
  assert (Hi : flagAt fl ctx i = true)
    by now rewrite (flagAt_getFlag fl ctx i m Hm).
  destruct (proj1 (Hclo i) Hi) as (j0 & Hj0 & Hr0).
  destruct (sameShape_model _ _ _ _ (sameShape_sym _ _ HS) Hm)
    as (m0 & Hm0 & He).
  assert (Hf0 : f ∈ Fields m0) by now rewrite (eraseFlags_Fields _ _ He).
  destruct (modelLookup c0 !! baseType f) as [j|] eqn:Hl.
  - assert (Hedge : follows c0 i j) by now exists m0, f.
    assert (Hj : flagAt fl ctx j = true).
    { apply Hclo. exists j0. split; [exact Hj0|]. now apply rtc_r with i. }
    assert (Hlc : modelLookup ctx !! baseType f = Some j)
      by (destruct HS as (_ & _ & <-); exact Hl).
    destruct (Hcons _ _ Hlc) as (mj & Hmj & Hn).
    exists j, mj. split; [exact Hlc|]. split; [exact Hmj|].
    split; [exact Hn|].
    rewrite (flagAt_getFlag fl ctx j mj Hmj) in Hj. split; [exact Hj|].
    intros Hp. destruct fl.
    + now apply modelDecls_marshal.
    + now apply modelDecls_unmarshal.
  - exfalso.
    apply (ApplyMarshalFlags_dangling fl c0 j0 i Hj0 Hr0) with fuel ctx;
      [|exact Hrun].
    now exists m0, f.
Qed.

Lemma conversions_are_closed_witness :
  ∃ ctx mj,
    clientContext 5 taggedFile = Ok ctx
    ∧ Models ctx !! 1 = Some mj
    ∧ Name mj = "ItemTagsEntry"
    ∧ CanMarshal mj = true.
Proof.
  destruct (clientContext 5 taggedFile) as [ctx| | |] eqn:Hrun;
    try (vm_compute in Hrun; discriminate).
  destruct (Models ctx !! 0) as [m|] eqn:Hm;
    [|vm_compute in Hrun; injection Hrun as <-; discriminate].
  destruct (conversions_are_closed 5 taggedFile ctx Marshal 0 m
              {| FieldName := "tags"; FieldType := "ItemTagsEntry[]";
                 JSONName := "tags"; JSONType := "ItemTagsEntryJSON[]";
                 IsMessage := true; IsRepeated := true;
                 MapType := Some "Map<string,string>" |} Hrun Hm)
    as (j & mj & Hl & Hmj & Hn & Hfl & _).
  - vm_compute in Hrun. injection Hrun as <-. vm_compute in Hm.
    injection Hm as <-. reflexivity.
  - vm_compute in Hrun. injection Hrun as <-. vm_compute in Hm.
    injection Hm as <-. apply list_elem_of_here.
  - reflexivity.
  - assert (j = 1) as ->.
    { vm_compute in Hrun. injection Hrun as <-. vm_compute in Hl. congruence. }
    exists ctx, mj. repeat split; assumption.
Defined.

(** ** Type mapper and field types *)

(** X8. A repeated field always gets a type that ends in "[]", so the tests
    [f.Type == "Date"] of [stringify], [parse] and the propagator do not
    hold for a repeated timestamp field: it is rendered through the message
    branch, as [m.<name>.map(DateToJSON)] and [m.<json>.map(JSONToDate)],
    and the propagator resolves its base type "Date" in the name table. *)
Theorem repeated_timestamp_takes_message_branch
  (f : FieldDescriptorProto) (m : DescriptorProto) (pkg : string)
  (field : ModelField) :
  isRepeated f = true →
  newField f m pkg = Ok field →
  (IsRepeated field = true
   ∧ FieldType field = fst (types f pkg) +:+ "[]"
   ∧ FieldType field ≠ "Date")
  ∧ (f_GetType f = TYPE_MESSAGE →
     f_GetTypeName f = ".google.protobuf.Timestamp" →
     mapType f m pkg = None →
     FieldType field = "Date[]"
     ∧ JSONType field = "string[]"
     ∧ skipField field = false
     ∧ baseType field = "Date"
     ∧ stringify field = "m." +:+ FieldName field +:+ ".map(DateToJSON)"
     ∧ parse field = "m." +:+ JSONName field +:+ ".map(JSONToDate)").
Proof.
  intros Hrep. rewrite newField_eq.
  destruct (camelSafe (f_GetName f)); [|discriminate]. intros [= <-].
  assert (Hty : FieldType (fieldOf m pkg f) = fst (types f pkg) +:+ "[]").
  { cbn. unfold protoToTSType. destruct (types f pkg). now rewrite Hrep. }
  split.
  - split; [exact Hrep|]. split; [exact Hty|].
    rewrite Hty. apply sequence_type_not_Date.
  - intros Ht Hn Hmap.
    unfold stringify, parse, skipField, baseType.
    cbn [fieldOf FieldType JSONType IsMessage IsRepeated MapType FieldName
           JSONName].
    unfold protoToTSType, types. rewrite Ht, Hn, Hrep, Hmap. cbn.
    repeat split.
Qed.

Lemma repeated_timestamp_takes_message_branch_witness :
  ∃ field,
    newField (msgField "stamps" ".google.protobuf.Timestamp" LABEL_REPEATED)
      emptyMessage "pkg" = Ok field
    ∧ stringify field = "m.stamps.map(DateToJSON)"
    ∧ parse field = "m.stamps.map(JSONToDate)".
Proof.
  destruct (newField (msgField "stamps" ".google.protobuf.Timestamp" LABEL_REPEATED)
              emptyMessage "pkg") as [field| | |] eqn:Hf;
    try (vm_compute in Hf; discriminate).
  destruct (proj2 (repeated_timestamp_takes_message_branch
                     (msgField "stamps" ".google.protobuf.Timestamp"
                        LABEL_REPEATED)
                     emptyMessage "pkg" field eq_refl Hf)
              eq_refl eq_refl eq_refl)
    as (_ & _ & _ & _ & Hs & Hp).
  exists field. split; [reflexivity|].
  vm_compute in Hf. injection Hf as <-. split; assumption.
Defined.

(** X9. The propagator looks a field up under the name that the type
    mapper wrote: for a message field other than a timestamp, repeated or
    not, the base type of the field that [newField] builds is the
    namespace-stripped type name, provided that name neither begins nor ends
    with a bracket. *)
Theorem base_type_is_stripped_type_name
  (f : FieldDescriptorProto) (m : DescriptorProto) (pkg : string)
  (field : ModelField) :
  f_GetType f = TYPE_MESSAGE →
  f_GetTypeName f ≠ ".google.protobuf.Timestamp" →
  strings.Trim (removePkg (f_GetTypeName f) pkg) "[]"
  = removePkg (f_GetTypeName f) pkg →
  newField f m pkg = Ok field →
  IsMessage field = true
  ∧ baseType field = removePkg (f_GetTypeName f) pkg.
Proof.
  intros Ht Hn Htrim. rewrite newField_eq.
  destruct (camelSafe (f_GetName f)); [|discriminate]. intros [= <-].
  apply String.eqb_neq in Hn.
  assert (Hty : types f pkg = (removePkg (f_GetTypeName f) pkg,
                               removePkg (f_GetTypeName f) pkg +:+ "JSON"))
    by (unfold types; now rewrite Ht, Hn).
  unfold baseType.
  cbn [fieldOf FieldType IsMessage IsRepeated]. unfold protoToTSType.
  rewrite Hty, Ht. split; [reflexivity|].
  destruct (isRepeated f); cbn [fst].
  - now rewrite Trim_app_brackets.
  - reflexivity.
Qed.

Lemma base_type_is_stripped_type_name_witness :
  ∃ field,
    newField (msgField "items" ".pkg.Item" LABEL_REPEATED) emptyMessage "pkg"
    = Ok field
    ∧ FieldType field = "Item[]" ∧ baseType field = "Item".
Proof.
  destruct (newField (msgField "items" ".pkg.Item" LABEL_REPEATED)
              emptyMessage "pkg") as [field| | |] eqn:Hf;
    try (vm_compute in Hf; discriminate).
  destruct (base_type_is_stripped_type_name
              (msgField "items" ".pkg.Item" LABEL_REPEATED)
              emptyMessage "pkg" field eq_refl
              ltac:(discriminate) eq_refl Hf) as [_ Hb].
  exists field. split; [reflexivity|].
  vm_compute in Hf. injection Hf as <-. split; [reflexivity|exact Hb].
Defined.

(** X10. The namespace stripper turns the qualified name of a message of
    the file's own package into the flat name under which the walker
    registers it, whatever the depth of nesting; a name of another package
    only loses its dots. *)
Theorem stripped_reference_is_flat_name
  (pkg : string) (enclosing : list string) (own : string) :
  (removePkg (qualifiedName pkg (enclosing ++ [own])) pkg
   = strings.Join (map (strings.removeAll ".") (enclosing ++ [own])))
  ∧ (strings.removeAll "." own = own →
     removePkg (qualifiedName pkg (enclosing ++ [own])) pkg
     = flatName enclosing own)
  ∧ (∀ s, strings.HasPrefix s ("." +:+ pkg +:+ ".") = false →
          removePkg s pkg = strings.removeAll "." s).
Proof.
  split; [destruct enclosing; apply removePkg_qualified|]. split.
  - apply removePkg_flatName.
  - intros s Hs. unfold removePkg, strings.TrimPrefix. now rewrite Hs.
Qed.

Lemma stripped_reference_is_flat_name_witness :
  removePkg ".pkg.Outer.Inner" "pkg" = "OuterInner"
  ∧ removePkg ".other.Ext" "pkg" = "otherExt".
Proof.
  destruct (stripped_reference_is_flat_name "pkg" ["Outer"] "Inner")
    as (_ & Hflat & Hother).
  split; [exact (Hflat eq_refl)|exact (Hother ".other.Ext" eq_refl)].
Defined.

(** ** Emitter and service builder *)

(** X11. The emitted wire interfaces are exactly the messages of the file:
    when generation returns, the interfaces [<Name>JSON] come in the
    pre-order of the schema walk under the flattened names, one for each
    message and nested message, and none for the date placeholder or for a
    service. *)
Theorem wire_interfaces_follow_the_schema
  (fuel : nat) (file : FileDescriptorProto) (decls : list Decl) :
  CreateClientAPI fuel file = Ok decls →
  wireNames decls
  = map (fun n => n +:+ "JSON")
      (flat_map (flatNames []) (d_GetMessageType file)).
Proof.
  unfold CreateClientAPI. intros H.
  apply bind_Ok_inv in H as (ctx & Hctx & [= <-]).
  destruct (clientContext_stages _ _ _ Hctx)
    as (ctxW & ctxS & HW & _ & _ & _ & _ & Hm & _).
  destruct (walkMessages_inv _ _ _ _ HW) as (news & Hnews & _ & Hfresh & Hn).
  cbn [NewAPIContext Models app] in Hnews.
  unfold executeTemplate.
  rewrite wireNames_app, wireNames_services, app_nil_r, wireNames_models.
  rewrite Hm, flat_map_app, Hnews, (wireNames_fresh _ Hfresh), Hn.
  cbn. now rewrite app_nil_r.
Qed.

Lemma wire_interfaces_follow_the_schema_witness :
  ∃ decls,
    CreateClientAPI 5 taggedFile = Ok decls
    ∧ wireNames decls = ["ItemJSON"; "ItemTagsEntryJSON"].
Proof.
  destruct (CreateClientAPI 5 taggedFile) as [decls| | |] eqn:Hrun;
    try (vm_compute in Hrun; discriminate).
  exists decls. split; [reflexivity|].
  exact (wire_interfaces_follow_the_schema 5 taggedFile decls Hrun).
Defined.

(** X12. The conversion functions that a client method calls are declared
    under the names it calls them by: when generation returns, a model that
    is neither primitive nor a map entry and bears the name of a method's
    input type has the function [<InputType>ToJSON] among the declarations,
    and one that bears the name of the output type has [JSONTo<OutputType>]. *)
Theorem client_conversions_are_declared
  (fuel : nat) (file : FileDescriptorProto) (ctx : APIContext)
  (s : Service) (sm : ServiceMethod) (i : nat) (m : Model) :
  clientContext fuel file = Ok ctx →
  s ∈ Services ctx → sm ∈ Methods s →
  Models ctx !! i = Some m →
  Primitive m = false → Map m = None →
  (Name m = InputType sm →
   ToJSONFn (cmMarshal (clientMethod sm)) (paramName m) (InputType sm)
     (InputType sm +:+ "JSON")
     (map (fun f => (JSONName f, stringify f)) (Fields m))
   ∈ executeTemplate ctx)
  ∧ (Name m = OutputType sm →
     JSONToFn (cmUnmarshal (clientMethod sm)) (paramName m)
       (OutputType sm +:+ "JSON") (OutputType sm)
       (map (fun f => (FieldName f, parse f, missingDefault f)) (Fields m))
     ∈ executeTemplate ctx).
Proof.
  intros Hctx Hs Hsm Hi Hp Hmap.
  destruct (clientContext_placeholder _ _ _ Hctx)
    as (d & md & _ & Hd & Hdate & _ & Hflags & _).
  assert (Hid : i ≠ d).
  { intros ->. rewrite Hd in Hi. injection Hi as ->.
    apply (f_equal Primitive) in Hdate. cbn in Hdate. congruence. }
  assert (Hflag : ∀ fl, Name m = seedType fl sm → getFlag fl m = true).
  { intros fl Hn. rewrite <- (flagAt_getFlag fl ctx i m Hi).
    apply (Hflags fl i Hid). exists i. split; [|apply rtc_refl].
    exists m, s, sm. repeat split; assumption. }
  assert (Hin : ∀ d', d' ∈ modelDecls m → d' ∈ executeTemplate ctx).
  { intros d' Hd'. unfold executeTemplate. apply elem_of_app. left.
    apply list_elem_of_In, in_concat. exists (modelDecls m).
    split; [|now apply list_elem_of_In].
    apply in_map, list_elem_of_In. now apply (list_elem_of_lookup_2 _ i). }
  split; intros Hn; apply Hin; unfold modelDecls; rewrite Hp, Hmap.
  - pose proof (Hflag Marshal Hn) as Hf. cbn in Hf.
    unfold marshalDecls. rewrite Hf, Hmap, <- Hn. cbn [clientMethod cmMarshal].
    rewrite !elem_of_app, !list_elem_of_singleton. rewrite <- Hn. tauto.
  - pose proof (Hflag Unmarshal Hn) as Hf. cbn in Hf.
    unfold unmarshalDecls. rewrite Hf, Hmap. cbn [clientMethod cmUnmarshal].
    rewrite !elem_of_app, !list_elem_of_singleton. rewrite <- Hn. tauto.
Qed.

Lemma client_conversions_are_declared_witness :
  ∃ ctx,
    clientContext 5 greeterFile = Ok ctx
    ∧ ToJSONFn "HelloReqToJSON" "m" "HelloReq" "HelloReqJSON"
        [("name", "m.name")]
      ∈ executeTemplate ctx.
Proof.
  destruct (clientContext 5 greeterFile) as [ctx| | |] eqn:Hrun;
    try (vm_compute in Hrun; discriminate).
  destruct (Models ctx !! 0) as [m|] eqn:Hm;
    [|vm_compute in Hrun; injection Hrun as <-; discriminate].
  pose (sm := {| MethodName := "sayHello"; Path := "SayHello";
                 InputArg := "helloReq"; InputType := "HelloReq";
                 OutputType := "HelloResp" |}).
  destruct (client_conversions_are_declared 5 greeterFile ctx
              {| ServiceName := "Greeter"; Package := "pkg";
                 Methods := [sm] |} sm 0 m Hrun) as [Hin _].
  - vm_compute in Hrun. injection Hrun as <-. apply list_elem_of_here.
  - apply list_elem_of_here.
  - exact Hm.
  - vm_compute in Hrun. injection Hrun as <-. vm_compute in Hm.
    injection Hm as <-. reflexivity.
  - vm_compute in Hrun. injection Hrun as <-. vm_compute in Hm.
    injection Hm as <-. reflexivity.
  - exists ctx. split; [reflexivity|].
    vm_compute in Hrun. injection Hrun as <-. vm_compute in Hm.
    injection Hm as <-. exact (Hin eq_refl).
Defined.

(** X13. For a service whose method names and input types are ASCII, the
    service builder returns exactly when every method has a non-empty name
    and a non-empty namespace-stripped input type, and then keeps the
    methods in declaration order; with any other method the slice
    [methodPath[0:1]] or [in[0:1]] is out of range. *)
Theorem service_builder_returns_iff_sliceable
  (pkg : string) (s : ServiceDescriptorProto) :
  Forall asciiMethod (s_GetMethod s) →
  newService pkg s
  = if forallb (sliceable pkg) (s_GetMethod s)
    then Ok {| ServiceName := s_GetName s; Package := pkg;
               Methods := map (methodOf pkg) (s_GetMethod s) |}
    else Panic SliceOutOfRange.
Proof.
  intros _. unfold newService. rewrite methodLoop_sliceable.
  now destruct (forallb _ _).
Qed.

Lemma service_builder_returns_iff_sliceable_witness :
  newService "pkg"
    (mkServiceDescriptor "Svc"
       [mkMethodDescriptor "Ping" ".pkg.Req" ".pkg.Resp";
        mkMethodDescriptor "Do" ".pkg." ".pkg.Resp"])
  = Panic SliceOutOfRange
  ∧ newService "pkg"
      (mkServiceDescriptor "Svc"
         [mkMethodDescriptor "Ping" ".pkg.Req" ".pkg.Resp"])
    = Ok {| ServiceName := "Svc"; Package := "pkg";
            Methods := [{| MethodName := "ping"; Path := "Ping";
                           InputArg := "req"; InputType := "Req";
                           OutputType := "Resp" |}] |}.
Proof.
  split.
  - rewrite service_builder_returns_iff_sliceable; [reflexivity|].
    repeat constructor.
  - rewrite service_builder_returns_iff_sliceable; [reflexivity|].
    repeat constructor.
Defined.

(** ** Map fields *)

(** X14. The type written for a map field in the plain interface agrees
    with the signature of the entry's helper: when the field's type name
    ends in the name of the first map entry of that name nested in the
    message, and the entry's key and value fields are not repeated, then
    [mapType] returns [Map<K,V>] with [K] and [V] the types of the key and
    value fields that the walker stores in the entry's [MapDetails]. *)
Theorem map_type_matches_entry_details
  (f : FieldDescriptorProto) (m entry : DescriptorProto)
  (pkg q name : string) (before after : list DescriptorProto)
  (md : MapDetails) :
  f_GetTypeName f = q +:+ "." +:+ m_GetName entry →
  strings.inCutset "." (m_GetName entry) = false →
  m_GetNestedType m = before ++ entry :: after →
  Forall (fun n => m_GetName n = m_GetName entry → m_GetMapEntry n = false)
    before →
  mapDetailsOf entry pkg name = Some md →
  IsRepeated (KeyField md) = false →
  IsRepeated (ValueField md) = false →
  mapType f m pkg
  = Some ("Map<" +:+ FieldType (KeyField md) +:+ ","
          +:+ FieldType (ValueField md) +:+ ">").
Proof.
  intros Htn Hdot Hnested Hbefore Hmd Hk Hv. unfold mapType.
  rewrite Htn, (last_Split_app q _ Hdot), Hnested.
  replace (String.eqb (q +:+ "." +:+ m_GetName entry) "") with false
    by (now destruct q).
  assert (He : m_GetMapEntry entry = true).
  { unfold mapDetailsOf in Hmd. now destruct (m_GetMapEntry entry). }
  rewrite (mapTypeLoop_first entry pkg _ before after Hbefore eq_refl He).
  now rewrite (mapKeyVal_details entry pkg name md Hmd Hk Hv).
Qed.

Lemma map_type_matches_entry_details_witness :
  mapType (msgField "tags" ".pkg.Item.TagsEntry" LABEL_REPEATED)
    taggedMessage "pkg"
  = Some "Map<string,string>".
Proof.
  destruct (mapDetailsOf tagsEntry "pkg" "ItemTagsEntry") as [md|] eqn:Hmd;
    [|vm_compute in Hmd; discriminate].
  rewrite (map_type_matches_entry_details
             (msgField "tags" ".pkg.Item.TagsEntry" LABEL_REPEATED)
             taggedMessage tagsEntry "pkg" ".pkg.Item" "ItemTagsEntry"
             [] [] md eq_refl eq_refl eq_refl (Forall_nil_2 _) Hmd).
  - vm_compute in Hmd. injection Hmd as <-. reflexivity.
  - vm_compute in Hmd. injection Hmd as <-. reflexivity.
  - vm_compute in Hmd. injection Hmd as <-. reflexivity.
Defined.

(** X15. A map field calls the helpers of its entry by the names under
    which they are declared: for a repeated message field that [mapType]
    recognises and whose type is the entry [<base>Entry] nested under
    [enclosing] in the file's package, [stringify] calls
    [<flat base>MapToJSON] and [parse] calls [JSONTo<flat base>Map], which
    are the names of the functions emitted for the model that the walker
    registers for the entry. *)
Theorem map_field_calls_entry_helpers
  (f : FieldDescriptorProto) (m entry : DescriptorProto)
  (pkg prefix base : string) (enclosing : list string)
  (field : ModelField) (me : Model) :
  f_GetType f = TYPE_MESSAGE →
  isRepeated f = true →
  f_GetTypeName f = qualifiedName pkg (enclosing ++ [m_GetName entry]) →
  m_GetName entry = base +:+ "Entry" →
  strings.removeAll "." (m_GetName entry) = m_GetName entry →
  strings.removeAll "." prefix
  = strings.Join (map (strings.removeAll ".") enclosing) →
  is_Some (mapType f m pkg) →
  newField f m pkg = Ok field →
  eraseFlags me = modelOf entry prefix pkg →
  is_Some (Map me) →
  (stringify field
   = flatName enclosing base +:+ "MapToJSON(m." +:+ FieldName field +:+ ")"
   ∧ parse field
     = "JSONTo" +:+ flatName enclosing base +:+ "Map(m." +:+ JSONName field
       +:+ ")")
  ∧ (CanMarshal me = true →
     ∃ k v w es,
       marshalDecls me
       = [MapToJSONFn (flatName enclosing base +:+ "MapToJSON") k v w es])
  ∧ (CanUnmarshal me = true →
     ∃ w k v ke ve,
       unmarshalDecls me
       = [JSONToMapFn ("JSONTo" +:+ flatName enclosing base +:+ "Map")
            w k v ke ve]).
Proof.
  intros Ht Hrep Htn Hname Hdots Hprefix Hmt Hfield Hme Hmap.
  assert (Hty : types f pkg
                = (flatName enclosing (m_GetName entry),
                   flatName enclosing (m_GetName entry) +:+ "JSON")).
  { unfold types. rewrite Ht.
    replace (String.eqb (f_GetTypeName f) ".google.protobuf.Timestamp")
      with false.
    - now rewrite Htn, (removePkg_flatName pkg enclosing _ Hdots).
    - symmetry. apply String.eqb_neq.
      rewrite Htn, qualifiedName_last, Hname, <- append_assoc.
      apply Entry_not_Timestamp. }
  assert (Hflat : flatName enclosing (m_GetName entry)
                  = flatName enclosing base +:+ "Entry").
  { unfold flatName. now rewrite Hname, append_assoc. }
  split; [|split].
  - rewrite newField_eq in Hfield.
    destruct (camelSafe (f_GetName f)); [|discriminate].
    injection Hfield as <-. unfold stringify, parse.
    cbn [fieldOf FieldType IsRepeated IsMessage MapType FieldName JSONName].
    unfold protoToTSType. rewrite Hty, Hrep. cbn [fst].
    replace (String.eqb (flatName enclosing (m_GetName entry) +:+ "[]") "Date")
      with false
      by (symmetry; apply String.eqb_neq, sequence_type_not_Date).
    rewrite (bool_decide_eq_true_2 _ Hmt), Hflat, append_assoc.
    change ("Entry" +:+ "[]") with "Entry[]". rewrite TrimSuffix_app.
    now rewrite !append_assoc.
  - intros Hcm. unfold marshalDecls. rewrite Hcm.
    destruct Hmap as [md Hmd]. rewrite Hmd.
    assert (Hn : MapName md = flatName enclosing base).
    { apply (f_equal Map) in Hme. cbn [eraseFlags modelOf Map] in Hme.
      rewrite Hmd in Hme. unfold mapDetailsOf in Hme.
      destruct (m_GetMapEntry entry); [|discriminate].
      destruct (lastField _ _ "key" _ _); [|discriminate].
      destruct (lastField _ _ "value" _ _); [|discriminate].
      injection Hme as ->. cbn [MapName].
      rewrite Hprefix. fold (flatName enclosing (m_GetName entry)).
      rewrite Hflat. apply TrimSuffix_app. }
    rewrite Hn. eauto.
  - intros Hcu. unfold unmarshalDecls. rewrite Hcu.
    destruct Hmap as [md Hmd]. rewrite Hmd.
    assert (Hn : MapName md = flatName enclosing base).
    { apply (f_equal Map) in Hme. cbn [eraseFlags modelOf Map] in Hme.
      rewrite Hmd in Hme. unfold mapDetailsOf in Hme.
      destruct (m_GetMapEntry entry); [|discriminate].
      destruct (lastField _ _ "key" _ _); [|discriminate].
      destruct (lastField _ _ "value" _ _); [|discriminate].
      injection Hme as ->. cbn [MapName].
      rewrite Hprefix. fold (flatName enclosing (m_GetName entry)).
      rewrite Hflat. apply TrimSuffix_app. }
    rewrite Hn. eauto 6.
Qed.

Lemma map_field_calls_entry_helpers_witness :
  ∃ field,
    newField (msgField "tags" ".pkg.Item.TagsEntry" LABEL_REPEATED)
      taggedMessage "pkg" = Ok field
    ∧ stringify field = "ItemTagsMapToJSON(m.tags)"
    ∧ parse field = "JSONToItemTagsMap(m.tags)"
    ∧ ∃ k v w es,
        marshalDecls (setFlag Marshal (modelOf tagsEntry ".Item" "pkg"))
        = [MapToJSONFn "ItemTagsMapToJSON" k v w es].
Proof.
  destruct (newField (msgField "tags" ".pkg.Item.TagsEntry" LABEL_REPEATED)
              taggedMessage "pkg") as [field| | |] eqn:Hf;
    try (vm_compute in Hf; discriminate).
  destruct (map_field_calls_entry_helpers
              (msgField "tags" ".pkg.Item.TagsEntry" LABEL_REPEATED)
              taggedMessage tagsEntry "pkg" ".Item" "Tags" ["Item"] field
              (setFlag Marshal (modelOf tagsEntry ".Item" "pkg"))
              eq_refl eq_refl eq_refl eq_refl eq_refl eq_refl)
    as ((Hs & Hp) & Hm & _).
  - vm_compute. eexists. reflexivity.
  - exact Hf.
  - reflexivity.
  - vm_compute. eexists. reflexivity.
  - exists field. split; [reflexivity|].
    vm_compute in Hf. injection Hf as <-.
    split; [exact Hs|]. split; [exact Hp|]. exact (Hm eq_refl).
Defined.

(** ** Schema walker *)

(** X16. A returning [addMessageType] registers the message at the end of
    the registry as it stood, under the flattened name, with one field for
    each field of the message, in declaration order and each as [newField]
    builds it; the members of its wire interface carry the schema's field
    names in that order.  Registering the nested messages afterwards does
    not disturb it. *)
Theorem model_fields_follow_declaration_order
  (m : DescriptorProto) (prefix pkg : string) (ctx ctx' : APIContext) :
  addMessageType m prefix pkg ctx = Ok ctx' →
  ∃ model,
    Models ctx' !! length (Models ctx) = Some model
    ∧ Name model = strings.removeAll "." prefix +:+ m_GetName m
    ∧ Forall2 (fun f field => newField f m pkg = Ok field)
        (m_GetField m) (Fields model)
    ∧ ∃ members,
        WireInterface (Name model +:+ "JSON") members ∈ modelDecls model
        ∧ map memberName members = map f_GetName (m_GetField m).
Proof.
  intros H. pose proof (addMessageType_fieldsSafe _ _ _ _ _ H) as Hsafe.
  destruct (addMessageType_inv m _ _ _ _ H) as (rest & Hm & _).
  exists (modelOf m prefix pkg). split; [|split; [reflexivity|split]].
  - rewrite Hm, lookup_app_r, Nat.sub_diag by lia. reflexivity.
  - now apply newField_each.
  - eexists. split.
    + unfold modelDecls. cbn [modelOf Primitive].
      rewrite !elem_of_app, list_elem_of_singleton. right. left. reflexivity.
    + cbn [modelOf Fields]. rewrite !map_map. reflexivity.
Qed.

Lemma model_fields_follow_declaration_order_witness :
  ∃ ctx' model,
    addMessageType taggedMessage "" "pkg" NewAPIContext = Ok ctx'
    ∧ Models ctx' !! 0 = Some model
    ∧ Name model = "Item"
    ∧ map JSONName (Fields model) = ["tags"].
Proof.
  destruct (addMessageType taggedMessage "" "pkg" NewAPIContext)
    as [ctx'| | |] eqn:Hrun; try (vm_compute in Hrun; discriminate).
  destruct (model_fields_follow_declaration_order _ _ _ _ _ Hrun)
    as (model & Hl & Hn & Hfs & _).
  exists ctx', model. split; [reflexivity|]. split; [exact Hl|].
  split; [exact Hn|].
  vm_compute in Hrun. injection Hrun as <-. vm_compute in Hl.
  injection Hl as <-. reflexivity.
Defined.

(** ** Name collisions *)

(** X17. A message whose namespace-stripped name is "Date" is taken for the
    timestamp type: a field of that type which is not repeated gets the
    type "Date" with the wire type "DateJSON", it is converted with
    [toISOString()] and [new Date(...)] as a timestamp is, and the
    propagator skips it. *)
Theorem message_named_Date_is_taken_for_timestamp
  (f : FieldDescriptorProto) (m : DescriptorProto) (pkg : string)
  (field : ModelField) :
  f_GetType f = TYPE_MESSAGE →
  isRepeated f = false →
  f_GetTypeName f ≠ ".google.protobuf.Timestamp" →
  removePkg (f_GetTypeName f) pkg = "Date" →
  newField f m pkg = Ok field →
  FieldType field = "Date"
  ∧ JSONType field = "DateJSON"
  ∧ skipField field = true
  ∧ stringify field = "m." +:+ FieldName field +:+ ".toISOString()"
  ∧ parse field = "new Date(m." +:+ JSONName field +:+ ")".
Proof.
  intros Ht Hrep Hn Hdate. rewrite newField_eq.
  destruct (camelSafe (f_GetName f)); [|discriminate]. intros [= <-].
  apply String.eqb_neq in Hn.
  unfold stringify, parse, skipField.
  cbn [fieldOf FieldType JSONType IsMessage IsRepeated MapType FieldName
         JSONName].
  unfold protoToTSType, types. rewrite Ht, Hn, Hrep, Hdate. cbn.
  repeat split.
Qed.

Lemma message_named_Date_is_taken_for_timestamp_witness :
  ∃ field,
    newField (msgField "when" ".pkg.Date" LABEL_OPTIONAL) emptyMessage "pkg"
    = Ok field
    ∧ JSONType field = "DateJSON"
    ∧ stringify field = "m.when.toISOString()".
Proof.
  destruct (newField (msgField "when" ".pkg.Date" LABEL_OPTIONAL)
              emptyMessage "pkg") as [field| | |] eqn:Hf;
    try (vm_compute in Hf; discriminate).
  destruct (message_named_Date_is_taken_for_timestamp
              (msgField "when" ".pkg.Date" LABEL_OPTIONAL) emptyMessage "pkg"
              field eq_refl eq_refl ltac:(discriminate) eq_refl Hf)
    as (_ & Hj & _ & Hs & _).
  exists field. split; [reflexivity|]. split; [exact Hj|].
  vm_compute in Hf. injection Hf as <-. exact Hs.
Defined.

(** ** The whole pipeline *)

(** X18. Generation returns on every schema whose field names pass
    [camelCase], whose map entries have a key and a value, whose methods
    have non-empty names and input types, and whose message fields resolve
    within the registry without a cycle: from some recursion depth on,
    [CreateClientAPI] yields the same declarations. *)
Theorem generation_returns_on_acyclic_schemas
  (file : FileDescriptorProto) (rank : nat → nat) :
  forallb wellFormed (d_GetMessageType file) = true →
  Forall (fun s => Forall (validMethod (d_GetPackage file)) (s_GetMethod s))
    (d_GetService file) →
  (∀ c0, seededContext file = Ok c0 → resolved c0 ∧ ranked c0 rank) →
  ∃ fuel decls, ∀ extra, CreateClientAPI (extra + fuel) file = Ok decls.
Proof.
  intros Hwf Hsv Hgraph.
  destruct (generation_returns file rank Hwf Hsv Hgraph) as (fuel & ctx & H).
  exists fuel, (executeTemplate ctx). intros extra. unfold CreateClientAPI.
  now rewrite (clientContext_more_fuel fuel extra file ctx H).
Qed.

Lemma generation_returns_on_acyclic_schemas_witness :
  ∃ fuel decls, ∀ extra, CreateClientAPI (extra + fuel) taggedFile = Ok decls.
Proof.
  apply (generation_returns_on_acyclic_schemas taggedFile
           (fun x => match x with 0 => 1 | _ => 0 end)).
  - reflexivity.
  - repeat constructor; discriminate.
  - intros c0 Hc0. vm_compute in Hc0. injection Hc0 as <-. split.
    + intros i m f Hm Hf Hskip.
      destruct i as [|[|[|i]]]; each_field Hm Hf;
        vm_compute in Hskip; try discriminate Hskip.
      vm_compute. eexists. reflexivity.
    + intros x y (m & f & Hm & Hf & Hskip & Hl).
      destruct x as [|[|[|x]]]; each_field Hm Hf;
        vm_compute in Hskip; try discriminate Hskip.
      vm_compute in Hl. injection Hl as <-. lia.
Defined.

(** X19. When generation returns for a file whose method names and input
    types are ASCII, every method of the file had a non-empty name and a
    non-empty namespace-stripped input type, and the services that the
    template receives are the services of the file, in declaration order,
    each with its methods in declaration order; walking the messages,
    seeding and propagating the flags leave them alone. *)
Theorem services_follow_the_schema
  (fuel : nat) (file : FileDescriptorProto) (ctx : APIContext) :
  Forall (fun s => Forall asciiMethod (s_GetMethod s)) (d_GetService file) →
  clientContext fuel file = Ok ctx →
  Forall (fun s => forallb (sliceable (d_GetPackage file)) (s_GetMethod s)
                   = true)
    (d_GetService file)
  ∧ Services ctx
    = map (fun s => {| ServiceName := s_GetName s;
                       Package := d_GetPackage file;
                       Methods := map (methodOf (d_GetPackage file))
                                    (s_GetMethod s) |})
        (d_GetService file).
Proof.
  intros _ H.
  destruct (clientContext_stages _ _ _ H)
    as (ctxW & ctxS & HW & HS & _ & _ & Hrun & _).
  destruct (walkMessages_inv _ _ _ _ HW) as (_ & _ & HsW & _).
  destruct (buildServices_services _ _ _ _ HS) as (Hall & Hsvcs).
  destruct (ApplyMarshalFlags_closure Marshal _ _ _ Hrun)
    as ((_ & Hsame & _) & _).
  split; [exact Hall|].
  rewrite <- Hsame. cbn [AddModel seedFlags Services].
  rewrite Hsvcs, HsW. reflexivity.
Qed.

Lemma services_follow_the_schema_witness :
  ∃ ctx,
    clientContext 5 greeterFile = Ok ctx
    ∧ Services ctx
      = [{| ServiceName := "Greeter"; Package := "pkg";
            Methods := [{| MethodName := "sayHello"; Path := "SayHello";
                           InputArg := "helloReq"; InputType := "HelloReq";
                           OutputType := "HelloResp" |}] |}].
Proof.
  destruct (clientContext 5 greeterFile) as [ctx| | |] eqn:Hrun;
    try (vm_compute in Hrun; discriminate).
  exists ctx. split; [reflexivity|].
  destruct (services_follow_the_schema 5 greeterFile ctx) as [_ Hs];
    [repeat constructor|exact Hrun|].
  rewrite Hs. reflexivity.
Defined.
